(** * Search aggregator (lib/search-aggregator.js): scan jobs and result fusion

    A shallow embedding of [SearchAggregator]: the scan-job life cycle of
    [startScan] / [runScan], the cache, and the fusion pipeline
    [deduplicateResults] / [scoreResults] / sort.  Around it: the rate
    limiter of [BaseAdapter], the adapters without an API, the batch loop of
    [DirectPlatformAdapter], the scan endpoints of the HTTP server and the
    result list of the browser client.

    Conventions of the embedding.
    - JavaScript numbers are exact rationals ([Q]); comparisons and the sign
      of a difference are exact on finite doubles, the rounding of [+] and
      [*] is not modelled.  [undefined] is [None].
    - A finding is a value: adapters build fresh object literals on every
      [search], so no finding object is shared between two scans.
    - The promise machinery of [runScan] is a transition system: one event
      per macrotask (an adapter call settling, the total deadline firing, a
      call of [startScan]); the microtasks that follow it run to completion
      inside the same step.  [Date.now()] readings are inputs of the step. *)

From Stdlib Require Import Ascii String QArith Qminmax Qround Lqa Sorting.Sorted Permutation.
From stdpp Require Import gmap strings list pretty.

Local Open Scope Z_scope.
Local Open Scope string_scope.
Local Open Scope list_scope.

(** ** Runtime helpers *)

(** [String.prototype.toLowerCase], on ASCII letters. *)
Definition lowerAscii (c : ascii) : ascii :=
  let n := nat_of_ascii c in
  if (Nat.leb 65 n && Nat.leb n 90)%bool then ascii_of_nat (n + 32) else c.

Fixpoint toLowerCase (s : string) : string :=
  match s with
  | EmptyString => EmptyString
  | String c s' => String (lowerAscii c) (toLowerCase s')
  end.

(** Truthiness of a property that holds a string or is absent. *)
Definition truthy (v : option string) : bool :=
  match v with
  | Some s => negb (String.eqb s EmptyString)
  | None => false
  end.

(** [Array.prototype.join]. *)
Fixpoint join (sep : string) (l : list string) : string :=
  match l with
  | [] => EmptyString
  | [s] => s
  | s :: rest => s ++ sep ++ join sep rest
  end.

(** [a > b] on numbers; a comparison with [undefined] (NaN) is false. *)
Definition num_gt (a b : option Q) : bool :=
  match a, b with
  | Some x, Some y => negb (Qle_bool x y)
  | _, _ => false
  end.

(** [v || d] on a number: [undefined] and [0] are falsy. *)
Definition num_or (v : option Q) (d : Q) : Q :=
  match v with
  | Some x => if Qeq_bool x 0%Q then d else x
  | None => d
  end.

(** [Math.round]: the nearest integer, halves upwards. *)
Definition Math_round (x : Q) : Z := Qfloor (x + (1 # 2))%Q.

(** [Array.prototype.sort] with a comparator: a stable sort; [x] goes in
    front of [y] unless [compareFn x y > 0].  Insertion from the right
    keeps equal elements in their original order. *)
Section Sort.
Context {A : Type} (compareFn : A -> A -> Q).

Fixpoint sort_insert (x : A) (l : list A) : list A :=
  match l with
  | [] => [x]
  | y :: l' =>
      if Qle_bool (compareFn x y) 0%Q then x :: l else y :: sort_insert x l'
  end.

Fixpoint sort (l : list A) : list A :=
  match l with
  | [] => []
  | x :: l' => sort_insert x (sort l')
  end.
End Sort.

(** ** Data model *)

Inductive Level := high | medium | low.

Module Finding.
Record t := mk {
  id : string;
  source : string;
  url : option string;
  username : option string;
  email : option string;
  displayName : option string;
  bio : option string;
  location : option string;
  avatar : option string;
  verified : bool;
  confidence : option Q;
  confidenceLevel : option Level
}.

(** [result[field]] for the string-valued properties. *)
Definition get (r : t) (field : string) : option string :=
  if String.eqb field "url" then url r
  else if String.eqb field "username" then username r
  else if String.eqb field "email" then email r
  else if String.eqb field "displayName" then displayName r
  else if String.eqb field "bio" then bio r
  else if String.eqb field "location" then location r
  else if String.eqb field "avatar" then avatar r
  else if String.eqb field "id" then Some (id r)
  else if String.eqb field "source" then Some (source r)
  else None.

(** [result.confidence = c; result.confidenceLevel = l]. *)
Definition rescore (r : t) (c : Q) (l : Level) : t :=
  mk (id r) (source r) (url r) (username r) (email r) (displayName r)
     (bio r) (location r) (avatar r) (verified r) (Some c) (Some l).

(** The same finding with another [verified] flag and [username]. *)
Definition withIdentity (r : t) (v : bool) (u : option string) : t :=
mk (id r) (source r) (url r) u (email r) (displayName r)
   (bio r) (location r) (avatar r) v (confidence r) (confidenceLevel r).
End Finding.

Module Config.
Record t := mk {
  defaultTimeout : Z;
  totalTimeout : Z;
  cacheTTL : Z;
  enableCache : bool;
  dedupeFields : list string
}.
End Config.

Definition AGGREGATOR_CONFIG : Config.t :=
  Config.mk 30000 120000 3600 true ["url"; "username"; "email"].

(** ** Result fusion *)

Section Fusion.
Variable config : Config.t.

(** The composite key of [deduplicateResults]:
    [dedupeFields.map(field => result[field]).filter(Boolean).join('|')]. *)
Definition dedupeKey (result : Finding.t) : string :=
  join "|" (omap (fun field =>
                    let v := Finding.get result field in
                    if truthy v then v else None)
                 (Config.dedupeFields config)).

(** The filter callback of [deduplicateResults], with the [seen] map
    threaded through the traversal. *)
Fixpoint dedupe_from (seen : gmap string Finding.t) (results : list Finding.t)
  : list Finding.t :=
  match results with
  | [] => []
  | result :: rest =>
      let keys := dedupeKey result in
      if String.eqb keys EmptyString then result :: dedupe_from seen rest
      else
        match seen !! keys with
        | Some existing =>
            if num_gt (Finding.confidence result) (Finding.confidence existing)
            then result :: dedupe_from (<[keys := result]> seen) rest
            else dedupe_from seen rest
        | None => result :: dedupe_from (<[keys := result]> seen) rest
        end
  end.

Definition deduplicateResults (results : list Finding.t) : list Finding.t :=
  dedupe_from ∅ results.

(** The [seen] map at the end of the same traversal. *)
Fixpoint seen_from (seen : gmap string Finding.t) (results : list Finding.t)
  : gmap string Finding.t :=
  match results with
  | [] => seen
  | result :: rest =>
      let keys := dedupeKey result in
      if String.eqb keys EmptyString then seen_from seen rest
      else
        match seen !! keys with
        | Some existing =>
            if num_gt (Finding.confidence result) (Finding.confidence existing)
            then seen_from (<[keys := result]> seen) rest
            else seen_from seen rest
        | None => seen_from (<[keys := result]> seen) rest
        end
  end.
End Fusion.

Definition dataFields : list string :=
  ["displayName"; "bio"; "email"; "location"; "avatar"].

Definition usernameMatches (result : Finding.t) (query : string) : bool :=
  match Finding.username result with
  | Some u => String.eqb (toLowerCase u) (toLowerCase query)
  | None => false
  end.

Definition filledFields (result : Finding.t) : nat :=
  length (filter (fun f => truthy (Finding.get result f) = true) dataFields).

(** The score of one finding before it is clamped. *)
Definition rawScore (result : Finding.t) (query : string) : Q :=
  let score := num_or (Finding.confidence result) (1 # 2) in
  let score := if Finding.verified result then (score + (2 # 10))%Q else score in
  let score := if usernameMatches result query then (score + (3 # 10))%Q else score in
  (score + (inject_Z (Z.of_nat (filledFields result))
            / inject_Z (Z.of_nat (length dataFields))) * (1 # 10))%Q.

Definition levelOf (c : Q) : Level :=
  if Qle_bool (8 # 10) c then high
  else if Qle_bool (5 # 10) c then medium
  else low.

(** The map callback of [scoreResults]. *)
Definition scoreResult (query : string) (result : Finding.t) : Finding.t :=
  let c := Qmin 1%Q (Qmax 0%Q (rawScore result query)) in
  Finding.rescore result c (levelOf c).

Definition scoreResults (results : list Finding.t) (query : string)
  : list Finding.t :=
  map (scoreResult query) results.

(** Result fusion as [runScan] chains it: deduplicate, then score. *)
Definition fuseResults (config : Config.t) (results : list Finding.t)
    (query : string) : list Finding.t :=
  scoreResults (deduplicateResults config results) query.

(** [(a, b) => b.confidence - a.confidence]; a NaN difference counts as
    [+0] in the sort. *)
Definition byConfidence (a b : Finding.t) : Q :=
  match Finding.confidence b, Finding.confidence a with
  | Some cb, Some ca => (cb - ca)%Q
  | _, _ => 0%Q
  end.

(** ** Scan jobs *)

Module Options.
Record t := mk { adapters : option (list string) }.
End Options.

Module Adapter.
Record t := mk { name : string; priority : Z }.
End Adapter.

Inductive Status := running | completed | error.

(** An entry of [scan.errors]: [{ adapter, error }] pushed by the adapter
    callback, or the bare message pushed by the handler of [startScan]. *)
Inductive ScanError :=
| AdapterError (adapter message : string)
| ScanFailure (message : string).

Module Stats.
Record t := mk {
  totalSources : Z;
  completedSources : Z;
  totalResults : Z;
  uniqueResults : Z
}.
End Stats.

Module Scan.
Record t := mk {
  id : string;
  query : string;
  options : Options.t;
  status : Status;
  startTime : Z;
  endTime : option Z;
  progress : Z;
  results : list Finding.t;
  errors : list ScanError;
  stats : Stats.t;
  fromCache : bool
}.
End Scan.

Module CacheEntry.
Record t := mk { results : list Finding.t; timestamp : Z }.
End CacheEntry.

(** [JSON.stringify] of a string (quotes and backslashes escaped) and of
    the options object. *)
Definition quote : string := String "034" EmptyString.

Fixpoint JSON_escape (s : string) : string :=
  match s with
  | EmptyString => EmptyString
  | String c s' =>
      (if Ascii.eqb c "034" then "\" ++ quote
       else if Ascii.eqb c "\" then "\\"
       else String c EmptyString) ++ JSON_escape s'
  end.

Definition JSON_string (s : string) : string := quote ++ JSON_escape s ++ quote.

Definition JSON_stringify (options : Options.t) : string :=
  match Options.adapters options with
  | None => "{}"
  | Some names =>
      "{" ++ JSON_string "adapters" ++ ":[" ++ join "," (map JSON_string names) ++ "]}"
  end.

Definition getCacheKey (query : string) (options : Options.t) : string :=
  query ++ ":" ++ JSON_stringify options.

(** [Math.round((completedSources / totalSources) * 100)]. *)
Definition progressOf (st : Stats.t) : Z :=
  Math_round (inject_Z (Stats.completedSources st)
              / inject_Z (Stats.totalSources st) * 100)%Q.

Definition sourceCompleted (st : Stats.t) (found : Z) : Stats.t :=
  Stats.mk (Stats.totalSources st) (Stats.completedSources st + 1)
           (Stats.totalResults st + found) (Stats.uniqueResults st).

(** The adapter callback of [runScan] once its race has settled.  A
    fulfilled [search] appends its findings; a rejected one (the call threw,
    or the per-adapter [defaultTimeout] won the race) appends an error. *)
Inductive Outcome :=
| Fulfilled (results : list Finding.t)
| Rejected (message : string).

Definition adapterSettled (scan : Scan.t) (adapter : string) (o : Outcome)
  : Scan.t :=
  match o with
  | Fulfilled results =>
      let st := sourceCompleted (Scan.stats scan) (Z.of_nat (length results)) in
      Scan.mk (Scan.id scan) (Scan.query scan) (Scan.options scan)
        (Scan.status scan) (Scan.startTime scan) (Scan.endTime scan)
        (progressOf st) (Scan.results scan ++ results) (Scan.errors scan)
        st (Scan.fromCache scan)
  | Rejected message =>
      let st := sourceCompleted (Scan.stats scan) 0 in
      Scan.mk (Scan.id scan) (Scan.query scan) (Scan.options scan)
        (Scan.status scan) (Scan.startTime scan) (Scan.endTime scan)
        (progressOf st) (Scan.results scan)
        (Scan.errors scan ++ [AdapterError adapter message])
        st (Scan.fromCache scan)
  end.

(** The tail of [runScan], after its await: fuse, sort, complete. *)
Definition completeScan (config : Config.t) (scan : Scan.t) (now : Z) : Scan.t :=
  let fused := fuseResults config (Scan.results scan) (Scan.query scan) in
  let st := Scan.stats scan in
  Scan.mk (Scan.id scan) (Scan.query scan) (Scan.options scan)
    completed (Scan.startTime scan) (Some now) 100
    (sort byConfidence fused) (Scan.errors scan)
    (Stats.mk (Stats.totalSources st) (Stats.completedSources st)
              (Stats.totalResults st) (Z.of_nat (length fused)))
    (Scan.fromCache scan).

(** The rejection handler that [startScan] attaches to [runScan]. *)
Definition failScan (scan : Scan.t) (message : string) : Scan.t :=
  Scan.mk (Scan.id scan) (Scan.query scan) (Scan.options scan)
    error (Scan.startTime scan) (Scan.endTime scan) (Scan.progress scan)
    (Scan.results scan) (Scan.errors scan ++ [ScanFailure message])
    (Scan.stats scan) (Scan.fromCache scan).

(** ** The aggregator *)

(** One scan object together with what is left of its [runScan] call: the
    adapters whose call has not settled, and whether the race between
    [Promise.all] and the total deadline is over.  A job is addressed by its
    position in the heap, the identity of the scan object that the closures
    of [runScan] hold. *)
Record Job := mkJob {
  scan : Scan.t;
  pending : list string;
  raceSettled : bool
}.

Record Aggregator := mkAggregator {
  config : Config.t;
  adapters : list Adapter.t;
  heap : list Job;
  scans : gmap string nat;
  cache : gmap string CacheEntry.t
}.

(** [this.adapters.set(adapter.name, adapter)]: a [Map] keeps the position
    of a key that is set again. *)
Fixpoint setAdapter (a : Adapter.t) (l : list Adapter.t) : list Adapter.t :=
  match l with
  | [] => [a]
  | b :: l' =>
      if String.eqb (Adapter.name b) (Adapter.name a) then a :: l'
      else b :: setAdapter a l'
  end.

Definition registerAdapter (agg : Aggregator) (a : Adapter.t) : Aggregator :=
  mkAggregator (config agg) (setAdapter a (adapters agg)) (heap agg)
               (scans agg) (cache agg).

(** [new SearchAggregator(options)]: empty tables, then the adapters of
    [registerDefaultAdapters] (here: any list) are registered in turn. *)
Definition newAggregator (config : Config.t) (defaults : list Adapter.t)
  : Aggregator :=
  foldl registerAdapter (mkAggregator config [] [] ∅ ∅) defaults.

Definition getScan (agg : Aggregator) (scanId : string) : option Scan.t :=
  ref ← scans agg !! scanId; scan <$> heap agg !! ref.

(** The readings of [Date.now()] that one step may take. *)
Record Clock := mkClock {
  t_start : Z;   (* startTime *)
  t_check : Z;   (* the freshness test of the cache *)
  t_end : Z;     (* endTime *)
  t_cache : Z    (* timestamp of the cache entry *)
}.

(** The cache test of [startScan]: enabled, present and younger than
    [cacheTTL] seconds. *)
Definition cacheHit (agg : Aggregator) (cacheKey : string) (now : Z)
  : option CacheEntry.t :=
  if Config.enableCache (config agg) then
    match cache agg !! cacheKey with
    | Some cached =>
        if Z.ltb (now - CacheEntry.timestamp cached)
                 (Config.cacheTTL (config agg) * 1000)
        then Some cached else None
    | None => None
    end
  else None.

(** The adapters that [runScan] dispatches to, sorted by priority. *)
Definition selectedAdapters (agg : Aggregator) (options : Options.t)
  : list Adapter.t :=
  let selected :=
    match Options.adapters options with
    | Some names =>
        filter (fun a => Adapter.name a ∈ names) (adapters agg)
    | None => adapters agg
    end in
  sort (fun a b => inject_Z (Adapter.priority a - Adapter.priority b)) selected.

(** Once the last adapter callback has run, [Promise.all] wins the race
    (unless the deadline already has) and the tail of [runScan] runs in the
    same turn: the scan completes and, with caching on, the cache is
    written. *)
Definition raceWon (j : Job) : bool :=
  match pending j with
  | [] => negb (raceSettled j)
  | _ :: _ => false
  end.

Definition putJob (agg : Aggregator) (ref : nat) (j : Job) : Aggregator :=
  mkAggregator (config agg) (adapters agg) (<[ref := j]> (heap agg))
               (scans agg) (cache agg).

Definition writeCache (agg : Aggregator) (s : Scan.t) (now : Z) : Aggregator :=
  if Config.enableCache (config agg) then
    mkAggregator (config agg) (adapters agg) (heap agg) (scans agg)
      (<[getCacheKey (Scan.query s) (Scan.options s) :=
           CacheEntry.mk (Scan.results s) now]> (cache agg))
  else agg.

Definition resume (agg : Aggregator) (ref : nat) (j : Job) (clock : Clock)
  : Aggregator :=
  if raceWon j then
    let s := completeScan (config agg) (scan j) (t_end clock) in
    writeCache (putJob agg ref (mkJob s [] true)) s (t_cache clock)
  else putJob agg ref j.

(** The scan object that [startScan] creates. *)
Definition newScan (agg : Aggregator) (scanId query : string)
    (options : Options.t) (now : Z) : Scan.t :=
  Scan.mk scanId query options running now None 0 [] []
    (Stats.mk (Z.of_nat (length (adapters agg))) 0 0 0) false.

(** The cache path of [startScan]: [results], [status], [endTime] and
    [fromCache] are set, the rest of the scan stays as created. *)
Definition serveCached (s : Scan.t) (cached : CacheEntry.t) (now : Z) : Scan.t :=
  Scan.mk (Scan.id s) (Scan.query s) (Scan.options s) completed
    (Scan.startTime s) (Some now) (Scan.progress s)
    (CacheEntry.results cached) (Scan.errors s) (Scan.stats s) true.

(** [scan.stats.totalSources = selectedAdapters.length]. *)
Definition setTotalSources (s : Scan.t) (n : nat) : Scan.t :=
  let st := Scan.stats s in
  Scan.mk (Scan.id s) (Scan.query s) (Scan.options s) (Scan.status s)
    (Scan.startTime s) (Scan.endTime s) (Scan.progress s) (Scan.results s)
    (Scan.errors s)
    (Stats.mk (Z.of_nat n) (Stats.completedSources st) (Stats.totalResults st)
              (Stats.uniqueResults st))
    (Scan.fromCache s).

(** [startScan]: the new scan object enters the table (no [runScan] is
    attached to it yet); a fresh cache entry completes it at once; otherwise
    [runScan] starts and every selected adapter is called. *)
Definition startScan (agg : Aggregator) (scanId query : string)
    (options : Options.t) (clock : Clock) : Aggregator :=
  let ref := length (heap agg) in
  let s0 := newScan agg scanId query options (t_start clock) in
  let agg0 :=
    mkAggregator (config agg) (adapters agg)
      (heap agg ++ [mkJob s0 [] true])
      (<[scanId := ref]> (scans agg)) (cache agg) in
  match cacheHit agg (getCacheKey query options) (t_check clock) with
  | Some cached =>
      putJob agg0 ref (mkJob (serveCached s0 cached (t_end clock)) [] true)
  | None =>
      let selected := selectedAdapters agg options in
      resume agg0 ref
        (mkJob (setTotalSources s0 (length selected))
               (map Adapter.name selected) false)
        clock
  end.

(** The job after the callback of [adapter] has run. *)
Definition called (j : Job) (adapter : string) (o : Outcome) : Job :=
  mkJob (adapterSettled (scan j) adapter o)
        (filter (fun a => a ≠ adapter) (pending j))
        (raceSettled j).

(** One adapter call of job [ref] settles (each call settles once). *)
Definition settle (agg : Aggregator) (ref : nat) (adapter : string)
    (o : Outcome) (clock : Clock) : Aggregator :=
  match heap agg !! ref with
  | Some j =>
      if bool_decide (adapter ∈ pending j) then
        resume agg ref (called j adapter o) clock
      else agg
  | None => agg
  end.

(** The timer of [this.timeout(totalTimeout)] fires.  While the race is
    open it rejects [runScan] with [Error('Timeout')], which the handler of
    [startScan] turns into the error status; afterwards it has no effect. *)
Definition deadline (agg : Aggregator) (ref : nat) : Aggregator :=
  match heap agg !! ref with
  | Some j =>
      if raceSettled j then agg
      else putJob agg ref (mkJob (failScan (scan j) "Timeout") (pending j) true)
  | None => agg
  end.

Inductive Event :=
| Register (adapter : Adapter.t)
| StartScan (scanId query : string) (options : Options.t) (clock : Clock)
| Settle (ref : nat) (adapter : string) (o : Outcome) (clock : Clock)
| Deadline (ref : nat).

Definition step (agg : Aggregator) (e : Event) : Aggregator :=
  match e with
  | Register a => registerAdapter agg a
  | StartScan scanId query options clock => startScan agg scanId query options clock
  | Settle ref adapter o clock => settle agg ref adapter o clock
  | Deadline ref => deadline agg ref
  end.

Definition run (agg : Aggregator) (events : list Event) : Aggregator :=
  foldl step agg events.

(** The states the aggregator can be in. *)
Definition reachable (agg : Aggregator) : Prop :=
  ∃ config adapters events, agg = run (newAggregator config adapters) events.

(** ** Vocabulary of the properties *)

(** [conf_ge a b]: both confidences are numbers and [a]'s is not below
    [b]'s. *)
Definition conf_ge (a b : Finding.t) : Prop :=
  ∃ ca cb, Finding.confidence a = Some ca ∧ Finding.confidence b = Some cb
           ∧ (cb <= ca)%Q.

Definition descending (l : list Finding.t) : Prop := StronglySorted conf_ge l.

Definition scored (r : Finding.t) : Prop := is_Some (Finding.confidence r).

(** [sameConfidence c r]: the confidence of [r] is the number [c]. *)
Definition sameConfidence (c : Q) (r : Finding.t) : Prop :=
  match Finding.confidence r with
  | Some c' => Qeq_bool c' c = true
  | None => False
  end.

#[global] Instance sameConfidence_dec c r : Decision (sameConfidence c r).
Proof. unfold sameConfidence. destruct (Finding.confidence r); apply _. Defined.

(** The stub findings of the integration test: one URL, confidences 0.8
    and 0.6. *)
Definition stubFinding (id : string) (username : option string) (c : Q)
  : Finding.t :=
  Finding.mk id "dupe" (Some "https://example.com/user") username None
             None None None None false (Some c) None.

(** How many of the five richness fields of a finding are non-empty. *)
Definition richness (r : Finding.t) : Z :=
  Z.b2z (truthy (Finding.displayName r)) + Z.b2z (truthy (Finding.bio r))
  + Z.b2z (truthy (Finding.email r)) + Z.b2z (truthy (Finding.location r))
  + Z.b2z (truthy (Finding.avatar r)).

(** A finding that carries nothing but an identifier and a confidence, as
    the adapters of the integration tests return them. *)
Definition plainFinding (id : string) (c : Q) : Finding.t :=
  Finding.mk id "levels" None None None None None None None false (Some c) None.

(** The job as [resume] stores it. *)
Definition resumed (config : Config.t) (j : Job) (clock : Clock) : Job :=
  if raceWon j then mkJob (completeScan config (scan j) (t_end clock)) [] true
  else j.

(** The moves of one job: nothing, an adapter callback (which completes the
    scan when it is the last one and the race is open), the deadline. *)
Inductive job_step (config : Config.t) : Job -> Job -> Prop :=
| job_same j : job_step config j j
| job_called j adapter o clock :
    adapter ∈ pending j ->
    job_step config j (resumed config (called j adapter o) clock)
| job_timed_out j :
    raceSettled j = false ->
    job_step config j (mkJob (failScan (scan j) "Timeout") (pending j) true).

(** The job that [startScan] creates. *)
Definition started (agg : Aggregator) (scanId query : string)
    (options : Options.t) (clock : Clock) : Job :=
  let s0 := newScan agg scanId query options (t_start clock) in
  match cacheHit agg (getCacheKey query options) (t_check clock) with
  | Some cached => mkJob (serveCached s0 cached (t_end clock)) [] true
  | None =>
      let selected := selectedAdapters agg options in
      resumed (config agg)
        (mkJob (setTotalSources s0 (length selected))
               (map Adapter.name selected) false)
        clock
  end.

(** The invariant of a job: a completed job is at rest, sorted and stamped;
    an open race means a running scan that still waits; progress follows the
    counters until completion. *)
Record job_ok (j : Job) : Prop := mk_job_ok {
  ok_completed :
    Scan.status (scan j) = completed ->
    pending j = [] ∧ raceSettled j = true
    ∧ descending (Scan.results (scan j))
    ∧ is_Some (Scan.endTime (scan j))
    ∧ (Scan.fromCache (scan j) = false -> Scan.progress (scan j) = 100);
  ok_open :
    raceSettled j = false -> Scan.status (scan j) = running ∧ pending j ≠ [];
  ok_running :
    Scan.status (scan j) = running -> raceSettled j = false;
  ok_progress :
    Scan.status (scan j) ≠ completed ->
    Scan.progress (scan j) = progressOf (Scan.stats (scan j));
  ok_counts :
    0 <= Stats.completedSources (Scan.stats (scan j))
    ∧ Stats.completedSources (Scan.stats (scan j))
      + Z.of_nat (length (pending j))
      <= Stats.totalSources (Scan.stats (scan j));
  ok_pending : NoDup (pending j)
}.

(** The invariant of the aggregator: every job is well, every cached list
    is sorted, adapter names are unique. *)
Record agg_ok (agg : Aggregator) : Prop := mk_agg_ok {
  ok_heap : Forall job_ok (heap agg);
  ok_cache :
    map_Forall (fun _ cached => descending (CacheEntry.results cached)) (cache agg);
  ok_adapters : NoDup (map Adapter.name (adapters agg))
}.

(** One reading of the clock for a whole step. *)
Definition tick (now : Z) : Clock := mkClock now now now now.

(** A configuration whose total deadline is shorter than the per-adapter
    one: [new SearchAggregator({ totalTimeout: 1000 })]. *)
Definition shortDeadline : Config.t :=
  Config.mk 30000 1000 3600 true ["url"; "username"; "email"].

(** The scan after the callbacks of the failing adapters [order], each
    with its own message. *)
Definition failed (message : string -> string) (s : Scan.t) (order : list string)
  : Scan.t :=
  foldl (fun s a => adapterSettled s a (Rejected (message a))) s order.

(** The event of adapter [a] of job [ref] failing. *)
Definition failure (message : string -> string) (clocks : string -> Clock)
    (ref : nat) (a : string) : Event :=
  Settle ref a (Rejected (message a)) (clocks a).

(** Whether an event is addressed to job [ref]. *)
Definition concerns (ref : nat) (e : Event) : Prop :=
  match e with
  | Settle ref' _ _ _ | Deadline ref' => ref' = ref
  | _ => False
  end.

#[global] Instance concerns_dec ref e : Decision (concerns ref e).
Proof. destruct e; simpl; apply _. Defined.

(** What an event does to job [ref], seen from the job alone. *)
Definition job_event (config : Config.t) (ref : nat) (j : Job) (e : Event) : Job :=
  match e with
  | Settle ref' a o clock =>
      if bool_decide (ref' = ref ∧ a ∈ pending j)
      then resumed config (called j a o) clock else j
  | Deadline ref' =>
      if bool_decide (ref' = ref ∧ raceSettled j = false)
      then mkJob (failScan (scan j) "Timeout") (pending j) true else j
  | _ => j
  end.

(** ** Adapters *)

Module RateLimit.
Record t := mk { requests : Z; window : Z }.
End RateLimit.

(** The [config] argument of an adapter's constructor. *)
Module AdapterConfig.
Record t := mk { priority : option Z; rateLimit : option RateLimit.t }.
End AdapterConfig.

Module BaseAdapter.
Record t := mk {
  name : string;
  priority : Z;
  rateLimit : RateLimit.t;
  lastRequest : Z;
  requestCount : Z
}.

(** [new BaseAdapter(name, config)]: [config.priority || 5] and
    [config.rateLimit || { requests: 10, window: 60000 }]. *)
Definition new (name : string) (config : AdapterConfig.t) : t :=
  mk name
     (match AdapterConfig.priority config with
      | Some p => if Z.eqb p 0 then 5 else p
      | None => 5
      end)
     (default (RateLimit.mk 10 60000) (AdapterConfig.rateLimit config))
     0 0.

(** [checkRateLimit] up to its [await]: the window is renewed when it has
    run out; with the budget of the window used up the call goes to sleep
    (the wait is returned), otherwise it is counted. *)
Definition checkRateLimit_enter (a : t) (now : Z) : t * option Z :=
  let a :=
    if Z.ltb (RateLimit.window (rateLimit a)) (now - lastRequest a)
    then mk (name a) (priority a) (rateLimit a) now 0
    else a in
  if Z.leb (RateLimit.requests (rateLimit a)) (requestCount a) then
    (a, Some (RateLimit.window (rateLimit a) - (now - lastRequest a)))
  else
    (mk (name a) (priority a) (rateLimit a) (lastRequest a) (requestCount a + 1),
     None).

(** [checkRateLimit] after its sleep, at the time [woke]. *)
Definition checkRateLimit_wake (a : t) (woke : Z) : t :=
  mk (name a) (priority a) (rateLimit a) woke 1.

(** One call of [checkRateLimit] that no other call of the adapter
    interleaves with. *)
Definition checkRateLimit (a : t) (now woke : Z) : t :=
  match checkRateLimit_enter a now with
  | (a', Some _) => checkRateLimit_wake a' woke
  | (a', None) => a'
  end.

(** The turns of the event loop in which calls of [checkRateLimit] of one
    adapter run, calls of several scans interleaved. *)
Inductive Turn :=
| Enter (now : Z)
| Wake (woke : Z).

Definition turn (a : t) (e : Turn) : t :=
  match e with
  | Enter now => fst (checkRateLimit_enter a now)
  | Wake woke => checkRateLimit_wake a woke
  end.

(** [normalizeResult(raw, type)], at the time [now] and with the digits
    [random] of [Math.random().toString(36).substr(2, 9)]; of its
    properties the finding keeps those that the aggregator reads. *)
Definition normalizeResult (a : t) (now : Z) (random : string) : Finding.t :=
  Finding.mk (name a ++ "-" ++ pretty now ++ "-" ++ random)%string (name a)
             None None None None None None None false (Some (1 # 2)) None.
End BaseAdapter.

(** The finding that an adapter without an API returns for every query:
    [{ ...normalizeResult({}, 'potential'), username: query,
       url: site + query, confidence: 0.3, verified: false }]. *)
Definition potentialMatch (a : BaseAdapter.t) (site query : string)
    (now : Z) (random : string) : Finding.t :=
  let r := BaseAdapter.normalizeResult a now random in
  Finding.mk (Finding.id r) (Finding.source r) (Some (site ++ query)%string) (Some query)
             (Finding.email r) (Finding.displayName r) (Finding.bio r)
             (Finding.location r) (Finding.avatar r) false (Some (3 # 10))
             (Finding.confidenceLevel r).

Module TwitterAdapter.
Definition new : BaseAdapter.t :=
  BaseAdapter.new "twitter" (AdapterConfig.mk (Some 1) None).

(** [search] while no bearer token is configured. *)
Definition search (query : string) (now : Z) (random : string) : list Finding.t :=
  [potentialMatch new "https://twitter.com/" query now random].
End TwitterAdapter.

Module InstagramAdapter.
Definition new : BaseAdapter.t :=
  BaseAdapter.new "instagram" (AdapterConfig.mk (Some 2) None).

Definition search (query : string) (now : Z) (random : string) : list Finding.t :=
  [potentialMatch new "https://instagram.com/" query now random].
End InstagramAdapter.

Module LinkedInAdapter.
Definition new : BaseAdapter.t :=
  BaseAdapter.new "linkedin" (AdapterConfig.mk (Some 2) None).

Definition search (query : string) (now : Z) (random : string) : list Finding.t :=
  [potentialMatch new "https://linkedin.com/in/" query now random].
End LinkedInAdapter.

Module Platform.
Record t := mk { name : string; url : string; category : string }.
End Platform.

(** [DirectPlatformAdapter.search]: the selected platforms are probed in
    batches of ten, with a sleep between two batches.  [check] is what the
    probe of one platform comes to: the finding of a URL that answered 200,
    or nothing. *)
Module DirectPlatformAdapter.
Section Search.
Variable check : Platform.t -> option Finding.t.

Definition batchSize : nat := 10.

(** [options.platforms ? platforms.filter(p =>
       options.platforms.includes(p.name.toLowerCase())) : platforms]. *)
Definition selectedPlatforms (platforms : list Platform.t)
    (requested : option (list string)) : list Platform.t :=
  match requested with
  | Some names => filter (fun p => toLowerCase (Platform.name p) ∈ names) platforms
  | None => platforms
  end.

(** What the loop has done: the findings pushed, the batches sent (each a
    [Promise.all] of probes) and the sleeps taken. *)
Record Trace := mkTrace {
  results : list Finding.t;
  batches : list (list Platform.t);
  sleeps : nat
}.

(** The [for] loop from index [i] on; [fuel] bounds its iterations. *)
Fixpoint searchFrom (fuel i : nat) (selected : list Platform.t) (t : Trace)
  : option Trace :=
  match fuel with
  | O => None
  | S fuel' =>
      if Nat.ltb i (length selected) then
        let batch := take batchSize (drop i selected) in
        let t' :=
          mkTrace (results t ++ omap check batch) (batches t ++ [batch])
                  (if Nat.ltb (i + batchSize) (length selected)
                   then S (sleeps t) else sleeps t) in
        searchFrom fuel' (i + batchSize) selected t'
      else Some t
  end.

Definition search (platforms : list Platform.t) (requested : option (list string))
  : option Trace :=
  let selected := selectedPlatforms platforms requested in
  searchFrom (S (length selected)) 0 selected (mkTrace [] [] 0).
End Search.
End DirectPlatformAdapter.

(** ** The HTTP interface of the scans (server.js) *)

(** The character class [[a-zA-Z0-9_.\-@]]. *)
Definition queryChar (c : ascii) : bool :=
  let n := nat_of_ascii c in
  (Nat.leb 97 n && Nat.leb n 122) || (Nat.leb 65 n && Nat.leb n 90)
  || (Nat.leb 48 n && Nat.leb n 57)
  || Ascii.eqb c "_" || Ascii.eqb c "." || Ascii.eqb c "-" || Ascii.eqb c "@".

(** [/^[a-zA-Z0-9_.\-@]+$/.test(query)]. *)
Definition queryFormat (query : string) : bool :=
  negb (String.eqb query EmptyString)
  && forallb queryChar (list_ascii_of_string query).

(** The checks of [POST /api/scan] on [req.body.query] (a string, or
    absent): the error of the 400 response, if any. *)
Definition checkQuery (query : option string) : option string :=
  match query with
  | None => Some "Query parameter required"
  | Some q =>
      if String.eqb q EmptyString then Some "Query parameter required"
      else if queryFormat q then None
      else Some "Invalid query format"
  end.

Inductive Response (A : Type) :=
| NotFound (error : string)
| Json (body : A).
Arguments NotFound {A} error.
Arguments Json {A} body.

(** The body of [GET /api/scan/:id]. *)
Module ScanReport.
Record t := mk {
  id : string;
  query : string;
  status : Status;
  progress : Z;
  stats : Stats.t;
  startTime : Z;
  endTime : option Z;
  duration : Z;
  results : list Finding.t;
  errors : list ScanError;
  fromCache : bool
}.
End ScanReport.

(** A time stamp as a condition: [null] and [0] are falsy. *)
Definition stamped (t : option Z) : bool :=
  match t with
  | Some t => negb (Z.eqb t 0)
  | None => false
  end.

(** [a - b] where [a] may be [null], which counts as [0]. *)
Definition since (t : option Z) (start : Z) : Z := default 0 t - start.

(** [GET /api/scan/:id] at the time [now]. *)
Definition getScanStatus (agg : Aggregator) (scanId : string) (now : Z)
  : Response ScanReport.t :=
  match getScan agg scanId with
  | None => NotFound "Scan not found"
  | Some s =>
      Json (ScanReport.mk (Scan.id s) (Scan.query s) (Scan.status s)
              (Scan.progress s) (Scan.stats s) (Scan.startTime s) (Scan.endTime s)
              (if stamped (Scan.endTime s) then since (Scan.endTime s) (Scan.startTime s)
               else now - Scan.startTime s)
              (Scan.results s) (Scan.errors s) (Scan.fromCache s))
  end.

(** The messages of [GET /api/scan/:id/stream]. *)
Inductive StreamMessage :=
| Init (scanId : string) (status : Status) (progress : Z) (resultsCount : nat)
| Complete (id : string) (status : Status) (progress : Z) (stats : Stats.t)
           (results : list Finding.t) (errors : list ScanError) (duration : Z).

(** What [GET /api/scan/:id/stream] writes when the client connects, and
    whether it ends the response at once. *)
Definition openStream (agg : Aggregator) (scanId : string)
  : Response (list StreamMessage * bool) :=
  match getScan agg scanId with
  | None => NotFound "Scan not found"
  | Some s =>
      let init :=
        Init (Scan.id s) (Scan.status s) (Scan.progress s)
             (length (Scan.results s)) in
      match Scan.status s with
      | running => Json ([init], false)
      | _ =>
          Json ([init;
                 Complete (Scan.id s) (Scan.status s) 100 (Scan.stats s)
                          (Scan.results s) (Scan.errors s)
                          (since (Scan.endTime s) (Scan.startTime s))],
                true)
      end
  end.

(** ** The browser client of the scans (OSINTSearchClient) *)

(** [a >= b] on numbers; a comparison with [undefined] is false. *)
Definition num_ge (a : option Q) (b : Q) : bool :=
  match a with
  | Some x => Qle_bool b x
  | None => false
  end.

(** The strings that [confidenceLevel] holds. *)
Definition levelName (l : Level) : string :=
  match l with
  | high => "high"
  | medium => "medium"
  | low => "low"
  end.

Module Client.
(** [this.results.find(r => r.id === result.id)], as a condition. *)
Definition known (results : list Finding.t) (result : Finding.t) : bool :=
  existsb (fun r => String.eqb (Finding.id r) (Finding.id result)) results.

(** [addResult]: the list [this.results] afterwards. *)
Definition addResult (results : list Finding.t) (result : Finding.t)
  : list Finding.t :=
  if known results result then results else results ++ [result].

(** [handleComplete(scan)]: the results of the scan that are missing are
    merged, then the list is sorted by confidence. *)
Definition handleComplete (results : list Finding.t)
    (scanResults : option (list Finding.t)) : list Finding.t :=
  let merged :=
    match scanResults with
    | Some found =>
        foldl (fun results result =>
                 if known results result then results
                 else addResult results result)
              results found
    | None => results
    end in
  sort byConfidence merged.

(** The messages of the stream that [handleStreamEvent] acts on. *)
Inductive StreamEvent :=
| ResultEvent (result : Finding.t)
| CompleteEvent (scanResults : option (list Finding.t))
| OtherEvent.

Definition handleStreamEvent (results : list Finding.t) (e : StreamEvent)
  : list Finding.t :=
  match e with
  | ResultEvent result => addResult results result
  | CompleteEvent scanResults => handleComplete results scanResults
  | OtherEvent => results
  end.

Definition getConfidenceClass (confidence : option Q) : string :=
  if num_ge confidence (8 # 10) then "confidence-high"
  else if num_ge confidence (5 # 10) then "confidence-medium"
  else "confidence-low".
End Client.

(** ** Vocabulary of the further properties *)

(** The counters of a job that was not served from the cache. *)
Definition counted (j : Job) : Prop :=
  let st := Scan.stats (scan j) in
  Stats.completedSources st + Z.of_nat (length (pending j)) = Stats.totalSources st
  ∧ (Scan.status (scan j) ≠ completed ->
     Stats.totalResults st = Z.of_nat (length (Scan.results (scan j)))
     ∧ Stats.uniqueResults st = 0)
  ∧ (Scan.status (scan j) = completed ->
     Stats.uniqueResults st = Z.of_nat (length (Scan.results (scan j)))
     ∧ Stats.uniqueResults st <= Stats.totalResults st).

(** The configuration of the integration tests:
    [new SearchAggregator({ enableCache: false })]. *)
Definition cacheDisabled : Config.t :=
  Config.mk 30000 120000 3600 false ["url"; "username"; "email"].

(** [ranToCompletion agg cacheKey results before]: [results] is the final
    list of a job created before position [before] of the heap, with cache
    key [cacheKey], that completed by its own [runScan]. *)
Definition ranToCompletion (agg : Aggregator) (cacheKey : string)
    (results : list Finding.t) (before : nat) : Prop :=
  ∃ ref j, (ref < before)%nat ∧ heap agg !! ref = Some j
           ∧ Scan.status (scan j) = completed
           ∧ Scan.fromCache (scan j) = false
           ∧ getCacheKey (Scan.query (scan j)) (Scan.options (scan j)) = cacheKey
           ∧ Scan.results (scan j) = results.

(** The scan identifiers that [startScan] has handed out along [events]. *)
Definition startedIds (events : list Event) : list string :=
  omap (fun e => match e with
                 | StartScan scanId _ _ _ => Some scanId
                 | _ => None
                 end) events.

(** The adapters that [scan.errors] reports as failed. *)
Definition failedAdapters (s : Scan.t) : list string :=
  omap (fun e => match e with
                 | AdapterError adapter _ => Some adapter
                 | ScanFailure _ => None
                 end) (Scan.errors s).

(** The comparator of [runScan]: [(a, b) => a.priority - b.priority]. *)
Definition byPriority (a b : Adapter.t) : Q :=
  inject_Z (Adapter.priority a - Adapter.priority b).

(** The adapters that [options.adapters] names, in registration order. *)
Definition requestedAdapters (agg : Aggregator) (options : Options.t)
  : list Adapter.t :=
  match Options.adapters options with
  | Some names => filter (fun a => Adapter.name a ∈ names) (adapters agg)
  | None => adapters agg
  end.

(** [laterIsHigher config a b]: if [a] and [b] share a usable key, the
    confidence of [b] is strictly above that of [a]. *)
Definition laterIsHigher (config : Config.t) (a b : Finding.t) : Prop :=
  dedupeKey config a = dedupeKey config b ->
  dedupeKey config a ≠ EmptyString ->
  num_gt (Finding.confidence b) (Finding.confidence a) = true.

(** One adapter call of a scan settling: which adapter, how, and when. *)
Record Settlement := mkSettlement {
  s_adapter : string;
  s_outcome : Outcome;
  s_clock : Clock
}.

Definition settlement (ref : nat) (c : Settlement) : Event :=
  Settle ref (s_adapter c) (s_outcome c) (s_clock c).

(** The scan after the callbacks of [calls], in this order. *)
Definition settledScan (s : Scan.t) (calls : list Settlement) : Scan.t :=
  foldl (fun s c => adapterSettled s (s_adapter c) (s_outcome c)) s calls.

(** The findings that the fulfilled calls delivered, in order of arrival. *)
Definition collected (calls : list Settlement) : list Finding.t :=
  concat (map (fun c => match s_outcome c with
                        | Fulfilled results => results
                        | Rejected _ => []
                        end) calls).

(** The error entries of the rejected calls, in order of arrival. *)
Definition reported (calls : list Settlement) : list ScanError :=
  omap (fun c => match s_outcome c with
                 | Fulfilled _ => None
                 | Rejected message => Some (AdapterError (s_adapter c) message)
                 end) calls.

(** The readings of the clock that an event carries. *)
Definition eventClock (e : Event) : option Clock :=
  match e with
  | StartScan _ _ _ clock | Settle _ _ _ clock => Some clock
  | Register _ | Deadline _ => None
  end.

(** * Properties *)

(** ** The stable sort *)

Section SortFacts.
Context {A : Type} (compareFn : A -> A -> Q).

Lemma sort_insert_perm (x : A) (l : list A) :
  sort_insert compareFn x l ≡ₚ x :: l.
Proof.
  induction l as [|y l IH]; simpl; [done|].
  destruct (Qle_bool (compareFn x y) 0); [done|].
  rewrite IH. apply Permutation_swap.
Qed.

Lemma sort_perm (l : list A) : sort compareFn l ≡ₚ l.
Proof.
  induction l as [|x l IH]; simpl; [done|].
  by rewrite sort_insert_perm, IH.
Qed.

(** Stability: elements that the comparator does not order strictly keep
    their relative order, whatever else is in the list. *)
Section Stable.
Context (P : A -> Prop) `{!∀ x, Decision (P x)}.
Hypothesis tied : ∀ x y, P x -> P y -> (compareFn x y <= 0)%Q.

Lemma sort_insert_filter (x : A) (l : list A) :
  filter P (sort_insert compareFn x l) = filter P (x :: l).
Proof.
  induction l as [|y l IH]; simpl; [done|].
  destruct (Qle_bool (compareFn x y) 0) eqn:Hle; [done|].
  rewrite (filter_cons _ y), IH, !filter_cons.
  destruct (decide (P x)) as [Hx|Hx], (decide (P y)) as [Hy|Hy]; try done.
  pose proof (tied x y Hx Hy) as Ht. apply Qle_bool_iff in Ht. congruence.
Qed.

Lemma sort_filter (l : list A) :
  filter P (sort compareFn l) = filter P l.
Proof.
  induction l as [|x l IH]; simpl; [done|].
  by rewrite sort_insert_filter, !filter_cons, IH.
Qed.
End Stable.
End SortFacts.

(** ** Ordering by confidence *)

Lemma byConfidence_le (a b : Finding.t) ca cb :
  Finding.confidence a = Some ca -> Finding.confidence b = Some cb ->
  Qle_bool (byConfidence a b) 0 = true <-> (cb <= ca)%Q.
Proof.
  intros Ha Hb. unfold byConfidence. rewrite Ha, Hb, Qle_bool_iff.
  split; intros; lra.
Qed.

Lemma sort_insert_descending (x : Finding.t) (l : list Finding.t) :
  scored x -> Forall scored l -> descending l ->
  descending (sort_insert byConfidence x l).
Proof.
  intros [cx Hx] Hall Hl. induction Hl as [|y l Hl IH Hy]; simpl.
  - repeat constructor.
  - apply Forall_cons in Hall as [[cy Hcy] Hall].
    destruct (Qle_bool (byConfidence x y) 0) eqn:Hle.
    + apply (byConfidence_le x y cx cy) in Hle; [|done..].
      constructor; [by constructor|].
      constructor; [by exists cx, cy|].
      eapply Forall_impl; [exact Hy|].
      intros z (cy' & cz & Hy' & Hz & Hzy).
      exists cx, cz. repeat split; try done.
      rewrite Hcy in Hy'. injection Hy' as <-. lra.
    + assert (¬ (cy <= cx)%Q) as Hlt.
      { intros H. apply (byConfidence_le x y cx cy) in H; [|done..]. congruence. }
      constructor; [by apply IH|].
      rewrite sort_insert_perm. constructor; [|done].
      exists cy, cx. repeat split; try done. lra.
Qed.

Lemma sort_descending (l : list Finding.t) :
  Forall scored l -> descending (sort byConfidence l).
Proof.
  induction 1 as [|x l Hx Hl IH]; simpl; [constructor|].
  apply sort_insert_descending; [done| |done].
  by rewrite sort_perm.
Qed.

Lemma scoreResults_scored (results : list Finding.t) (query : string) :
  Forall scored (scoreResults results query).
Proof.
  unfold scoreResults. apply Forall_map, Forall_true.
  intros r. unfold scored. simpl. eauto.
Qed.

(** ** Deduplication *)

Section DedupeFacts.
Variable config : Config.t.

Lemma dedupe_from_app seen (l1 l2 : list Finding.t) :
  dedupe_from config seen (l1 ++ l2)
  = (dedupe_from config seen l1
     ++ dedupe_from config (seen_from config seen l1) l2)%list.
Proof.
  revert seen. induction l1 as [|r l1 IH]; intros seen; simpl; [done|].
  destruct (String.eqb _ _); [by rewrite IH|].
  destruct (seen !! _); [destruct (num_gt _ _)|]; by rewrite IH.
Qed.

Lemma dedupe_from_sublist seen (l : list Finding.t) :
  sublist (dedupe_from config seen l) l.
Proof.
  revert seen. induction l as [|r l IH]; intros seen; simpl; [done|].
  destruct (String.eqb _ _); [by apply sublist_skip|].
  destruct (seen !! _); [destruct (num_gt _ _)|];
    first [by apply sublist_skip | by apply sublist_cons].
Qed.

(** Every entry of [seen] is an entry it started with or a survivor filed
    under its own key. *)
Lemma seen_from_lookup seen (l : list Finding.t) k e :
  seen_from config seen l !! k = Some e ->
  seen !! k = Some e ∨ (e ∈ dedupe_from config seen l ∧ dedupeKey config e = k).
Proof.
  revert seen. induction l as [|r l IH]; intros seen; simpl; [by left|].
  assert (∀ s', (s' = <[dedupeKey config r := r]> seen) ->
            seen_from config s' l !! k = Some e ->
            seen !! k = Some e
            ∨ (e ∈ r :: dedupe_from config s' l ∧ dedupeKey config e = k)) as Hins.
  { intros s' -> H. apply IH in H as [H|[H1 H2]].
    - destruct (decide (dedupeKey config r = k)) as [<-|Hne].
      + rewrite lookup_insert_eq in H. injection H as <-.
        right. split; [left|done].
      + rewrite lookup_insert_ne in H by done. by left.
    - right. split; [by right|done]. }
  destruct (String.eqb _ _).
  { intros H. apply IH in H as [H|[H1 H2]]; [by left|].
    right. split; [by right|done]. }
  destruct (seen !! dedupeKey config r) eqn:Hs;
    [destruct (num_gt _ _)|]; try by apply Hins.
  apply IH.
Qed.

Lemma dedupe_from_idempotent seen (l : list Finding.t) :
  dedupe_from config seen (dedupe_from config seen l)
  = dedupe_from config seen l.
Proof.
  revert seen. induction l as [|r l IH]; intros seen; simpl; [done|].
  destruct (String.eqb _ _) eqn:Hk.
  { simpl. by rewrite Hk, IH. }
  destruct (seen !! dedupeKey config r) as [existing|] eqn:Hs.
  - destruct (num_gt _ _) eqn:Hgt; [|done].
    simpl. by rewrite Hk, Hs, Hgt, IH.
  - simpl. by rewrite Hk, Hs, IH.
Qed.
Lemma dedupe_from_keyless seen (l : list Finding.t) :
  filter (fun r => dedupeKey config r = EmptyString) (dedupe_from config seen l)
  = filter (fun r => dedupeKey config r = EmptyString) l.
Proof.
  revert seen. induction l as [|r l IH]; intros seen; simpl; [done|].
  destruct (String.eqb_spec (dedupeKey config r) EmptyString) as [Hk|Hk].
  { by rewrite !filter_cons_True, IH by done. }
  rewrite (filter_cons_False _ r l) by done.
  destruct (seen !! _); [destruct (num_gt _ _)|];
    by rewrite ?filter_cons_False, IH by done.
Qed.

Lemma conf_ge_refl (a : Finding.t) : scored a -> conf_ge a a.
Proof. intros [c Hc]. exists c, c. repeat split; try done. lra. Qed.

Lemma conf_ge_trans (a b c : Finding.t) : conf_ge a b -> conf_ge b c -> conf_ge a c.
Proof.
  intros (ca & cb & Ha & Hb & Hab) (cb' & cc & Hb' & Hc & Hbc).
  rewrite Hb in Hb'. injection Hb' as <-.
  exists ca, cc. repeat split; try done. lra.
Qed.

Lemma num_gt_conf_ge (a b : Finding.t) :
  num_gt (Finding.confidence a) (Finding.confidence b) = true -> conf_ge a b.
Proof.
  unfold num_gt. destruct (Finding.confidence a) as [ca|] eqn:Ha; [|done].
  destruct (Finding.confidence b) as [cb|] eqn:Hb; [|done].
  intros H. exists ca, cb. repeat split; try done.
  destruct (Qle_bool ca cb) eqn:Hle; [done|].
  destruct (Qlt_le_dec ca cb) as [Hlt|Hge]; [|done].
  assert (ca <= cb)%Q as Hle' by lra. apply Qle_bool_iff in Hle'. congruence.
Qed.

Lemma not_num_gt_conf_ge (a b : Finding.t) :
  scored a -> scored b ->
  num_gt (Finding.confidence a) (Finding.confidence b) = false -> conf_ge b a.
Proof.
  intros [ca Ha] [cb Hb]. unfold num_gt. rewrite Ha, Hb. intros H.
  exists cb, ca. repeat split; try done.
  apply Qle_bool_iff. by destruct (Qle_bool ca cb).
Qed.

Lemma conf_ge_not_num_gt (a b : Finding.t) :
  conf_ge b a -> num_gt (Finding.confidence a) (Finding.confidence b) = false.
Proof.
  intros (cb & ca & Hb & Ha & Hle). unfold num_gt. rewrite Ha, Hb.
  apply Qle_bool_iff in Hle. by rewrite Hle.
Qed.

(** Among findings that carry a number, the entry of a key only grows, and
    it is at least every finding filed under the key. *)
Lemma seen_from_grows seen (l : list Finding.t) k s0 :
  Forall scored l -> seen !! k = Some s0 -> scored s0 ->
  ∃ s, seen_from config seen l !! k = Some s ∧ conf_ge s s0.
Proof.
  intros Hl. revert seen s0.
  induction Hl as [|r l Hr Hl IH]; intros seen s0 Hs Hs0; simpl.
  { exists s0. split; [done|by apply conf_ge_refl]. }
  destruct (String.eqb _ _); [by apply IH|].
  destruct (seen !! dedupeKey config r) as [existing|] eqn:He.
  - destruct (num_gt _ _) eqn:Hgt; [|by apply IH].
    destruct (decide (dedupeKey config r = k)) as [<-|Hne].
    + rewrite Hs in He. injection He as <-.
      destruct (IH (<[dedupeKey config r := r]> seen) r) as (s & Hsome & Hge);
        [by rewrite lookup_insert_eq|done|].
      exists s. split; [done|].
      eapply conf_ge_trans; [exact Hge|by apply num_gt_conf_ge].
    + apply IH; [by rewrite lookup_insert_ne|done].
  - apply IH; [|done]. rewrite lookup_insert_ne; [done|]. congruence.
Qed.

Lemma seen_from_covers seen (l : list Finding.t) e :
  Forall scored l -> map_Forall (fun _ s => scored s) seen ->
  e ∈ l -> dedupeKey config e ≠ EmptyString ->
  ∃ s, seen_from config seen l !! dedupeKey config e = Some s ∧ conf_ge s e.
Proof.
  intros Hl. revert seen.
  induction Hl as [|r l Hr Hl IH]; intros seen Hseen Hin Hk.
  { by apply elem_of_nil in Hin. }
  assert (map_Forall (fun _ s => scored s) (<[dedupeKey config r := r]> seen))
    as Hseen' by (by apply map_Forall_insert_2).
  simpl. apply elem_of_cons in Hin as [->|Hin].
  - apply String.eqb_neq in Hk as Hk'. rewrite Hk'.
    destruct (seen !! dedupeKey config r) as [existing|] eqn:He.
    + destruct (num_gt _ _) eqn:Hgt.
      * apply seen_from_grows; [done|by rewrite lookup_insert_eq|done].
      * destruct (seen_from_grows seen l _ existing Hl He) as (s & Hs & Hge).
        { by apply (Hseen _ _ He). }
        exists s. split; [done|].
        eapply conf_ge_trans; [exact Hge|].
        apply not_num_gt_conf_ge; [done| |done]. by apply (Hseen _ _ He).
    + apply seen_from_grows; [done|by rewrite lookup_insert_eq|done].
  - destruct (String.eqb _ _); [by apply IH|].
    destruct (seen !! dedupeKey config r); [destruct (num_gt _ _)|]; by apply IH.
Qed.
End DedupeFacts.

Section DedupeSpec.
Variable config : Config.t.
Abbreviation out := (deduplicateResults config).
Abbreviation key := (dedupeKey config).

Lemma dedupe_snoc (pre : list Finding.t) (r : Finding.t) :
  out (pre ++ [r])
  = (out pre ++ dedupe_from config (seen_from config ∅ pre) [r])%list.
Proof. apply dedupe_from_app. Qed.

Lemma dedupe_higher (pre : list Finding.t) (r : Finding.t) :
  (∀ e, e ∈ out pre -> key e = key r ->
        num_gt (Finding.confidence r) (Finding.confidence e) = true) ->
  out (pre ++ [r]) = (out pre ++ [r])%list.
Proof.
  intros Hgt. rewrite dedupe_snoc. simpl.
  destruct (String.eqb _ _); [done|].
  destruct (seen_from config ∅ pre !! key r) as [e|] eqn:Hs; [|done].
  apply seen_from_lookup in Hs as [Hs|[He Hke]]; [by rewrite lookup_empty in Hs|].
  by rewrite (Hgt e He Hke).
Qed.

Lemma dedupe_kept_or_dominated (pre : list Finding.t) (r : Finding.t) :
  out (pre ++ [r]) = (out pre ++ [r])%list
  ∨ (out (pre ++ [r]) = out pre
     ∧ key r ≠ EmptyString
     ∧ ∃ e, e ∈ out pre ∧ key e = key r
            ∧ num_gt (Finding.confidence r) (Finding.confidence e) = false).
Proof.
  rewrite dedupe_snoc. simpl.
  destruct (String.eqb _ _) eqn:Hk; [by left|].
  destruct (seen_from config ∅ pre !! key r) as [e|] eqn:Hs; [|by left].
  destruct (num_gt _ _) eqn:Hgt; [by left|].
  right. rewrite app_nil_r. split; [done|].
  apply String.eqb_neq in Hk. split; [done|].
  apply seen_from_lookup in Hs as [Hs|[He Hke]]; [by rewrite lookup_empty in Hs|].
  by exists e.
Qed.

Lemma dedupe_pair (a b : Finding.t) (ca cb : Q) :
  key a = key b -> key a ≠ EmptyString ->
  Finding.confidence a = Some ca -> Finding.confidence b = Some cb ->
  (cb <= ca)%Q ->
  out [a; b] = [a].
Proof.
  intros Hab Ha Hca Hcb Hle. unfold deduplicateResults. simpl.
  apply String.eqb_neq in Ha as Ha'. rewrite Ha', lookup_empty.
  rewrite <-Hab, Ha', lookup_insert_eq.
  unfold num_gt. rewrite Hca, Hcb.
  apply Qle_bool_iff in Hle. by rewrite Hle.
Qed.
Lemma dedupe_member_prefix (pre post : list Finding.t) (e : Finding.t) :
  e ∈ out pre -> e ∈ out (pre ++ post).
Proof.
  intros He. unfold deduplicateResults. rewrite dedupe_from_app.
  apply elem_of_app. by left.
Qed.

Lemma dedupe_dominated_dropped (pre : list Finding.t) (r e : Finding.t) :
  Forall scored pre -> scored r ->
  e ∈ pre -> key e = key r -> key r ≠ EmptyString ->
  num_gt (Finding.confidence r) (Finding.confidence e) = false ->
  out (pre ++ [r]) = out pre.
Proof.
  intros Hpre Hr He Hke Hk Hle. rewrite dedupe_snoc. simpl.
  apply String.eqb_neq in Hk as Hk'. rewrite Hk'.
  destruct (seen_from_covers config ∅ pre e Hpre) as (s & Hs & Hge);
    [apply map_Forall_empty|done|congruence|].
  rewrite Hke in Hs. rewrite Hs.
  assert (conf_ge s r) as Hsr.
  { eapply conf_ge_trans; [exact Hge|].
    apply not_num_gt_conf_ge; [done| |done].
    destruct Hge as (? & ce & _ & Hce & _). by exists ce. }
  by rewrite (conf_ge_not_num_gt r s Hsr), app_nil_r.
Qed.

Lemma dedupe_best_survives (pre post : list Finding.t) (r : Finding.t) :
  (∀ e, e ∈ pre -> key e = key r ->
        num_gt (Finding.confidence r) (Finding.confidence e) = true) ->
  r ∈ out (pre ++ r :: post).
Proof.
  intros Hbest.
  assert (out (pre ++ [r]) = out pre ++ [r]) as Hkept.
  { apply dedupe_higher. intros e He. apply Hbest.
    eapply elem_of_sublist; [exact He|]. apply dedupe_from_sublist. }
  change (pre ++ r :: post) with (pre ++ [r] ++ post). rewrite app_assoc.
  apply dedupe_member_prefix. rewrite Hkept. apply elem_of_app. right. left.
Qed.

Lemma dedupe_dropped_dominated (results : list Finding.t) (r : Finding.t) :
  r ∈ results ->
  r ∈ out results
  ∨ ∃ e, e ∈ out results ∧ key e = key r
         ∧ num_gt (Finding.confidence r) (Finding.confidence e) = false.
Proof.
  intros (pre & post & ->)%list_elem_of_split.
  change (pre ++ r :: post) with (pre ++ [r] ++ post). rewrite app_assoc.
  destruct (dedupe_kept_or_dominated pre r) as [Hkept|(Hdrop & _ & e & He & Hke & Hle)].
  - left. apply dedupe_member_prefix. rewrite Hkept. apply elem_of_app. right. left.
  - right. exists e. split; [|done].
    apply dedupe_member_prefix. by rewrite Hdrop.
Qed.
End DedupeSpec.

(** C4, as stated, fails: two findings that share their URL and differ in
    their username are filed under different keys, and both survive. *)
Lemma deduplicateResults_same_url_counterexample :
  let a := stubFinding "1" (Some "alice") (8 # 10) in
  let b := stubFinding "2" (Some "bob") (6 # 10) in
  Finding.url a = Finding.url b
  ∧ dedupeKey AGGREGATOR_CONFIG a = "https://example.com/user|alice"
  ∧ dedupeKey AGGREGATOR_CONFIG b = "https://example.com/user|bob"
  ∧ deduplicateResults AGGREGATOR_CONFIG [a; b] = [a; b].
Proof. by vm_compute. Qed.

(** Two findings with one key, the higher confidence second: the filter has
    already let the first one through, so both remain. *)
Example deduplicateResults_higher_second :
  let a := stubFinding "1" None (8 # 10) in
  let b := stubFinding "2" None (6 # 10) in
  deduplicateResults AGGREGATOR_CONFIG [b; a] = [b; a].
Proof. by vm_compute. Qed.

(** C4 (amended).  [deduplicateResults] files a finding under the key that
    joins, with a bar, all of its non-empty dedupe fields in configured order
    (url, username, email by default).  Findings without a key all pass, in
    their order.  Among findings that carry a number as confidence, a finding
    that is not strictly above an earlier finding of its key is dropped (on a
    tie the earlier one stays).  A finding that is strictly above every
    earlier finding of its key, and that no later finding of its key exceeds,
    survives.  For every finding that is dropped a finding of its key with
    at least its confidence survives.  So two findings with one key and
    confidences 0.8 then 0.6 leave exactly the one with 0.8. *)
Theorem deduplicateResults_by_composite_key
    (config : Config.t) (pre post : list Finding.t) (r : Finding.t) :
  let out := deduplicateResults config in
  let key := dedupeKey config in
  let results := pre ++ r :: post in
  dedupeKey AGGREGATOR_CONFIG r
    = join "|" (omap (fun v => if truthy v then v else None)
                     [Finding.url r; Finding.username r; Finding.email r])
  ∧ filter (fun x => key x = EmptyString) (out results)
    = filter (fun x => key x = EmptyString) results
  ∧ (∀ e, Forall scored (pre ++ [r]) ->
          e ∈ pre -> key e = key r -> key r ≠ EmptyString ->
          num_gt (Finding.confidence r) (Finding.confidence e) = false ->
          out (pre ++ [r]) = out pre)
  ∧ ((∀ e, e ∈ pre -> key e = key r ->
           num_gt (Finding.confidence r) (Finding.confidence e) = true) ->
     (∀ e, e ∈ post -> key e = key r ->
           num_gt (Finding.confidence e) (Finding.confidence r) = false) ->
     r ∈ out results)
  ∧ (r ∈ out results
     ∨ ∃ e, e ∈ out results ∧ key e = key r
            ∧ num_gt (Finding.confidence r) (Finding.confidence e) = false)
  ∧ (∀ a b, key a = key b -> key a ≠ EmptyString ->
       Finding.confidence a = Some (8 # 10) ->
       Finding.confidence b = Some (6 # 10) ->
       out [a; b] = [a]).
Proof.
  cbv zeta. split; [reflexivity|].
  split; [apply dedupe_from_keyless|].
  split.
  { intros e [Hpre Hr]%Forall_app. apply dedupe_dominated_dropped; [done|].
    by apply (Forall_inv Hr). }
  split; [intros Hbest _; by apply dedupe_best_survives|].
  split.
  { apply dedupe_dropped_dominated. apply elem_of_app. right. left. }
  intros a b Hab Ha Hca Hcb.
  by apply (dedupe_pair config a b (8 # 10) (6 # 10)).
Qed.

Lemma deduplicateResults_by_composite_key_witness :
  let a := stubFinding "1" None (8 # 10) in
  let b := stubFinding "2" None (6 # 10) in
  deduplicateResults AGGREGATOR_CONFIG [a; b] = [a].
Proof.
  intros a b.
  apply (deduplicateResults_by_composite_key AGGREGATOR_CONFIG [] [] a);
    by vm_compute.
Defined.

(** C8, as stated, fails: the scorer adds its boosts again on every pass.
    A verified finding of confidence 0.5 is fused to 0.7 (medium) and, fused
    once more, to 0.9 (high). *)
Lemma fuseResults_twice_counterexample :
  let r := Finding.mk "1" "stub" None None None None None None None
                      true (Some (1 # 2)) None in
  let once := fuseResults AGGREGATOR_CONFIG [r] "query" in
  let twice := fuseResults AGGREGATOR_CONFIG once "query" in
  map Finding.confidenceLevel once = [Some medium]
  ∧ map Finding.confidenceLevel twice = [Some high]
  ∧ twice ≠ once.
Proof. vm_compute. repeat split; congruence. Qed.

(** C8 (amended).  Deduplication is idempotent: for every list of findings,
    applying [deduplicateResults] to its own output yields the same list,
    element for element. *)
Theorem deduplicateResults_idempotent
    (config : Config.t) (results : list Finding.t) :
  deduplicateResults config (deduplicateResults config results)
  = deduplicateResults config results.
Proof. apply dedupe_from_idempotent. Qed.

(** ** Confidence scoring *)

Lemma filledFields_richness (r : Finding.t) :
  Z.of_nat (filledFields r) = richness r.
Proof.
  unfold filledFields, richness, dataFields. cbn.
  by destruct (truthy (Finding.displayName r)), (truthy (Finding.bio r)),
    (truthy (Finding.email r)), (truthy (Finding.location r)),
    (truthy (Finding.avatar r)).
Qed.

Lemma richness_range (r : Finding.t) : 0 <= richness r <= 5.
Proof.
  unfold richness.
  destruct (truthy (Finding.displayName r)), (truthy (Finding.bio r)),
    (truthy (Finding.email r)), (truthy (Finding.location r)),
    (truthy (Finding.avatar r)); simpl; lia.
Qed.

Lemma usernameMatches_spec (r : Finding.t) (query : string) :
  usernameMatches r query
  = bool_decide (toLowerCase <$> Finding.username r = Some (toLowerCase query)).
Proof.
  unfold usernameMatches. destruct (Finding.username r) as [u|]; simpl; [|done].
  destruct (String.eqb _ _) eqn:He.
  - apply String.eqb_eq in He. rewrite He. by rewrite bool_decide_eq_true_2.
  - apply String.eqb_neq in He. rewrite bool_decide_eq_false_2; [done|congruence].
Qed.

(** The unclamped score, in the words of the scoring rule. *)
Lemma rawScore_spec (r : Finding.t) (query : string) :
  (rawScore r query
   == num_or (Finding.confidence r) (1 # 2)
      + (if Finding.verified r then 2 # 10 else 0)
      + (if bool_decide (toLowerCase <$> Finding.username r
                         = Some (toLowerCase query))
         then 3 # 10 else 0)
      + inject_Z (richness r) / 5 * (1 # 10))%Q.
Proof.
  unfold rawScore. rewrite filledFields_richness, usernameMatches_spec.
  change (inject_Z (Z.of_nat (length dataFields))) with 5%Q.
  destruct (Finding.verified r), (bool_decide _); lra.
Qed.

Lemma clamp_spec (x : Q) :
  let c := Qmin 1 (Qmax 0 x) in
  (0 <= c <= 1 ∧ (x < 0 -> c == 0) ∧ (0 <= x <= 1 -> c == x) ∧ (1 < x -> c == 1))%Q.
Proof.
  cbv zeta.
  destruct (Q.max_spec 0 x) as [[H1 H2]|[H1 H2]];
    destruct (Q.min_spec 1 (Qmax 0 x)) as [[H3 H4]|[H3 H4]];
    rewrite H4, ?H2 in *; repeat split; intros; lra.
Qed.

Lemma num_or_nonneg (v : option Q) :
  (∀ c, v = Some c -> (0 <= c)%Q) -> (0 <= num_or v (1 # 2))%Q.
Proof.
  intros Hv. unfold num_or. destruct v as [c|]; [|lra].
  destruct (Qeq_bool c 0); [lra|by apply Hv].
Qed.

(** C5.  A finding of confidence 0 (a Hunter score of 0 gives one) is scored
    as if it had no confidence at all: [result.confidence || 0.5] starts it
    from 0.5, so, unverified, without username and without richness fields,
    it ends at 0.5 and medium, where its own confidence gives 0 and low.
    The same holds at the end of a scan whose adapter delivers it. *)
Theorem zero_confidence_scored_as_missing :
  let zero := plainFinding "1" 0 in
  let none :=
    Finding.mk "1" "levels" None None None None None None None false None None in
  (∃ c, scoreResults [zero] "query" = [Finding.rescore zero c medium]
        ∧ (c == 1 # 2)%Q ∧ ¬ (c == 0)%Q
        ∧ scoreResults [none] "query" = [Finding.rescore none c medium])
  ∧ ∃ j c,
      heap (run (newAggregator AGGREGATOR_CONFIG [Adapter.mk "hunter" 5])
                [StartScan "scan-1" "query" (Options.mk None) (tick 0);
                 Settle 0 "hunter" (Fulfilled [zero]) (tick 10)]) !! 0%nat
      = Some j
      ∧ Scan.status (scan j) = completed
      ∧ Scan.results (scan j) = [Finding.rescore zero c medium]
      ∧ (c == 1 # 2)%Q.
Proof.
  split.
  - eexists. split; [by vm_compute|]. split; [done|]. split; [by intros H|].
    by vm_compute.
  - eexists _, _. split; [by vm_compute|]. by repeat split.
Qed.

(** C9, as stated, fails when the score is clamped: with confidence 1 the
    verified, matching finding and the unverified, non-matching one both end
    at 1. *)
Lemma verified_match_counterexample :
  let hit := Finding.withIdentity (plainFinding "1" 1) true (Some "testuser") in
  let miss := Finding.withIdentity (plainFinding "1" 1) false (Some "other") in
  ∃ ch cm,
    Finding.confidence (scoreResult "testuser" hit) = Some ch
    ∧ Finding.confidence (scoreResult "testuser" miss) = Some cm
    ∧ ¬ (cm < ch)%Q.
Proof. do 2 eexists. split; [by vm_compute|]. split; [by vm_compute|]. by intros H. Qed.

(** C9 (amended).  For every query and every finding whose confidence is
    not negative, the fused confidence of the finding with [verified] true
    and the query as its username is at least that of the otherwise
    identical finding with [verified] false and another username (whatever
    it is), and strictly higher whenever the latter is below the cap of 1. *)
Theorem scoreResult_verified_match_higher
    (r : Finding.t) (query : string) (other : option string) :
  (∀ c, Finding.confidence r = Some c -> (0 <= c)%Q) ->
  ∃ ch cm,
    Finding.confidence (scoreResult query (Finding.withIdentity r true (Some query)))
    = Some ch
    ∧ Finding.confidence (scoreResult query (Finding.withIdentity r false other))
      = Some cm
    ∧ (cm <= ch)%Q
    ∧ ((cm < 1)%Q -> (cm < ch)%Q).
Proof.
  intros Hpos.
  set (hit := Finding.withIdentity r true (Some query)).
  set (miss := Finding.withIdentity r false other).
  exists (Qmin 1 (Qmax 0 (rawScore hit query))),
         (Qmin 1 (Qmax 0 (rawScore miss query))).
  split; [done|]. split; [done|].
  pose proof (num_or_nonneg (Finding.confidence r) Hpos) as Hbase.
  pose proof (richness_range r) as [Hr0 _].
  assert (0 <= inject_Z (richness r))%Q as Hrich
    by (change 0%Q with (inject_Z 0); by rewrite <-Zle_Qle).
  assert (rawScore hit query
          == num_or (Finding.confidence r) (1 # 2) + (2 # 10) + (3 # 10)
             + inject_Z (richness r) / 5 * (1 # 10))%Q as Hh.
  { rewrite rawScore_spec. subst hit. simpl.
    rewrite bool_decide_eq_true_2 by done. reflexivity. }
  assert (0 <= rawScore miss query
          ∧ rawScore miss query + (2 # 10) <= rawScore hit query)%Q as [Hm0 Hm].
  { rewrite Hh, (rawScore_spec miss). subst miss. simpl.
    change (richness (Finding.withIdentity r false other)) with (richness r).
    generalize dependent (inject_Z (richness r)).
    generalize dependent (num_or (Finding.confidence r) (1 # 2)).
    intros b Hb x Hx _. unfold Qdiv. change (/ 5)%Q with (1 # 5)%Q.
    destruct (bool_decide _); split; lra. }
  destruct (clamp_spec (rawScore hit query)) as (Rh & _ & Mh & Hh1).
  destruct (clamp_spec (rawScore miss query)) as (Rm & _ & Mm & Hm1).
  cbv zeta in *.
  destruct (Qlt_le_dec 1 (rawScore miss query)) as [Hbig|Hsmall].
  { rewrite Hm1, Hh1 by lra. split; [lra|intros; lra]. }
  rewrite Mm by lra.
  destruct (Qlt_le_dec 1 (rawScore hit query)) as [Hbig|Hsmall'].
  { rewrite Hh1 by lra. split; [lra|intros; lra]. }
  rewrite Mh by lra. split; [lra|intros; lra].
Qed.

Lemma scoreResult_verified_match_higher_witness :
  ∃ ch cm,
    Finding.confidence
      (scoreResult "testuser"
         (Finding.withIdentity (plainFinding "1" (1 # 2)) true (Some "testuser")))
    = Some ch
    ∧ Finding.confidence
        (scoreResult "testuser"
           (Finding.withIdentity (plainFinding "1" (1 # 2)) false (Some "other")))
      = Some cm
    ∧ (cm <= ch)%Q
    ∧ ((cm < 1)%Q -> (cm < ch)%Q).
Proof.
  apply (scoreResult_verified_match_higher (plainFinding "1" (1 # 2))
           "testuser" (Some "other")).
  intros c Hc. injection Hc as <-. intros H. discriminate H.
Defined.

(** ** What one step does to a job *)

Lemma heap_putJob agg ref j : heap (putJob agg ref j) = <[ref := j]> (heap agg).
Proof. done. Qed.

Lemma heap_writeCache agg s now : heap (writeCache agg s now) = heap agg.
Proof. unfold writeCache. by destruct (Config.enableCache _). Qed.

Lemma config_writeCache agg s now : config (writeCache agg s now) = config agg.
Proof. unfold writeCache. by destruct (Config.enableCache _). Qed.

Lemma adapters_writeCache agg s now :
  adapters (writeCache agg s now) = adapters agg.
Proof. unfold writeCache. by destruct (Config.enableCache _). Qed.

Lemma heap_resume agg ref j clock :
  heap (resume agg ref j clock)
  = <[ref := resumed (config agg) j clock]> (heap agg).
Proof.
  unfold resume, resumed. destruct (raceWon j); [|done].
  by rewrite heap_writeCache.
Qed.

Lemma config_resume agg ref j clock :
  config (resume agg ref j clock) = config agg.
Proof.
  unfold resume. destruct (raceWon j); [|done]. by rewrite config_writeCache.
Qed.

Lemma adapters_resume agg ref j clock :
  adapters (resume agg ref j clock) = adapters agg.
Proof.
  unfold resume. destruct (raceWon j); [|done]. by rewrite adapters_writeCache.
Qed.

Lemma heap_startScan agg scanId query options clock :
  heap (startScan agg scanId query options clock)
  = heap agg ++ [started agg scanId query options clock].
Proof.
  unfold startScan, started.
  destruct (cacheHit _ _ _); [rewrite heap_putJob|rewrite heap_resume]; simpl;
    by rewrite insert_app_r_alt, Nat.sub_diag by done.
Qed.

Lemma config_startScan agg scanId query options clock :
  config (startScan agg scanId query options clock) = config agg.
Proof.
  unfold startScan. destruct (cacheHit _ _ _); [done|]. by rewrite config_resume.
Qed.

Lemma config_step agg e : config (step agg e) = config agg.
Proof.
  destruct e as [a|scanId query options clock|ref a o clock|ref]; simpl.
  - done.
  - apply config_startScan.
  - unfold settle. destruct (heap agg !! ref); [|done].
    destruct (bool_decide _); [|done]. by rewrite config_resume.
  - unfold deadline. destruct (heap agg !! ref) as [j|]; [|done].
    by destruct (raceSettled j).
Qed.

(** A step moves every job that is in the heap by [job_step], and adds at
    most the job of a [startScan]. *)
Lemma step_job agg e ref j :
  heap agg !! ref = Some j ->
  ∃ j', heap (step agg e) !! ref = Some j' ∧ job_step (config agg) j j'.
Proof.
  intros Hj. pose proof (lookup_lt_Some _ _ _ Hj) as Hlt.
  destruct e as [a|scanId query options clock|ref' a o clock|ref']; simpl.
  - exists j. split; [done|constructor].
  - exists j. split; [|constructor].
    rewrite heap_startScan. by apply lookup_app_l_Some.
  - unfold settle. destruct (heap agg !! ref') as [j0|] eqn:Hj0.
    2:{ exists j. split; [done|constructor]. }
    destruct (bool_decide _) eqn:Hin.
    2:{ exists j. split; [done|constructor]. }
    apply bool_decide_eq_true in Hin. rewrite heap_resume.
    destruct (decide (ref' = ref)) as [->|Hne].
    + rewrite Hj in Hj0. injection Hj0 as <-.
      eexists. split; [by apply list_lookup_insert_eq|].
      by apply (job_called _ j a o clock).
    + exists j. split; [by rewrite list_lookup_insert_ne|constructor].
  - unfold deadline. destruct (heap agg !! ref') as [j0|] eqn:Hj0.
    2:{ exists j. split; [done|constructor]. }
    destruct (raceSettled j0) eqn:Hs.
    { exists j. split; [done|constructor]. }
    rewrite heap_putJob.
    destruct (decide (ref' = ref)) as [->|Hne].
    + rewrite Hj in Hj0. injection Hj0 as <-.
      eexists. split; [by apply list_lookup_insert_eq|].
      by constructor.
    + exists j. split; [by rewrite list_lookup_insert_ne|constructor].
Qed.

Lemma step_new_job agg e ref j' :
  heap agg !! ref = None -> heap (step agg e) !! ref = Some j' ->
  ∃ scanId query options clock,
    e = StartScan scanId query options clock
    ∧ ref = length (heap agg)
    ∧ j' = started agg scanId query options clock.
Proof.
  intros Hnone Hj'. apply lookup_ge_None in Hnone.
  destruct e as [a|scanId query options clock|ref' a o clock|ref']; simpl in Hj'.
  - apply lookup_lt_Some in Hj'. simpl in Hj'. lia.
  - exists scanId, query, options, clock. rewrite heap_startScan in Hj'.
    apply lookup_lt_Some in Hj' as Hlt. rewrite length_app in Hlt. simpl in Hlt.
    assert (ref = length (heap agg)) as -> by lia.
    rewrite lookup_app_r, Nat.sub_diag in Hj' by done.
    by injection Hj' as <-.
  - unfold settle in Hj'. destruct (heap agg !! ref') eqn:Hj0.
    2:{ apply lookup_lt_Some in Hj'. lia. }
    destruct (bool_decide _).
    2:{ apply lookup_lt_Some in Hj'. lia. }
    rewrite heap_resume in Hj'. apply lookup_lt_Some in Hj'.
    rewrite length_insert in Hj'. lia.
  - unfold deadline in Hj'. destruct (heap agg !! ref') as [j0|] eqn:Hj0.
    2:{ apply lookup_lt_Some in Hj'. lia. }
    destruct (raceSettled j0).
    { apply lookup_lt_Some in Hj'. lia. }
    rewrite heap_putJob in Hj'. apply lookup_lt_Some in Hj'.
    rewrite length_insert in Hj'. lia.
Qed.

(** ** Progress arithmetic *)

Lemma progressOf_mono (t c c' u u' v v' : Z) :
  0 <= t -> c <= c' ->
  progressOf (Stats.mk t c u v) <= progressOf (Stats.mk t c' u' v').
Proof.
  intros Ht Hc. unfold progressOf, Math_round.
  cbn [Stats.completedSources Stats.totalSources].
  apply Qfloor_resp_le.
  assert (0 <= / inject_Z t)%Q as Hinv.
  { apply Qinv_le_0_compat. change 0%Q with (inject_Z 0). by rewrite <-Zle_Qle. }
  assert (inject_Z c <= inject_Z c')%Q as Hcc by (by rewrite <-Zle_Qle).
  unfold Qdiv.
  pose proof (Qmult_le_compat_r _ _ _ Hcc Hinv) as H.
  lra.
Qed.

Lemma progressOf_start (t u v : Z) : progressOf (Stats.mk t 0 u v) = 0.
Proof.
  unfold progressOf, Math_round.
  cbn [Stats.completedSources Stats.totalSources].
  assert (inject_Z 0 / inject_Z t * 100 + (1 # 2) == 1 # 2)%Q as ->
    by (unfold Qdiv; change (inject_Z 0) with 0%Q; lra).
  reflexivity.
Qed.

Lemma progressOf_le_100 (t c u v : Z) :
  0 <= c <= t -> progressOf (Stats.mk t c u v) <= 100.
Proof.
  intros [Hc Ht]. unfold progressOf, Math_round.
  cbn [Stats.completedSources Stats.totalSources].
  transitivity (Qfloor (100 + (1 # 2))); [|done]. apply Qfloor_resp_le.
  destruct (decide (t = 0)) as [->|Hne].
  { assert (c = 0) as -> by lia. unfold Qdiv. change (inject_Z 0) with 0%Q. lra. }
  assert (0 < inject_Z t)%Q as Hpos.
  { change 0%Q with (inject_Z 0). rewrite <-Zlt_Qlt. lia. }
  assert (inject_Z c <= inject_Z t)%Q as Hct by (by rewrite <-Zle_Qle).
  assert (inject_Z c / inject_Z t <= 1)%Q as H.
  { apply Qle_shift_div_r; [done|lra]. }
  revert H. generalize (inject_Z c / inject_Z t)%Q. intros q H. lra.
Qed.

(** ** The invariant of a job *)

Lemma status_adapterSettled s a o :
  Scan.status (adapterSettled s a o) = Scan.status s.
Proof. by destruct o. Qed.

Lemma endTime_adapterSettled s a o :
  Scan.endTime (adapterSettled s a o) = Scan.endTime s.
Proof. by destruct o. Qed.

Lemma stats_adapterSettled s a o :
  ∃ found,
    Scan.stats (adapterSettled s a o) = sourceCompleted (Scan.stats s) found
    ∧ Scan.progress (adapterSettled s a o)
      = progressOf (sourceCompleted (Scan.stats s) found).
Proof. destruct o; eexists; by split. Qed.

Lemma raceWon_spec j :
  raceWon j = true <-> pending j = [] ∧ raceSettled j = false.
Proof.
  unfold raceWon. destruct (pending j), (raceSettled j); simpl;
    split; try done; intros [? ?]; done.
Qed.

Lemma pending_called_length (p : list string) (a : string) :
  a ∈ p -> (length (filter (fun b => b ≠ a) p) < length p)%nat.
Proof.
  induction 1 as [x l|x y l Hin IH]; rewrite filter_cons; simpl.
  - rewrite decide_False by naive_solver.
    pose proof (length_filter (fun b => b ≠ x) l). lia.
  - destruct (decide (y ≠ x)); simpl; lia.
Qed.

Lemma completeScan_ok config s now (p : list string) :
  0 <= Stats.completedSources (Scan.stats s)
  <= Stats.totalSources (Scan.stats s) ->
  job_ok (mkJob (completeScan config s now) [] true).
Proof.
  intros Hc. split; simpl; try done.
  - intros _. repeat split; try done.
    apply sort_descending, scoreResults_scored.
  - lia.
  - constructor.
Qed.

Lemma job_step_ok config j j' : job_ok j -> job_step config j j' -> job_ok j'.
Proof.
  intros Hok Hstep. destruct Hstep as [j|j a o clock Hin|j Hopen]; [done| |].
  - destruct Hok as [Hdone Hop Hrun Hprog [Hc0 Hct] Hnd].
    pose proof (pending_called_length _ _ Hin) as Hlen.
    destruct (stats_adapterSettled (scan j) a o) as (found & Hst & Hpr).
    unfold resumed. destruct (raceWon (called j a o)) eqn:Hwon.
    + apply (completeScan_ok _ _ _ []). simpl. rewrite Hst. simpl. lia.
    + assert (raceWon (called j a o) ≠ true) as Hnot by congruence.
      rewrite raceWon_spec in Hnot. simpl in Hnot.
      split; simpl; rewrite ?status_adapterSettled, ?endTime_adapterSettled.
      * intros Hs. destruct (Hdone Hs) as (Hp & _). rewrite Hp in Hin.
        by apply elem_of_nil in Hin.
      * intros Hs. split; [by apply Hop|]. intros Hp. by apply Hnot.
      * done.
      * intros _. by rewrite Hpr, Hst.
      * rewrite Hst. simpl. lia.
      * by apply NoDup_filter.
  - destruct Hok as [Hdone Hop Hrun Hprog Hcount Hnd].
    destruct (Hop Hopen) as [Hs Hp].
    split; simpl; try done.
    intros _. apply Hprog. by rewrite Hs.
Qed.

(** ** The invariant of the aggregator *)

Lemma setAdapter_names (a : Adapter.t) (l : list Adapter.t) :
  map Adapter.name (setAdapter a l)
  = if decide (Adapter.name a ∈ map Adapter.name l) then map Adapter.name l
    else map Adapter.name l ++ [Adapter.name a].
Proof.
  induction l as [|b l IH].
  { case_decide as H; [by apply elem_of_nil in H|done]. }
  cbn [setAdapter map]. destruct (String.eqb _ _) eqn:He.
  - clear IH. apply String.eqb_eq in He. cbn [map]. rewrite He.
    case_decide as H; [done|]. exfalso. apply H. left.
  - apply String.eqb_neq in He. cbn [map]. rewrite IH. clear IH.
    destruct (decide (Adapter.name a ∈ map Adapter.name l)) as [Hin|Hin];
      destruct (decide (Adapter.name a ∈ Adapter.name b :: map Adapter.name l))
        as [H|H]; try done.
    + exfalso. apply H. by right.
    + apply elem_of_cons in H as [H|H]; [congruence|done].
Qed.

Lemma setAdapter_NoDup (a : Adapter.t) (l : list Adapter.t) :
  NoDup (map Adapter.name l) -> NoDup (map Adapter.name (setAdapter a l)).
Proof.
  intros Hl. rewrite setAdapter_names. destruct (decide _) as [|Hin]; [done|].
  apply NoDup_app. split; [done|]. split; [|apply NoDup_singleton].
  intros x Hx Hx'. apply list_elem_of_singleton in Hx'. by subst.
Qed.

Lemma selectedAdapters_NoDup agg options :
  NoDup (map Adapter.name (adapters agg)) ->
  NoDup (map Adapter.name (selectedAdapters agg options)).
Proof.
  intros Hnd. unfold selectedAdapters. rewrite sort_perm.
  destruct (Options.adapters options); [|done].
  refine (sublist_NoDup _ _ Hnd _).
  apply (fmap_sublist Adapter.name), sublist_filter.
Qed.

Lemma cacheHit_Some agg cacheKey now cached :
  cacheHit agg cacheKey now = Some cached <->
  Config.enableCache (config agg) = true
  ∧ cache agg !! cacheKey = Some cached
  ∧ now - CacheEntry.timestamp cached < Config.cacheTTL (config agg) * 1000.
Proof.
  unfold cacheHit. destruct (Config.enableCache _).
  2:{ split; [done|]. by intros (? & _). }
  destruct (cache agg !! cacheKey) as [c|].
  2:{ split; [done|]. by intros (_ & ? & _). }
  destruct (Z.ltb_spec (now - CacheEntry.timestamp c)
              (Config.cacheTTL (config agg) * 1000)).
  - split; [intros [= ->]; done|]. by intros (_ & [= ->] & _).
  - split; [done|]. intros (_ & [= ->] & ?). lia.
Qed.

Lemma cache_resume agg ref j clock :
  cache (resume agg ref j clock)
  = if (raceWon j && Config.enableCache (config agg))%bool then
      <[getCacheKey (Scan.query (scan j)) (Scan.options (scan j)) :=
          CacheEntry.mk
            (Scan.results (completeScan (config agg) (scan j) (t_end clock)))
            (t_cache clock)]> (cache agg)
    else cache agg.
Proof.
  unfold resume, writeCache. destruct (raceWon j); simpl; [|done].
  by destruct (Config.enableCache _).
Qed.

Lemma resume_cache_ok agg ref j clock :
  map_Forall (fun _ cached => descending (CacheEntry.results cached)) (cache agg) ->
  map_Forall (fun _ cached => descending (CacheEntry.results cached))
             (cache (resume agg ref j clock)).
Proof.
  intros Hc. rewrite cache_resume. destruct (_ && _)%bool; [|done].
  apply map_Forall_insert_2; [|done]. simpl.
  apply sort_descending, scoreResults_scored.
Qed.

Lemma started_ok agg scanId query options clock :
  agg_ok agg -> job_ok (started agg scanId query options clock).
Proof.
  intros [Hheap Hcache Hnd]. unfold started.
  destruct (cacheHit _ _ _) as [cached|] eqn:Hhit.
  - apply cacheHit_Some in Hhit as (_ & Hc & _).
    split; simpl; try done.
    + intros _. repeat split; try done. by apply (Hcache _ _ Hc).
    + lia.
    + constructor.
  - unfold resumed. destruct (raceWon _) eqn:Hwon.
    + apply (completeScan_ok _ _ _ []). simpl. lia.
    + pose proof Hwon as Hnot. apply not_true_iff_false in Hnot.
      rewrite raceWon_spec in Hnot. simpl in Hnot.
      split; simpl; try done.
      * intros _. split; [done|]. intros Hp. by apply Hnot.
      * intros _. by rewrite progressOf_start.
      * rewrite length_map. lia.
      * by apply selectedAdapters_NoDup.
Qed.

Lemma step_ok agg e : agg_ok agg -> agg_ok (step agg e).
Proof.
  intros Hok. pose proof Hok as [Hheap Hcache Hnd]. split.
  - apply Forall_lookup. intros ref j' Hj'.
    destruct (heap agg !! ref) as [j|] eqn:Hj.
    + destruct (step_job agg e ref j Hj) as (j'' & Hj'' & Hstep).
      rewrite Hj' in Hj''. injection Hj'' as <-.
      eapply job_step_ok; [|exact Hstep].
      by eapply Forall_lookup_1.
    + destruct (step_new_job agg e ref j' Hj Hj')
        as (scanId & query & options & clock & _ & _ & ->).
      by apply started_ok.
  - destruct e as [a|scanId query options clock|ref a o clock|ref]; simpl.
    + done.
    + unfold startScan. destruct (cacheHit _ _ _); [done|].
      by apply resume_cache_ok.
    + unfold settle. destruct (heap agg !! ref); [|done].
      destruct (bool_decide _); [|done]. by apply resume_cache_ok.
    + unfold deadline. destruct (heap agg !! ref) as [j|]; [|done].
      by destruct (raceSettled j).
  - destruct e as [a|scanId query options clock|ref a o clock|ref]; simpl.
    + by apply setAdapter_NoDup.
    + unfold startScan. destruct (cacheHit _ _ _); [done|].
      by rewrite adapters_resume.
    + unfold settle. destruct (heap agg !! ref); [|done].
      destruct (bool_decide _); [|done]. by rewrite adapters_resume.
    + unfold deadline. destruct (heap agg !! ref) as [j|]; [|done].
      by destruct (raceSettled j).
Qed.

Lemma run_ok agg events : agg_ok agg -> agg_ok (run agg events).
Proof.
  revert agg. induction events as [|e events IH]; intros agg Hok; [done|].
  apply IH. by apply step_ok.
Qed.

Lemma newAggregator_ok config defaults : agg_ok (newAggregator config defaults).
Proof.
  unfold newAggregator.
  assert (agg_ok (mkAggregator config [] [] ∅ ∅)) as H0.
  { split; simpl; [constructor|apply map_Forall_empty|constructor]. }
  revert H0. generalize (mkAggregator config [] [] ∅ ∅).
  induction defaults as [|a l IH]; intros agg Hok; [done|].
  apply IH. exact (step_ok agg (Register a) Hok).
Qed.

Lemma reachable_ok agg : reachable agg -> agg_ok agg.
Proof.
  intros (config & defaults & events & ->).
  apply run_ok, newAggregator_ok.
Qed.

(** Bring the invariant of a job of a reachable state into the context. *)
Local Ltac job_invariant Hr Hj Hok :=
  let Hheap := fresh "Hheap" in
  apply reachable_ok in Hr as [Hheap _ _];
  pose proof (Forall_lookup_1 _ _ _ _ Hheap Hj) as Hok.

Lemma reachable_step agg e : reachable agg -> reachable (step agg e).
Proof.
  intros (config & defaults & events & ->).
  exists config, defaults, (events ++ [e]).
  unfold run. by rewrite foldl_app.
Qed.

Lemma reachable_run agg events : reachable agg -> reachable (run agg events).
Proof.
  revert agg. induction events as [|e events IH]; intros agg Hr; [done|].
  apply IH. by apply reachable_step.
Qed.

(** ** Jobs along a run *)

Lemma settle_job agg ref' a o clock ref j :
  heap agg !! ref = Some j ->
  ∃ j', heap (settle agg ref' a o clock) !! ref = Some j'
        ∧ (j' = j
           ∨ (ref' = ref ∧ a ∈ pending j
              ∧ j' = resumed (config agg) (called j a o) clock)).
Proof.
  intros Hj. pose proof (lookup_lt_Some _ _ _ Hj) as Hlt. unfold settle.
  destruct (heap agg !! ref') as [j0|] eqn:Hj0; [|by eauto].
  destruct (bool_decide _) eqn:Hin; [|by eauto].
  apply bool_decide_eq_true in Hin. rewrite heap_resume.
  destruct (decide (ref' = ref)) as [->|Hne].
  - rewrite Hj in Hj0. injection Hj0 as <-.
    eexists. split; [by apply list_lookup_insert_eq|]. by right.
  - exists j. split; [by rewrite list_lookup_insert_ne|by left].
Qed.

Lemma settle_pending agg ref a o clock j :
  heap agg !! ref = Some j -> a ∈ pending j ->
  heap (settle agg ref a o clock) !! ref
  = Some (resumed (config agg) (called j a o) clock).
Proof.
  intros Hj Hin. pose proof (lookup_lt_Some _ _ _ Hj) as Hlt. unfold settle.
  rewrite Hj, bool_decide_eq_true_2 by done.
  rewrite heap_resume. by apply list_lookup_insert_eq.
Qed.

Lemma status_resumed config j clock :
  Scan.status (scan (resumed config j clock)) = completed
  ∨ resumed config j clock = j.
Proof. unfold resumed. destruct (raceWon j); [by left|by right]. Qed.

(** Once the race of a job is over, its status is final. *)
Lemma job_step_settled config j j' :
  job_step config j j' -> raceSettled j = true ->
  raceSettled j' = true ∧ Scan.status (scan j') = Scan.status (scan j).
Proof.
  intros Hstep Hs. destruct Hstep as [j|j a o clock Hin|j Hopen].
  - done.
  - unfold resumed.
    assert (raceWon (called j a o) = false) as ->.
    { unfold raceWon. simpl. rewrite Hs. by destruct (filter _ _). }
    simpl. by rewrite status_adapterSettled.
  - congruence.
Qed.

Lemma run_settled agg events ref j :
  heap agg !! ref = Some j -> raceSettled j = true ->
  ∃ j', heap (run agg events) !! ref = Some j'
        ∧ raceSettled j' = true
        ∧ Scan.status (scan j') = Scan.status (scan j).
Proof.
  revert agg j. induction events as [|e events IH]; intros agg j Hj Hs.
  { by exists j. }
  destruct (step_job agg e ref j Hj) as (j1 & Hj1 & Hstep).
  destruct (job_step_settled _ _ _ Hstep Hs) as [Hs1 Hst1].
  destruct (IH (step agg e) j1 Hj1 Hs1) as (j' & Hj' & Hs' & Hst').
  exists j'. repeat split; [done..|congruence].
Qed.

(** A completed job does not move any more. *)
Lemma job_step_completed config j j' :
  job_ok j -> Scan.status (scan j) = completed -> job_step config j j' -> j' = j.
Proof.
  intros Hok Hdone Hstep.
  destruct (ok_completed j Hok Hdone) as (Hp & Hs & _).
  destruct Hstep as [j|j a o clock Hin|j Hopen]; [done| |congruence].
  rewrite Hp in Hin. by apply elem_of_nil in Hin.
Qed.

(** The end time of a job is never cleared, and its progress never drops. *)
Lemma job_step_endTime config j j' :
  job_step config j j' ->
  is_Some (Scan.endTime (scan j)) -> is_Some (Scan.endTime (scan j')).
Proof.
  intros Hstep He. destruct Hstep as [j|j a o clock Hin|j Hopen]; [done| |done].
  unfold resumed. destruct (raceWon _); simpl; [done|].
  by rewrite endTime_adapterSettled.
Qed.

Lemma job_step_progress config j j' :
  job_ok j -> job_step config j j' ->
  Scan.progress (scan j) <= Scan.progress (scan j').
Proof.
  intros Hok Hstep.
  destruct Hstep as [j|j a o clock Hin|j Hopen]; [done| |done].
  destruct Hok as [Hdone Hop Hrun Hprog [Hc0 Hct] Hnd].
  pose proof (pending_called_length _ _ Hin) as Hlen.
  assert (Scan.status (scan j) ≠ completed) as Hnot.
  { intros Hs. destruct (Hdone Hs) as (Hp & _). rewrite Hp in Hin.
    by apply elem_of_nil in Hin. }
  rewrite (Hprog Hnot).
  destruct (stats_adapterSettled (scan j) a o) as (found & Hst & Hpr).
  destruct (Scan.stats (scan j)) as [t c u v] eqn:Hstats. simpl in *.
  unfold resumed. destruct (raceWon _); simpl.
  - apply progressOf_le_100. lia.
  - rewrite Hpr. unfold sourceCompleted. simpl. apply progressOf_mono; lia.
Qed.

Lemma progress_monotone agg e ref j j' :
  reachable agg ->
  heap agg !! ref = Some j -> heap (step agg e) !! ref = Some j' ->
  Scan.progress (scan j) <= Scan.progress (scan j').
Proof.
  intros Hr Hj Hj'. apply reachable_ok in Hr as [Hheap _ _].
  destruct (step_job agg e ref j Hj) as (j1 & Hj1 & Hstep).
  rewrite Hj' in Hj1. injection Hj1 as <-.
  eapply job_step_progress; [|exact Hstep]. by eapply Forall_lookup_1.
Qed.

Lemma completed_progress agg ref j :
  reachable agg -> heap agg !! ref = Some j ->
  Scan.status (scan j) = completed -> Scan.fromCache (scan j) = false ->
  Scan.progress (scan j) = 100.
Proof.
  intros Hr Hj Hdone Hc. job_invariant Hr Hj Hok.
  by destruct (ok_completed j Hok Hdone) as (_ & _ & _ & _ & H100); apply H100.
Qed.

Lemma endTime_never_cleared agg e ref j j' :
  heap agg !! ref = Some j -> heap (step agg e) !! ref = Some j' ->
  is_Some (Scan.endTime (scan j)) -> is_Some (Scan.endTime (scan j')).
Proof.
  intros Hj Hj'. destruct (step_job agg e ref j Hj) as (j1 & Hj1 & Hstep).
  rewrite Hj' in Hj1. injection Hj1 as <-. by eapply job_step_endTime.
Qed.

Lemma completed_has_endTime agg ref j :
  reachable agg -> heap agg !! ref = Some j ->
  Scan.status (scan j) = completed -> is_Some (Scan.endTime (scan j)).
Proof.
  intros Hr Hj Hdone. job_invariant Hr Hj Hok.
  by destruct (ok_completed j Hok Hdone) as (_ & _ & _ & He & _).
Qed.

(** ** The total deadline, progress and end times *)

(** C1, as stated, fails: when the total deadline fires while an adapter is
    still out, the job is not finalized.  Its status is error, with Timeout
    in its error list, and the late findings of the adapter still land in
    the job. *)
Lemma total_deadline_counterexample :
  let agg :=
    run (newAggregator shortDeadline [Adapter.mk "slow" 1])
        [StartScan "scan-1" "testuser" (Options.mk None) (tick 0); Deadline 0] in
  let late :=
    step agg (Settle 0 "slow" (Fulfilled [plainFinding "1" (8 # 10)]) (tick 5000)) in
  (∃ j, heap agg !! 0%nat = Some j
        ∧ Scan.status (scan j) = error
        ∧ Scan.errors (scan j) = [ScanFailure "Timeout"]
        ∧ Scan.results (scan j) = []
        ∧ Scan.progress (scan j) = 0)
  ∧ (∃ j, heap late !! 0%nat = Some j
          ∧ Scan.status (scan j) = error
          ∧ Scan.results (scan j) = [plainFinding "1" (8 # 10)]
          ∧ Scan.progress (scan j) = 100).
Proof. split; eexists; by vm_compute. Qed.

(** C1 (amended).  For every scan whose total deadline fires while the job
    is still running (not all adapter calls have resolved), [runScan] is
    rejected with Timeout: the status of the job becomes error, Timeout is
    appended to its error list, its raw findings are left as they are, the
    cache is not written, and the status stays error whatever happens next.
    A job whose status is completed is not mutated further. *)
Theorem total_deadline_fails_scan :
  (∀ agg ref j,
      reachable agg -> heap agg !! ref = Some j ->
      Scan.status (scan j) = running ->
      (∃ j', heap (step agg (Deadline ref)) !! ref = Some j'
             ∧ Scan.status (scan j') = error
             ∧ Scan.errors (scan j') = Scan.errors (scan j) ++ [ScanFailure "Timeout"]
             ∧ Scan.results (scan j') = Scan.results (scan j)
             ∧ pending j' = pending j)
      ∧ cache (step agg (Deadline ref)) = cache agg
      ∧ ∀ events, ∃ j'',
          heap (run (step agg (Deadline ref)) events) !! ref = Some j''
          ∧ Scan.status (scan j'') = error)
  ∧ (∀ agg ref j e,
        reachable agg -> heap agg !! ref = Some j ->
        Scan.status (scan j) = completed ->
        heap (step agg e) !! ref = Some j).
Proof.
  split.
  - intros agg ref j Hr Hj Hrun.
    job_invariant Hr Hj Hok.
    pose proof (ok_running j Hok Hrun) as Hopen.
    pose proof (lookup_lt_Some _ _ _ Hj) as Hlt.
    assert (step agg (Deadline ref)
            = putJob agg ref (mkJob (failScan (scan j) "Timeout") (pending j) true))
      as Hstep by (simpl; unfold deadline; by rewrite Hj, Hopen).
    assert (heap (step agg (Deadline ref)) !! ref
            = Some (mkJob (failScan (scan j) "Timeout") (pending j) true)) as Hj'.
    { rewrite Hstep, heap_putJob. by apply list_lookup_insert_eq. }
    split; [eexists; split; [exact Hj'|done]|].
    split; [by rewrite Hstep|].
    intros events.
    destruct (run_settled _ events ref _ Hj' eq_refl) as (j'' & Hj'' & _ & Hst).
    by exists j''.
  - intros agg ref j e Hr Hj Hdone.
    job_invariant Hr Hj Hok.
    destruct (step_job agg e ref j Hj) as (j' & Hj' & Hstep).
    by rewrite (job_step_completed _ _ _ Hok Hdone Hstep) in Hj'.
Qed.

Lemma total_deadline_fails_scan_witness :
  let agg :=
    run (newAggregator shortDeadline [Adapter.mk "slow" 1])
        [StartScan "scan-1" "testuser" (Options.mk None) (tick 0)] in
  ∃ j', heap (step agg (Deadline 0)) !! 0%nat = Some j'
        ∧ Scan.status (scan j') = error
        ∧ Scan.errors (scan j') = [ScanFailure "Timeout"]
        ∧ Scan.results (scan j') = []
        ∧ pending j' = ["slow"].
Proof.
  intros agg.
  refine (proj1 (proj1 total_deadline_fails_scan agg 0%nat
                   (mkJob (Scan.mk "scan-1" "testuser" (Options.mk None) running
                             0 None 0 [] [] (Stats.mk 1 0 0 0) false)
                          ["slow"] false) _ _ _)).
  - exists shortDeadline, [Adapter.mk "slow" 1],
      [StartScan "scan-1" "testuser" (Options.mk None) (tick 0)].
    reflexivity.
  - reflexivity.
  - reflexivity.
Defined.

(** C3 fails on the code: a scan served from the cache is completed with
    its progress still at 0.  ([runScan] sets 100 on its own path; the cache
    path of [startScan] does not.) *)
Theorem cached_scan_progress_not_100 :
  let agg :=
    run (newAggregator AGGREGATOR_CONFIG [Adapter.mk "stub" 1])
        [StartScan "scan-1" "testuser" (Options.mk None) (tick 0);
         Settle 0 "stub" (Fulfilled [plainFinding "1" (8 # 10)]) (tick 10);
         StartScan "scan-2" "testuser" (Options.mk None) (tick 20)] in
  ∃ j, heap agg !! 1%nat = Some j
       ∧ Scan.status (scan j) = completed
       ∧ Scan.fromCache (scan j) = true
       ∧ Scan.progress (scan j) = 0.
Proof. eexists. by vm_compute. Qed.

(** C10 fails on the code: a job that the total deadline turns to error
    keeps a null end time.  (Both completion paths set [endTime]; the
    rejection handler of [startScan] does not.) *)
Theorem failed_scan_without_endTime :
  let agg :=
    run (newAggregator shortDeadline [Adapter.mk "slow" 1])
        [StartScan "scan-1" "testuser" (Options.mk None) (tick 0); Deadline 0] in
  ∃ j, heap agg !! 0%nat = Some j
       ∧ Scan.status (scan j) = error
       ∧ Scan.endTime (scan j) = None.
Proof. eexists. by vm_compute. Qed.

(** ** Ordering of the final list *)

Lemma sameConfidence_tied c (x y : Finding.t) :
  sameConfidence c x -> sameConfidence c y -> (byConfidence x y <= 0)%Q.
Proof.
  unfold sameConfidence, byConfidence.
  destruct (Finding.confidence x) as [cx|]; [|done].
  destruct (Finding.confidence y) as [cy|]; [|done].
  intros Hx%Qeq_bool_iff Hy%Qeq_bool_iff. lra.
Qed.

(** C7.  The result list of every completed scan is sorted by descending
    confidence.  The final list is the fused list (the surviving findings
    in arrival order, scored) rearranged by a stable sort: findings of equal
    confidence keep their arrival order. *)
Theorem completed_results_sorted_stable :
  (∀ agg ref j,
      reachable agg -> heap agg !! ref = Some j ->
      Scan.status (scan j) = completed ->
      descending (Scan.results (scan j)))
  ∧ (∀ config s now,
        let kept := deduplicateResults config (Scan.results s) in
        let fused := scoreResults kept (Scan.query s) in
        let final := Scan.results (completeScan config s now) in
        sublist kept (Scan.results s)
        ∧ descending final
        ∧ final ≡ₚ fused
        ∧ ∀ c, filter (sameConfidence c) final = filter (sameConfidence c) fused).
Proof.
  split.
  - intros agg ref j Hr Hj Hdone. job_invariant Hr Hj Hok.
    by destruct (ok_completed j Hok Hdone) as (_ & _ & Hsorted & _).
  - intros config s now. cbv zeta. simpl. unfold fuseResults.
    split; [apply dedupe_from_sublist|].
    split; [apply sort_descending, scoreResults_scored|].
    split; [apply sort_perm|].
    intros c. apply sort_filter. apply sameConfidence_tied.
Qed.

Lemma completed_results_sorted_stable_witness :
  let agg :=
    run (newAggregator AGGREGATOR_CONFIG [Adapter.mk "stub" 1])
        [StartScan "scan-1" "testuser" (Options.mk None) (tick 0);
         Settle 0 "stub"
           (Fulfilled [plainFinding "1" (3 # 10); plainFinding "2" (9 # 10);
                       plainFinding "3" (3 # 10)]) (tick 10)] in
  ∃ j, heap agg !! 0%nat = Some j
       ∧ map Finding.id (Scan.results (scan j)) = ["2"; "1"; "3"]
       ∧ descending (Scan.results (scan j)).
Proof.
  intros agg. eexists. split; [by vm_compute|]. split; [by vm_compute|].
  apply (proj1 completed_results_sorted_stable agg 0%nat).
  - exists AGGREGATOR_CONFIG, [Adapter.mk "stub" 1],
      [StartScan "scan-1" "testuser" (Options.mk None) (tick 0);
       Settle 0 "stub"
         (Fulfilled [plainFinding "1" (3 # 10); plainFinding "2" (9 # 10);
                     plainFinding "3" (3 # 10)]) (tick 10)].
    reflexivity.
  - by vm_compute.
  - by vm_compute.
Defined.

(** ** A job among the others *)

Lemma step_job_event agg e ref j :
  heap agg !! ref = Some j ->
  heap (step agg e) !! ref = Some (job_event (config agg) ref j e).
Proof.
  intros Hj. pose proof (lookup_lt_Some _ _ _ Hj) as Hlt.
  destruct e as [a|scanId query options clock|ref' a o clock|ref']; simpl.
  - done.
  - rewrite heap_startScan. by apply lookup_app_l_Some.
  - unfold settle. destruct (decide (ref' = ref)) as [->|Hne].
    + rewrite Hj. destruct (decide (a ∈ pending j)) as [Hin|Hin].
      * rewrite !bool_decide_eq_true_2 by done.
        rewrite heap_resume. by apply list_lookup_insert_eq.
      * rewrite !bool_decide_eq_false_2; [done| |done]. by intros [_ ?].
    + rewrite (bool_decide_eq_false_2 (ref' = ref ∧ _)) by (by intros [? _]).
      destruct (heap agg !! ref'); [|done].
      destruct (bool_decide _); [|done].
      by rewrite heap_resume, list_lookup_insert_ne.
  - unfold deadline. destruct (decide (ref' = ref)) as [->|Hne].
    + rewrite Hj. destruct (raceSettled j) eqn:Hs.
      * rewrite bool_decide_eq_false_2; [done|]. by intros [_ ?].
      * rewrite bool_decide_eq_true_2 by done.
        rewrite heap_putJob. by apply list_lookup_insert_eq.
    + rewrite (bool_decide_eq_false_2 (ref' = ref ∧ _)) by (by intros [? _]).
      destruct (heap agg !! ref') as [j0|]; [|done].
      destruct (raceSettled j0); [done|].
      by rewrite heap_putJob, list_lookup_insert_ne.
Qed.

Lemma run_job_event agg events ref j :
  heap agg !! ref = Some j ->
  heap (run agg events) !! ref
  = Some (foldl (job_event (config agg) ref) j events).
Proof.
  revert agg j. induction events as [|e events IH]; intros agg j Hj; [done|].
  cbn [run foldl]. fold (run (step agg e) events).
  rewrite (IH _ _ (step_job_event agg e ref j Hj)). by rewrite config_step.
Qed.

Lemma job_event_other config ref j e :
  ¬ concerns ref e -> job_event config ref j e = j.
Proof.
  destruct e as [a|scanId query options clock|ref' a o clock|ref']; simpl;
    try done; intros Hne; rewrite bool_decide_eq_false_2; try done;
    by intros [? _].
Qed.

Lemma job_events_concerned config ref j events :
  foldl (job_event config ref) j events
  = foldl (job_event config ref) j (filter (concerns ref) events).
Proof.
  revert j. induction events as [|e events IH]; intros j; [done|].
  rewrite filter_cons. destruct (decide (concerns ref e)) as [Hc|Hc]; simpl.
  - apply IH.
  - by rewrite job_event_other, IH.
Qed.

(** Two schedules that address a job with the same events leave it in the
    same state, whatever they do to the other jobs. *)
Lemma run_same_job agg ref j events1 events2 :
  heap agg !! ref = Some j ->
  filter (concerns ref) events1 = filter (concerns ref) events2 ->
  heap (run agg events1) !! ref = heap (run agg events2) !! ref.
Proof.
  intros Hj Hsame. rewrite !(run_job_event _ _ _ _ Hj).
  by rewrite (job_events_concerned _ _ _ events1), Hsame,
    <-job_events_concerned.
Qed.

Lemma filter_take_prefix {A} (P : A -> Prop) `{!∀ x, Decision (P x)}
    (l : list A) (n : nat) :
  ∃ m, filter P (take n l) = take m (filter P l).
Proof.
  revert n. induction l as [|x l IH]; intros n.
  { exists 0%nat. by rewrite take_nil. }
  destruct n as [|n]; [by exists 0%nat|].
  destruct (IH n) as (m & Hm). cbn [take]. rewrite !filter_cons.
  destruct (decide (P x)).
  - exists (S m). cbn [take]. by rewrite Hm.
  - by exists m.
Qed.

Lemma filter_all {A} (P : A -> Prop) `{!∀ x, Decision (P x)} (l : list A) :
  Forall P l -> filter P l = l.
Proof.
  induction 1 as [|x l Hx Hl IH]; [done|].
  by rewrite filter_cons_True, IH.
Qed.

(** ** Scans whose adapters all fail *)

Lemma failed_fields message s order :
  Scan.status (failed message s order) = Scan.status s
  ∧ Scan.results (failed message s order) = Scan.results s
  ∧ Scan.query (failed message s order) = Scan.query s
  ∧ Scan.errors (failed message s order)
    = Scan.errors s ++ map (fun a => AdapterError a (message a)) order.
Proof.
  revert s. induction order as [|a order IH]; intros s.
  { simpl. by rewrite app_nil_r. }
  change (failed message s (a :: order))
    with (failed message (adapterSettled s a (Rejected (message a))) order).
  destruct (IH (adapterSettled s a (Rejected (message a)))) as (H1 & H2 & H3 & H4).
  rewrite H1, H2, H3, H4. simpl. by rewrite <-app_assoc.
Qed.

Lemma pending_after (a : string) (rest p : list string) :
  NoDup (a :: rest) -> p ≡ₚ a :: rest ->
  filter (fun b => b ≠ a) p ≡ₚ rest.
Proof.
  intros [Ha Hnd]%NoDup_cons Hp. rewrite Hp.
  rewrite filter_cons_False by (intros H; by apply H).
  assert (filter (fun b => b ≠ a) rest = rest) as ->; [|done].
  clear Hp Hnd. induction rest as [|x rest IH]; [done|].
  apply not_elem_of_cons in Ha as [Hx Ha].
  rewrite filter_cons_True by congruence. by rewrite IH.
Qed.

Section Failures.
Variable message : string -> string.
Variable clocks : string -> Clock.
Abbreviation failure' := (failure message clocks).

Lemma failures_complete (order : list string) agg ref j :
  heap agg !! ref = Some j ->
  order ≠ [] -> NoDup order -> pending j ≡ₚ order -> raceSettled j = false ->
  ∃ now,
    heap (run agg (map (failure' ref) order)) !! ref
    = Some (mkJob (completeScan (config agg) (failed message (scan j) order) now)
                  [] true).
Proof.
  revert agg j. induction order as [|a rest IH]; intros agg j Hj Hne Hnd Hp Hopen;
    [done|].
  assert (a ∈ pending j) as Hin by (rewrite Hp; left).
  pose proof (settle_pending agg ref a (Rejected (message a)) (clocks a) j Hj Hin)
    as Hj'.
  change (settle agg ref a (Rejected (message a)) (clocks a))
    with (step agg (failure' ref a)) in Hj'.
  pose proof (pending_after a rest (pending j) Hnd Hp) as Hrest.
  cbn [map run foldl]. fold (run (step agg (failure' ref a)) (map (failure' ref) rest)).
  destruct rest as [|b rest'].
  - apply Permutation_nil_r in Hrest.
    exists (t_end (clocks a)). cbn [map run foldl].
    rewrite Hj'. unfold resumed.
    assert (raceWon (called j a (Rejected (message a))) = true) as ->
      by (apply raceWon_spec; by split).
    done.
  - assert (resumed (config agg) (called j a (Rejected (message a))) (clocks a)
            = called j a (Rejected (message a))) as Hres.
    { unfold resumed.
      assert (raceWon (called j a (Rejected (message a))) ≠ true) as Hnot.
      { rewrite raceWon_spec. intros [Hnil _]. simpl in Hnil.
        rewrite Hnil in Hrest. by apply Permutation_nil_cons in Hrest. }
      by destruct (raceWon _). }
    rewrite Hres in Hj'.
    destruct (IH (step agg (failure' ref a)) (called j a (Rejected (message a))))
      as (now & Hfinal); try done.
    + by apply NoDup_cons_1_2 in Hnd.
    + exists now. by rewrite Hfinal, config_step.
Qed.

Lemma failures_not_error (events : list Event) agg ref j :
  Forall (fun e => ∃ ref' a o clock, e = Settle ref' a o clock) events ->
  heap agg !! ref = Some j -> Scan.status (scan j) ≠ error ->
  ∃ j', heap (run agg events) !! ref = Some j' ∧ Scan.status (scan j') ≠ error.
Proof.
  intros Hall. revert agg j.
  induction Hall as [|e events (ref' & a & o & clock & ->) Hall IH];
    intros agg j Hj Hst; [by exists j|].
  destruct (settle_job agg ref' a o clock ref j Hj) as (j1 & Hj1 & Hcase).
  apply (IH _ j1 Hj1).
  destruct Hcase as [->|(_ & _ & ->)]; [done|].
  destruct (status_resumed (config agg) (called j a o) clock) as [H|H];
    rewrite H; [done|]. simpl. by rewrite status_adapterSettled.
Qed.
End Failures.

(** The scan alone: its failures and nothing else. *)
Lemma failures_alone_complete
    (agg : Aggregator) (scanId query : string) (options : Options.t)
    (clock : Clock) (order : list string)
    (message : string -> string) (clocks : string -> Clock) :
  reachable agg ->
  cacheHit agg (getCacheKey query options) (t_check clock) = None ->
  order ≡ₚ map Adapter.name (selectedAdapters agg options) ->
  let ref := length (heap agg) in
  let failures := map (failure message clocks ref) order in
  let agg0 := startScan agg scanId query options clock in
  (∃ j, heap (run agg0 failures) !! ref = Some j
        ∧ Scan.status (scan j) = completed
        ∧ Scan.results (scan j) = []
        ∧ Scan.errors (scan j) = map (fun a => AdapterError a (message a)) order
        ∧ length (Scan.errors (scan j)) = length (selectedAdapters agg options)
        ∧ Scan.progress (scan j) = 100
        ∧ is_Some (Scan.endTime (scan j)))
  ∧ (∀ n, ∃ j, heap (run agg0 (take n failures)) !! ref = Some j
               ∧ Scan.status (scan j) ≠ error).
Proof.
  intros Hr Hmiss Horder ref failures agg0.
  pose proof (reachable_ok agg Hr) as [_ _ Hnames].
  assert (heap agg0 !! ref = Some (started agg scanId query options clock)) as Hj0.
  { subst agg0 ref. rewrite heap_startScan, lookup_app_r, Nat.sub_diag by done.
    done. }
  assert (config agg0 = config agg) as Hcfg by apply config_startScan.
  set (s0 := setTotalSources (newScan agg scanId query options (t_start clock))
               (length (selectedAdapters agg options))).
  set (j0 := mkJob s0 (map Adapter.name (selectedAdapters agg options)) false).
  assert (started agg scanId query options clock = resumed (config agg) j0 clock)
    as Hstarted by (unfold started; by rewrite Hmiss).
  split.
  - assert (length order = length (selectedAdapters agg options)) as Hlen
      by (by rewrite Horder, length_map).
    destruct (decide (order = [])) as [->|Hne].
    + exists (resumed (config agg) j0 clock).
      apply Permutation_nil_l in Horder.
      assert (raceWon j0 = true) as Hwon
        by (apply raceWon_spec; simpl; by rewrite <-Horder).
      rewrite <-Hstarted. split; [exact Hj0|].
      rewrite Hstarted. unfold resumed. rewrite Hwon. simpl.
      repeat split; done.
    + assert (resumed (config agg) j0 clock = j0) as Hres.
      { unfold resumed.
        assert (raceWon j0 ≠ true) as Hnot.
        { rewrite raceWon_spec. intros [Hnil _]. simpl in Hnil.
          rewrite Hnil in Horder. by apply Permutation_nil_r in Horder. }
        by destruct (raceWon j0). }
      rewrite Hstarted, Hres in Hj0.
      destruct (failures_complete message clocks order agg0 ref j0 Hj0 Hne)
        as (now & Hfinal); try done.
      { rewrite Horder. by apply selectedAdapters_NoDup. }
      eexists. split; [exact Hfinal|].
      destruct (failed_fields message s0 order) as (Hst & Hres' & Hq & Herr).
      cbn [scan completeScan Scan.status Scan.results Scan.errors Scan.progress
           Scan.endTime].
      change (scan j0) with s0. rewrite Hres', Herr.
      repeat split; try done.
      simpl. by rewrite length_map.
  - intros n.
    apply (failures_not_error (take n failures) agg0 ref
             (started agg scanId query options clock)); [|exact Hj0|].
    + apply Forall_take, Forall_map, Forall_true. intros a.
      by exists ref, a, (Rejected (message a)), (clocks a).
    + rewrite Hstarted.
      destruct (status_resumed (config agg) j0 clock) as [H|H]; by rewrite H.
Qed.

(** A completed job is at rest. *)
Lemma run_completed agg events ref j :
  reachable agg -> heap agg !! ref = Some j ->
  Scan.status (scan j) = completed ->
  heap (run agg events) !! ref = Some j.
Proof.
  revert agg. induction events as [|e events IH]; intros agg Hr Hj Hdone; [done|].
  cbn [run foldl]. fold (run (step agg e) events).
  apply IH; [by apply reachable_step| |done].
  pose proof (reachable_ok agg Hr) as [Hheap _ _].
  pose proof (Forall_lookup_1 _ _ _ _ Hheap Hj) as Hok.
  destruct (step_job agg e ref j Hj) as (j1 & Hj1 & Hstep).
  by rewrite <-(job_step_completed _ _ _ Hok Hdone Hstep).
Qed.

Lemma run_app agg events1 events2 :
  run agg (events1 ++ events2) = run (run agg events1) events2.
Proof. unfold run. apply foldl_app. Qed.

(** C2, as stated, fails when the total deadline fires before the last
    adapter has failed: with [totalTimeout] below [defaultTimeout], the
    first adapter fails, the deadline rejects [runScan], and the failure of
    the second adapter comes too late; the scan ends with status error. *)
Lemma all_adapters_fail_deadline_counterexample :
  let agg :=
    run (newAggregator shortDeadline [Adapter.mk "a" 2; Adapter.mk "b" 1])
        [StartScan "scan-1" "testuser" (Options.mk None) (tick 0);
         Settle 0 "a" (Rejected "Network error") (tick 10);
         Deadline 0;
         Settle 0 "b" (Rejected "Timeout") (tick 30000)] in
  ∃ j, heap agg !! 0%nat = Some j
       ∧ Scan.status (scan j) = error
       ∧ Scan.results (scan j) = []
       ∧ Scan.errors (scan j)
         = [AdapterError "a" "Network error"; ScanFailure "Timeout";
            AdapterError "b" "Timeout"]
       ∧ pending j = [].
Proof. eexists. split; [reflexivity|]. by repeat split. Qed.
(** C2 (amended).  Take a scan that misses the cache, and a schedule in
    which every selected adapter fails, once each and in any order, before
    any other event of this scan (its total deadline among them); events of
    other scans may come at any point, and anything may follow the last
    failure.  The scan ends completed, with no result and with one error
    entry per adapter, in the order of the failures (so a non-empty error
    list as soon as an adapter was selected); at no point of the schedule is
    its status error. *)
Theorem all_adapters_fail_completes
    (agg : Aggregator) (scanId query : string) (options : Options.t)
    (clock : Clock) (order : list string)
    (message : string -> string) (clocks : string -> Clock)
    (events later : list Event) :
  reachable agg ->
  cacheHit agg (getCacheKey query options) (t_check clock) = None ->
  order ≡ₚ map Adapter.name (selectedAdapters agg options) ->
  let ref := length (heap agg) in
  filter (concerns ref) events = map (failure message clocks ref) order ++ later ->
  let agg0 := startScan agg scanId query options clock in
  (∃ j, heap (run agg0 events) !! ref = Some j
        ∧ Scan.status (scan j) = completed
        ∧ Scan.results (scan j) = []
        ∧ Scan.errors (scan j) = map (fun a => AdapterError a (message a)) order
        ∧ length (Scan.errors (scan j)) = length (selectedAdapters agg options)
        ∧ Scan.progress (scan j) = 100
        ∧ is_Some (Scan.endTime (scan j)))
  ∧ (∀ n, ∃ j, heap (run agg0 (take n events)) !! ref = Some j
               ∧ Scan.status (scan j) ≠ error).
Proof.
  intros Hr Hmiss Horder ref Hevents agg0.
  destruct (failures_alone_complete agg scanId query options clock order
              message clocks Hr Hmiss Horder) as [Hfinal Hprefix].
  fold ref agg0 in Hfinal, Hprefix.
  set (failures := map (failure message clocks ref) order) in *.
  assert (heap agg0 !! ref = Some (started agg scanId query options clock)) as Hj0.
  { subst agg0 ref. rewrite heap_startScan, lookup_app_r, Nat.sub_diag by done.
    done. }
  assert (reachable agg0) as Hr0
    by apply (reachable_step agg (StartScan scanId query options clock) Hr).
  assert (Forall (concerns ref) (failures ++ later)) as Hall.
  { rewrite <-Hevents. apply Forall_forall. intros e He.
    by apply list_elem_of_filter in He as [He _]. }
  destruct Hfinal as (j & Hj & Hdone & Hrest).
  assert (∀ rest, heap (run agg0 (failures ++ rest)) !! ref = Some j) as Hlater.
  { intros rest. rewrite run_app.
    apply run_completed; [by apply reachable_run|done..]. }
  split.
  - exists j. split; [|by split].
    rewrite (run_same_job agg0 ref _ events (failures ++ later) Hj0);
      [apply Hlater|].
    by rewrite Hevents, filter_all.
  - intros n.
    destruct (filter_take_prefix (concerns ref) events n) as (m & Hm).
    rewrite (run_same_job agg0 ref _ (take n events)
               (take m (failures ++ later)) Hj0).
    2:{ rewrite Hm, Hevents. symmetry. apply filter_all. by apply Forall_take. }
    rewrite take_app.
    destruct (decide (m <= length failures)%nat) as [Hle|Hgt].
    + replace (m - length failures)%nat with 0%nat by lia.
      rewrite take_0, app_nil_r. apply Hprefix.
    + rewrite take_ge by lia. exists j. split; [apply Hlater|].
      by rewrite Hdone.
Qed.

Lemma all_adapters_fail_completes_witness :
  let agg := newAggregator AGGREGATOR_CONFIG [Adapter.mk "a" 2; Adapter.mk "b" 1] in
  let events :=
    [Settle 0 "a" (Rejected "Network error") (tick 10);
     StartScan "scan-2" "other" (Options.mk (Some ["b"])) (tick 11);
     Settle 0 "b" (Rejected "Network error") (tick 10);
     Settle 1 "b" (Fulfilled []) (tick 12);
     Deadline 0] in
  ∃ j,
    heap (run (startScan agg "scan-1" "testuser" (Options.mk None) (tick 0))
              events) !! 0%nat = Some j
    ∧ Scan.status (scan j) = completed
    ∧ Scan.results (scan j) = []
    ∧ Scan.errors (scan j)
      = [AdapterError "a" "Network error"; AdapterError "b" "Network error"].
Proof.
  intros agg events.
  destruct (all_adapters_fail_completes agg "scan-1" "testuser" (Options.mk None)
              (tick 0) ["a"; "b"] (fun _ => "Network error") (fun _ => tick 10)
              events [Deadline 0])
    as [(j & Hj & Hst & Hres & Herr & _) _].
  - exists AGGREGATOR_CONFIG, [Adapter.mk "a" 2; Adapter.mk "b" 1], []. reflexivity.
  - reflexivity.
  - vm_compute. apply perm_swap.
  - reflexivity.
  - exists j. repeat split; assumption.
Defined.

(** ** The cache *)

Lemma config_run agg events : config (run agg events) = config agg.
Proof.
  revert agg. induction events as [|e events IH]; intros agg; [done|].
  cbn [run foldl]. fold (run (step agg e) events). by rewrite IH, config_step.
Qed.

(** * Further properties of the aggregator *)

(** ** Induction over the reachable states *)

Lemma newAggregator_run config defaults :
  newAggregator config defaults
  = run (mkAggregator config [] [] ∅ ∅) (map Register defaults).
Proof.
  unfold newAggregator, run. generalize (mkAggregator config [] [] ∅ ∅).
  induction defaults as [|a l IH]; intros agg; [done|]. simpl. apply IH.
Qed.

Lemma reachable_induction (P : Aggregator -> Prop) :
  (∀ config, P (mkAggregator config [] [] ∅ ∅)) ->
  (∀ agg e, reachable agg -> P agg -> P (step agg e)) ->
  ∀ agg, reachable agg -> P agg.
Proof.
  intros Hinit Hstep agg (config & defaults & events & ->).
  rewrite newAggregator_run. unfold run. rewrite <-foldl_app.
  assert (reachable (mkAggregator config [] [] ∅ ∅)) as Hr0
    by (by exists config, [], []).
  induction (map Register defaults ++ events) as [|e l IH] using rev_ind.
  { apply Hinit. }
  rewrite foldl_app. simpl. apply Hstep; [|exact IH].
  change (foldl step (mkAggregator config [] [] ∅ ∅) l)
    with (run (mkAggregator config [] [] ∅ ∅) l).
  by apply reachable_run.
Qed.

(** A property of jobs that [startScan] establishes and every move of a job
    keeps holds of every job of every reachable state. *)
Lemma jobs_invariant (P : Job -> Prop) :
  (∀ agg scanId query options clock,
      agg_ok agg -> P (started agg scanId query options clock)) ->
  (∀ config j j', job_ok j -> P j -> job_step config j j' -> P j') ->
  ∀ agg, reachable agg -> Forall P (heap agg).
Proof.
  intros Hnew Hkeep. apply reachable_induction.
  { intros config. constructor. }
  intros agg e Hr IH. pose proof (reachable_ok agg Hr) as Hok.
  apply Forall_lookup. intros ref j' Hj'.
  destruct (heap agg !! ref) as [j|] eqn:Hj.
  - destruct (step_job agg e ref j Hj) as (j'' & Hj'' & Hstep).
    rewrite Hj' in Hj''. injection Hj'' as <-.
    eapply Hkeep; [| |exact Hstep].
    + destruct Hok as [Hheap _ _]. by eapply Forall_lookup_1.
    + by eapply Forall_lookup_1.
  - destruct (step_new_job agg e ref j' Hj Hj')
      as (scanId & query & options & clock & _ & _ & ->).
    by apply Hnew.
Qed.

(** ** What a move of a job leaves alone *)

Lemma job_step_identity config j j' :
  job_step config j j' ->
  Scan.id (scan j') = Scan.id (scan j)
  ∧ Scan.query (scan j') = Scan.query (scan j)
  ∧ Scan.options (scan j') = Scan.options (scan j)
  ∧ Scan.startTime (scan j') = Scan.startTime (scan j)
  ∧ Scan.fromCache (scan j') = Scan.fromCache (scan j).
Proof.
  intros [j0|j0 a o clock _|j0 _]; [done| |done].
  unfold resumed. destruct (raceWon _); destruct o; done.
Qed.

Lemma started_identity agg scanId query options clock :
  let j := started agg scanId query options clock in
  Scan.id (scan j) = scanId ∧ Scan.query (scan j) = query
  ∧ Scan.options (scan j) = options ∧ Scan.startTime (scan j) = t_start clock.
Proof.
  unfold started. destruct (cacheHit _ _ _); [done|].
  unfold resumed. by destruct (raceWon _).
Qed.

Lemma progressOf_nonneg (t c u v : Z) :
  0 <= t -> 0 <= c -> 0 <= progressOf (Stats.mk t c u v).
Proof.
  intros Ht Hc. rewrite <-(progressOf_start t u v).
  by apply progressOf_mono.
Qed.

Lemma progress_range agg :
  reachable agg ->
  Forall (fun j => 0 <= Scan.progress (scan j) <= 100) (heap agg).
Proof.
  apply jobs_invariant.
  - intros agg0 scanId query options clock _. unfold started.
    destruct (cacheHit _ _ _); [simpl; lia|].
    unfold resumed. destruct (raceWon _); simpl; lia.
  - intros config j j' Hok IH Hstep.
    destruct Hstep as [j|j a o clock Ha|j Hopen]; [done| |done].
    unfold resumed. destruct (raceWon _); [simpl; lia|].
    destruct Hok as [_ _ _ _ [Hc Hle] _].
    cbn [called scan].
    destruct (stats_adapterSettled (scan j) a o) as (found & Hst & ->).
    apply list_elem_of_split in Ha as (p1 & p2 & Hp). rewrite Hp in Hle.
    rewrite length_app in Hle. simpl in Hle.
    destruct (Scan.stats (scan j)) as [t c u v]. simpl in *.
    unfold sourceCompleted. simpl. split.
    + apply progressOf_nonneg; lia.
    + apply progressOf_le_100. lia.
Qed.

(** X1.  The progress of a job of a reachable state lies between 0 and 100,
    and no sequence of events lowers it. *)
Theorem progress_bounded_and_monotone agg ref j :
  reachable agg -> heap agg !! ref = Some j ->
  0 <= Scan.progress (scan j) <= 100
  ∧ ∀ events, ∃ j', heap (run agg events) !! ref = Some j'
                    ∧ Scan.progress (scan j) <= Scan.progress (scan j').
Proof.
  intros Hr Hj. split.
  { pose proof (progress_range agg Hr) as Hall.
    by apply (Forall_lookup_1 _ _ _ _ Hall Hj). }
  intros events. revert agg j Hr Hj.
  induction events as [|e events IH]; intros agg j Hr Hj.
  { exists j. split; [done|lia]. }
  destruct (step_job agg e ref j Hj) as (j1 & Hj1 & _).
  destruct (IH (step agg e) j1 (reachable_step _ _ Hr) Hj1) as (j' & Hj' & Hle).
  exists j'. split; [exact Hj'|].
  pose proof (progress_monotone agg e ref j j1 Hr Hj Hj1). lia.
Qed.

Lemma progress_bounded_and_monotone_witness :
  let agg :=
    run (newAggregator AGGREGATOR_CONFIG [Adapter.mk "a" 2; Adapter.mk "b" 1])
        [StartScan "scan-1" "testuser" (Options.mk None) (tick 0);
         Settle 0 "a" (Rejected "Network error") (tick 10)] in
  ∃ j, heap agg !! 0%nat = Some j
       ∧ Scan.progress (scan j) = 50
       ∧ ∀ events, ∃ j', heap (run agg events) !! 0%nat = Some j'
                         ∧ Scan.progress (scan j) <= Scan.progress (scan j').
Proof.
  intros agg. eexists. split; [reflexivity|]. split; [reflexivity|].
  apply (progress_bounded_and_monotone agg 0%nat).
  - eexists _, _, _. reflexivity.
  - reflexivity.
Defined.

Lemma endTime_only_completed agg :
  reachable agg ->
  Forall (fun j => Scan.status (scan j) ≠ completed -> Scan.endTime (scan j) = None)
         (heap agg).
Proof.
  apply jobs_invariant.
  - intros agg0 scanId query options clock _. unfold started.
    destruct (cacheHit _ _ _); [done|].
    unfold resumed. destruct (raceWon _); done.
  - intros config j j' Hok IH Hstep.
    destruct Hstep as [j|j a o clock Ha|j Hopen]; [done| |].
    + unfold resumed. destruct (raceWon _); [done|].
      cbn [called scan]. rewrite status_adapterSettled, endTime_adapterSettled.
      exact IH.
    + intros _. simpl. apply IH.
      destruct (ok_open j Hok Hopen) as [-> _]. done.
Qed.

(** X2.  In every reachable state a running job has no end time and a
    completed job has one; a job whose end time is set is never changed
    again by any sequence of events. *)
Theorem endTime_set_at_completion agg ref j :
  reachable agg -> heap agg !! ref = Some j ->
  (Scan.status (scan j) = running -> Scan.endTime (scan j) = None)
  ∧ (Scan.status (scan j) = completed -> is_Some (Scan.endTime (scan j)))
  ∧ (is_Some (Scan.endTime (scan j)) ->
     ∀ events, heap (run agg events) !! ref = Some j).
Proof.
  intros Hr Hj.
  pose proof (Forall_lookup_1 _ _ _ _ (endTime_only_completed agg Hr) Hj) as Hnone.
  simpl in Hnone. split; [|split].
  - intros Hrun. apply Hnone. by rewrite Hrun.
  - by apply (completed_has_endTime agg ref).
  - intros Hset events.
    assert (Scan.status (scan j) = completed) as Hdone.
    { destruct (Scan.status (scan j)) eqn:Hst; [|done|];
        rewrite Hnone in Hset by done; by destruct Hset. }
    clear Hnone Hset. revert agg Hr Hj.
    induction events as [|e events IH]; intros agg Hr Hj; [done|].
    simpl. apply IH; [by apply reachable_step|].
    pose proof (reachable_ok agg Hr) as [Hheap _ _].
    pose proof (Forall_lookup_1 _ _ _ _ Hheap Hj) as Hok.
    destruct (step_job agg e ref j Hj) as (j1 & Hj1 & Hstep).
    by rewrite <-(job_step_completed _ _ _ Hok Hdone Hstep).
Qed.

Lemma endTime_set_at_completion_witness :
  let agg :=
    run (newAggregator AGGREGATOR_CONFIG [Adapter.mk "stub" 1])
        [StartScan "scan-1" "testuser" (Options.mk None) (tick 0);
         Settle 0 "stub" (Fulfilled [plainFinding "1" (8 # 10)]) (tick 10)] in
  ∃ j, heap agg !! 0%nat = Some j
       ∧ Scan.endTime (scan j) = Some 10
       ∧ ∀ events, heap (run agg events) !! 0%nat = Some j.
Proof.
  intros agg. eexists. split; [reflexivity|]. split; [reflexivity|].
  refine (proj2 (proj2 (endTime_set_at_completion agg 0%nat _ _ eq_refl)) _).
  - eexists _, _, _. reflexivity.
  - by eexists.
Defined.

Lemma pending_called_exact (p : list string) (a : string) :
  NoDup p -> a ∈ p ->
  S (length (filter (fun b => b ≠ a) p)) = length p.
Proof.
  intros Hnd Ha. apply list_elem_of_split in Ha as (p1 & p2 & ->).
  apply NoDup_app in Hnd as (_ & Hdisj & Hnd2).
  apply NoDup_cons in Hnd2 as [Ha2 _].
  rewrite filter_app, filter_cons_False by (intros H; by apply H).
  rewrite !filter_all.
  - rewrite !length_app. simpl. lia.
  - apply Forall_forall. intros b Hb ->. done.
  - apply Forall_forall. intros b Hb ->. apply (Hdisj a Hb). by left.
Qed.

Lemma fuseResults_length config results query :
  (length (fuseResults config results query) <= length results)%nat.
Proof.
  unfold fuseResults, scoreResults. rewrite length_map.
  apply sublist_length, dedupe_from_sublist.
Qed.

Lemma completeScan_counted config s now :
  Stats.totalResults (Scan.stats s) = Z.of_nat (length (Scan.results s)) ->
  let s' := completeScan config s now in
  Stats.uniqueResults (Scan.stats s') = Z.of_nat (length (Scan.results s'))
  ∧ Stats.uniqueResults (Scan.stats s') <= Stats.totalResults (Scan.stats s').
Proof.
  intros Htotal. simpl. rewrite Htotal.
  rewrite (Permutation_length (sort_perm _ _)).
  split; [done|]. apply inj_le, fuseResults_length.
Qed.

Lemma counted_invariant agg :
  reachable agg ->
  Forall (fun j => Scan.fromCache (scan j) = false -> counted j) (heap agg).
Proof.
  apply jobs_invariant.
  - intros agg0 scanId query options clock _. unfold started.
    destruct (cacheHit _ _ _); [done|]. intros _.
    unfold resumed. destruct (raceWon _) eqn:Hwon.
    + apply raceWon_spec in Hwon as [Hnil _]. simpl in Hnil.
      destruct (selectedAdapters agg0 options); [|done].
      unfold counted. simpl. repeat split; try done.
    + unfold counted. simpl. rewrite length_map. repeat split; try done; lia.
  - intros config j j' Hok IH Hstep.
    destruct (job_step_identity _ _ _ Hstep) as (_ & _ & _ & _ & Hfrom).
    rewrite Hfrom. intros Hmiss. specialize (IH Hmiss).
    destruct Hstep as [j|j a o clock Ha|j Hopen]; [done| |].
    + assert (Scan.status (scan j) ≠ completed) as Hrun.
      { intros Hdone. destruct (ok_completed j Hok Hdone) as (Hnil & _).
        rewrite Hnil in Ha. by apply elem_of_nil in Ha. }
      destruct IH as (Hsum & Hopen & _). destruct (Hopen Hrun) as [Htotal Huniq].
      pose proof (pending_called_exact (pending j) a (ok_pending j Hok) Ha) as Hlen.
      assert (counted (called j a o)) as Hcalled.
      { unfold counted. cbn [called scan pending].
        rewrite status_adapterSettled.
        destruct o as [found|message]; simpl;
          (split; [lia|]); (split; [|done]); intros _;
          rewrite ?length_app; split; try done; lia. }
      unfold resumed. destruct (raceWon _) eqn:Hwon; [|done].
      destruct Hcalled as (Hsum' & Hopen' & _).
      apply raceWon_spec in Hwon as [Hnil _].
      rewrite Hnil in Hsum'. unfold counted.
      assert (Scan.status (scan (called j a o)) ≠ completed) as Hrun'
        by (cbn [called scan]; by rewrite status_adapterSettled).
      destruct (Hopen' Hrun') as [Htotal' _].
      pose proof (completeScan_counted config (scan (called j a o)) (t_end clock)
                    Htotal') as Hdone.
      split; [exact Hsum'|]. split; [done|]. intros _. exact Hdone.
    + destruct (ok_open j Hok Hopen) as [Hrun _].
      destruct IH as (Hsum & Hopen' & _).
      unfold counted. simpl. split; [exact Hsum|]. split; [|done].
      intros _. apply Hopen'. by rewrite Hrun.
Qed.

(** X3.  The counters of a job that was not served from the cache: the
    completed sources and the calls still pending add up to [totalSources];
    until completion [totalResults] is the number of findings collected and
    [uniqueResults] is 0; at completion every source is counted,
    [uniqueResults] is the length of the final list and does not exceed
    [totalResults]. *)
Theorem stats_count_the_scan agg ref j :
  reachable agg -> heap agg !! ref = Some j ->
  Scan.fromCache (scan j) = false ->
  let st := Scan.stats (scan j) in
  Stats.completedSources st + Z.of_nat (length (pending j)) = Stats.totalSources st
  ∧ (Scan.status (scan j) ≠ completed ->
     Stats.totalResults st = Z.of_nat (length (Scan.results (scan j)))
     ∧ Stats.uniqueResults st = 0)
  ∧ (Scan.status (scan j) = completed ->
     Stats.completedSources st = Stats.totalSources st
     ∧ Stats.uniqueResults st = Z.of_nat (length (Scan.results (scan j)))
     ∧ Stats.uniqueResults st <= Stats.totalResults st).
Proof.
  intros Hr Hj Hmiss.
  pose proof (Forall_lookup_1 _ _ _ _ (counted_invariant agg Hr) Hj Hmiss)
    as (Hsum & Hopen & Hdone).
  pose proof (reachable_ok agg Hr) as [Hheap _ _].
  pose proof (Forall_lookup_1 _ _ _ _ Hheap Hj) as Hok.
  simpl. split; [exact Hsum|]. split; [exact Hopen|].
  intros Hst. destruct (Hdone Hst) as [Hu Hle].
  destruct (ok_completed j Hok Hst) as (Hnil & _).
  rewrite Hnil in Hsum. simpl in Hsum. repeat split; [lia|done|done].
Qed.

Lemma stats_count_the_scan_witness :
  let agg :=
    run (newAggregator AGGREGATOR_CONFIG [Adapter.mk "dupe" 1; Adapter.mk "slow" 2])
        [StartScan "scan-1" "testuser" (Options.mk None) (tick 0);
         Settle 0 "dupe"
           (Fulfilled [stubFinding "1" None (8 # 10); stubFinding "2" None (6 # 10)])
           (tick 10);
         Settle 0 "slow" (Rejected "Timeout") (tick 30000)] in
  ∃ j, heap agg !! 0%nat = Some j
       ∧ Scan.stats (scan j) = Stats.mk 2 2 2 1
       ∧ (Scan.status (scan j) = completed ->
          Stats.completedSources (Scan.stats (scan j))
          = Stats.totalSources (Scan.stats (scan j))
          ∧ Stats.uniqueResults (Scan.stats (scan j))
            = Z.of_nat (length (Scan.results (scan j)))
          ∧ Stats.uniqueResults (Scan.stats (scan j))
            <= Stats.totalResults (Scan.stats (scan j))).
Proof.
  intros agg. eexists. split; [reflexivity|]. split; [reflexivity|].
  refine (proj2 (proj2 (stats_count_the_scan agg 0%nat _ _ eq_refl eq_refl))).
  eexists _, _, _. reflexivity.
Defined.

(** ** The cache switch and jobs served from the cache *)

Lemma cache_step_disabled agg e :
  Config.enableCache (config agg) = false -> cache (step agg e) = cache agg.
Proof.
  intros Hoff. destruct e as [a|scanId query options clock|ref a o clock|ref]; simpl.
  - done.
  - unfold startScan, cacheHit. rewrite Hoff.
    rewrite cache_resume. simpl. rewrite Hoff. by rewrite andb_false_r.
  - unfold settle. destruct (heap agg !! ref); [|done].
    case_bool_decide; [|done]. rewrite cache_resume, Hoff. by rewrite andb_false_r.
  - unfold deadline. destruct (heap agg !! ref); [|done].
    by destruct (raceSettled _).
Qed.

(** X4.  With [enableCache] off (the configuration of the integration
    tests) the cache of every reachable state is empty, no job is marked
    [fromCache], and a new scan with at least one selected adapter is
    running with every selected adapter called. *)
Theorem disabled_cache_stays_empty agg :
  reachable agg -> Config.enableCache (config agg) = false ->
  cache agg = ∅
  ∧ (∀ ref j, heap agg !! ref = Some j -> Scan.fromCache (scan j) = false)
  ∧ ∀ scanId query options clock,
      let j := started agg scanId query options clock in
      Scan.fromCache (scan j) = false
      ∧ (selectedAdapters agg options ≠ [] ->
         Scan.status (scan j) = running
         ∧ pending j = map Adapter.name (selectedAdapters agg options)).
Proof.
  intros Hr. revert agg Hr.
  assert (∀ agg scanId query options clock,
            Config.enableCache (config agg) = false ->
            let j := started agg scanId query options clock in
            Scan.fromCache (scan j) = false
            ∧ (selectedAdapters agg options ≠ [] ->
               Scan.status (scan j) = running
               ∧ pending j = map Adapter.name (selectedAdapters agg options)))
    as Hnew.
  { intros agg scanId query options clock Hoff. unfold started, cacheHit.
    rewrite Hoff. unfold resumed, raceWon. cbn [pending raceSettled].
    destruct (selectedAdapters agg options) as [|a l]; simpl; [done|].
    split; [done|]. by intros _. }
  assert (∀ agg, reachable agg -> Config.enableCache (config agg) = false ->
            cache agg = ∅
            ∧ Forall (fun j => Scan.fromCache (scan j) = false) (heap agg)) as Hinv.
  { apply (reachable_induction
             (fun agg => Config.enableCache (config agg) = false ->
                cache agg = ∅
                ∧ Forall (fun j => Scan.fromCache (scan j) = false) (heap agg))).
    { intros config _. split; [done|constructor]. }
    intros agg e Hr IH Hoff. rewrite config_step in Hoff.
    destruct (IH Hoff) as [Hempty Hjobs]. split.
    { by rewrite cache_step_disabled. }
    apply Forall_lookup. intros ref j' Hj'.
    destruct (heap agg !! ref) as [j|] eqn:Hj.
    - destruct (step_job agg e ref j Hj) as (j'' & Hj'' & Hstep).
      rewrite Hj' in Hj''. injection Hj'' as <-.
      destruct (job_step_identity _ _ _ Hstep) as (_ & _ & _ & _ & ->).
      by apply (Forall_lookup_1 _ _ _ _ Hjobs Hj).
    - destruct (step_new_job agg e ref j' Hj Hj')
        as (scanId & query & options & clock & _ & _ & ->).
      by apply Hnew. }
  intros agg Hr Hoff. destruct (Hinv agg Hr Hoff) as [Hempty Hjobs].
  split; [exact Hempty|]. split.
  { intros ref j Hj. by apply (Forall_lookup_1 _ _ _ _ Hjobs Hj). }
  intros scanId query options clock. by apply Hnew.
Qed.

Lemma disabled_cache_stays_empty_witness :
  let agg :=
    run (newAggregator cacheDisabled [Adapter.mk "stub" 1])
        [StartScan "scan-1" "testuser" (Options.mk None) (tick 0);
         Settle 0 "stub" (Fulfilled [plainFinding "1" (8 # 10)]) (tick 10)] in
  cache agg = ∅
  ∧ pending (started agg "scan-2" "testuser" (Options.mk None) (tick 20)) = ["stub"].
Proof.
  intros agg.
  assert (reachable agg) as Hr by (eexists _, _, _; reflexivity).
  destruct (disabled_cache_stays_empty agg Hr eq_refl) as (Hempty & _ & Hnew).
  split; [exact Hempty|].
  destruct (Hnew "scan-2" "testuser" (Options.mk None) (tick 20)) as [_ Hcalls].
  by destruct Hcalls as [_ ->].
Defined.

Lemma fromCache_at_rest agg :
  reachable agg ->
  Forall (fun j => Scan.fromCache (scan j) = true ->
                   Scan.status (scan j) = completed ∧ pending j = []
                   ∧ Scan.errors (scan j) = []) (heap agg).
Proof.
  apply jobs_invariant.
  - intros agg0 scanId query options clock _. unfold started.
    destruct (cacheHit _ _ _); [done|].
    unfold resumed. by destruct (raceWon _).
  - intros config j j' Hok IH Hstep.
    destruct (job_step_identity _ _ _ Hstep) as (_ & _ & _ & _ & Hfrom).
    rewrite Hfrom. intros Hhit. destruct (IH Hhit) as (Hdone & Hrest).
    by rewrite (job_step_completed _ _ _ Hok Hdone Hstep).
Qed.

Lemma ranToCompletion_step agg e cacheKey results before :
  reachable agg ->
  ranToCompletion agg cacheKey results before ->
  ranToCompletion (step agg e) cacheKey results before.
Proof.
  intros Hr (ref & j & Hlt & Hj & Hdone & Hrest).
  exists ref, j. split; [exact Hlt|]. split; [|done].
  pose proof (reachable_ok agg Hr) as [Hheap _ _].
  pose proof (Forall_lookup_1 _ _ _ _ Hheap Hj) as Hok.
  destruct (step_job agg e ref j Hj) as (j1 & Hj1 & Hstep).
  by rewrite <-(job_step_completed _ _ _ Hok Hdone Hstep).
Qed.

Lemma ranToCompletion_later agg cacheKey results before before' :
  (before <= before')%nat ->
  ranToCompletion agg cacheKey results before ->
  ranToCompletion agg cacheKey results before'.
Proof.
  intros Hle (ref & j & Hlt & Hrest). exists ref, j. split; [lia|done].
Qed.

Lemma length_heap_resume agg ref j clock :
  length (heap (resume agg ref j clock)) = length (heap agg).
Proof. by rewrite heap_resume, length_insert. Qed.

Lemma cache_resume_origin agg ref j clock cacheKey cached :
  (ref < length (heap agg))%nat -> Scan.fromCache (scan j) = false ->
  cache (resume agg ref j clock) !! cacheKey = Some cached ->
  cache agg !! cacheKey = Some cached
  ∨ ranToCompletion (resume agg ref j clock) cacheKey (CacheEntry.results cached)
                    (length (heap agg)).
Proof.
  intros Hlt Hmiss. rewrite cache_resume.
  destruct (raceWon j) eqn:Hwon; simpl; [|by left].
  destruct (Config.enableCache (config agg)); [|by left].
  destruct (decide (cacheKey = getCacheKey (Scan.query (scan j))
                                           (Scan.options (scan j)))) as [->|Hne].
  - rewrite lookup_insert_eq. intros [= <-]. right.
    exists ref, (resumed (config agg) j clock). split; [exact Hlt|].
    rewrite heap_resume, list_lookup_insert_eq by exact Hlt.
    unfold resumed. rewrite Hwon. done.
  - rewrite lookup_insert_ne by done. by left.
Qed.

Lemma cache_step_origin agg e cacheKey cached :
  reachable agg ->
  cache (step agg e) !! cacheKey = Some cached ->
  cache agg !! cacheKey = Some cached
  ∨ ranToCompletion (step agg e) cacheKey (CacheEntry.results cached)
                    (length (heap (step agg e))).
Proof.
  intros Hr. destruct e as [a|scanId query options clock|ref a o clock|ref]; simpl.
  - by left.
  - unfold startScan. destruct (cacheHit _ _ _); [by left|].
    intros Hc. apply cache_resume_origin in Hc.
    + destruct Hc as [Hc|Hc]; [by left|right].
      rewrite length_heap_resume. exact Hc.
    + simpl. rewrite length_app. simpl. lia.
    + done.
  - unfold settle. destruct (heap agg !! ref) as [j|] eqn:Hj; [|by left].
    case_bool_decide as Ha; [|by left].
    intros Hc. apply cache_resume_origin in Hc.
    + destruct Hc as [Hc|Hc]; [by left|right].
      rewrite length_heap_resume. exact Hc.
    + by apply lookup_lt_Some in Hj.
    + cbn [called scan].
      pose proof (Forall_lookup_1 _ _ _ _ (fromCache_at_rest agg Hr) Hj) as Hrest.
      simpl in Hrest. destruct (Scan.fromCache (scan j)) eqn:Hfrom.
      * destruct (Hrest eq_refl) as (_ & Hnil & _). rewrite Hnil in Ha.
        by apply elem_of_nil in Ha.
      * by destruct o.
  - unfold deadline. destruct (heap agg !! ref); [|by left].
    destruct (raceSettled _); by left.
Qed.

Lemma length_heap_step agg e : (length (heap agg) <= length (heap (step agg e)))%nat.
Proof.
  destruct e as [a|scanId query options clock|ref a o clock|ref]; simpl.
  - done.
  - rewrite heap_startScan, length_app. lia.
  - unfold settle. destruct (heap agg !! ref); [|done].
    case_bool_decide; [|done]. by rewrite length_heap_resume.
  - unfold deadline. destruct (heap agg !! ref); [|done].
    destruct (raceSettled _); [done|]. by rewrite heap_putJob, length_insert.
Qed.

Lemma cache_provenance agg :
  reachable agg ->
  (∀ cacheKey cached,
      cache agg !! cacheKey = Some cached ->
      ranToCompletion agg cacheKey (CacheEntry.results cached) (length (heap agg)))
  ∧ (∀ ref j,
        heap agg !! ref = Some j -> Scan.fromCache (scan j) = true ->
        ranToCompletion agg
          (getCacheKey (Scan.query (scan j)) (Scan.options (scan j)))
          (Scan.results (scan j)) ref).
Proof.
  revert agg. apply reachable_induction.
  { intros config. split; [intros k c Hc|intros ref j Hj]; done. }
  intros agg e Hr [IHcache IHheap]. split.
  - intros k c Hc. destruct (cache_step_origin agg e k c Hr Hc) as [Hold|Hnew].
    + apply ranToCompletion_later with (length (heap agg)).
      { apply length_heap_step. }
      apply ranToCompletion_step; [exact Hr|]. by apply IHcache.
    + exact Hnew.
  - intros ref j' Hj' Hfrom. destruct (heap agg !! ref) as [j|] eqn:Hj.
    + destruct (step_job agg e ref j Hj) as (j'' & Hj'' & Hstep).
      rewrite Hj' in Hj''. injection Hj'' as <-.
      destruct (job_step_identity _ _ _ Hstep) as (_ & _ & _ & _ & Hsame).
      rewrite Hsame in Hfrom.
      pose proof (Forall_lookup_1 _ _ _ _ (fromCache_at_rest agg Hr) Hj Hfrom)
        as (Hdone & _).
      pose proof (reachable_ok agg Hr) as [Hheap _ _].
      pose proof (Forall_lookup_1 _ _ _ _ Hheap Hj) as Hok.
      rewrite (job_step_completed _ _ _ Hok Hdone Hstep).
      apply ranToCompletion_step; [exact Hr|]. by apply IHheap.
    + destruct (step_new_job agg e ref j' Hj Hj')
        as (scanId & query & options & clock & _ & -> & ->).
      apply ranToCompletion_step; [exact Hr|].
      unfold started in *.
      destruct (cacheHit agg (getCacheKey query options) (t_check clock))
        as [cached|] eqn:Hhit.
      * apply cacheHit_Some in Hhit as (_ & Hc & _). simpl.
        by apply IHcache.
      * unfold resumed in Hfrom. by destruct (raceWon _).
Qed.

(** X5.  A job served from the cache is completed, with nothing pending and
    no errors, and its results are the final list of an earlier job with the
    same cache key that ran its own adapters to completion. *)
Theorem cached_results_come_from_a_scan agg ref j :
  reachable agg -> heap agg !! ref = Some j ->
  Scan.fromCache (scan j) = true ->
  Scan.status (scan j) = completed ∧ pending j = [] ∧ Scan.errors (scan j) = []
  ∧ ∃ ref' j',
      (ref' < ref)%nat ∧ heap agg !! ref' = Some j'
      ∧ Scan.status (scan j') = completed
      ∧ Scan.fromCache (scan j') = false
      ∧ getCacheKey (Scan.query (scan j')) (Scan.options (scan j'))
        = getCacheKey (Scan.query (scan j)) (Scan.options (scan j))
      ∧ Scan.results (scan j') = Scan.results (scan j).
Proof.
  intros Hr Hj Hfrom.
  pose proof (Forall_lookup_1 _ _ _ _ (fromCache_at_rest agg Hr) Hj Hfrom)
    as (Hdone & Hnil & Herr).
  repeat (split; [done|]).
  destruct (cache_provenance agg Hr) as [_ Hserved].
  exact (Hserved ref j Hj Hfrom).
Qed.

Lemma cached_results_come_from_a_scan_witness :
  let agg :=
    run (newAggregator AGGREGATOR_CONFIG [Adapter.mk "stub" 1])
        [StartScan "scan-1" "testuser" (Options.mk None) (tick 0);
         Settle 0 "stub" (Fulfilled [plainFinding "1" (8 # 10)]) (tick 10);
         StartScan "scan-2" "testuser" (Options.mk None) (tick 20)] in
  ∃ j, heap agg !! 1%nat = Some j
       ∧ ∃ ref' j',
           (ref' < 1)%nat ∧ heap agg !! ref' = Some j'
           ∧ Scan.status (scan j') = completed
           ∧ Scan.fromCache (scan j') = false
           ∧ getCacheKey (Scan.query (scan j')) (Scan.options (scan j'))
             = getCacheKey (Scan.query (scan j)) (Scan.options (scan j))
           ∧ Scan.results (scan j') = Scan.results (scan j).
Proof.
  intros agg. eexists. split; [reflexivity|].
  refine (proj2 (proj2 (proj2
            (cached_results_come_from_a_scan agg 1%nat _ _ eq_refl eq_refl)))).
  eexists _, _, _. reflexivity.
Defined.

(** ** The table of scans *)

Lemma scans_resume agg ref j clock : scans (resume agg ref j clock) = scans agg.
Proof.
  unfold resume, writeCache. destruct (raceWon j); [|done].
  simpl. by destruct (Config.enableCache _).
Qed.

Lemma scans_step agg e :
  scans (step agg e)
  = match e with
    | StartScan scanId _ _ _ => <[scanId := length (heap agg)]> (scans agg)
    | _ => scans agg
    end.
Proof.
  destruct e as [a|scanId query options clock|ref a o clock|ref]; simpl.
  - done.
  - unfold startScan. destruct (cacheHit _ _ _); [done|]. by rewrite scans_resume.
  - unfold settle. destruct (heap agg !! ref); [|done].
    case_bool_decide; [|done]. by rewrite scans_resume.
  - unfold deadline. destruct (heap agg !! ref); [|done].
    by destruct (raceSettled _).
Qed.

Lemma scans_point_to_jobs agg :
  reachable agg ->
  ∀ scanId ref, scans agg !! scanId = Some ref ->
    ∃ j, heap agg !! ref = Some j ∧ Scan.id (scan j) = scanId.
Proof.
  revert agg. apply (reachable_induction (fun agg =>
    ∀ scanId ref, scans agg !! scanId = Some ref ->
      ∃ j, heap agg !! ref = Some j ∧ Scan.id (scan j) = scanId)).
  { intros config scanId ref Href. done. }
  intros agg e _ IH scanId ref Href. rewrite scans_step in Href.
  assert (scans agg !! scanId = Some ref ->
          ∃ j, heap (step agg e) !! ref = Some j ∧ Scan.id (scan j) = scanId)
    as Hold.
  { intros Hin. destruct (IH scanId ref Hin) as (j & Hj & Hid).
    destruct (step_job agg e ref j Hj) as (j' & Hj' & Hstep).
    exists j'. split; [exact Hj'|].
    destruct (job_step_identity _ _ _ Hstep) as (-> & _). exact Hid. }
  destruct e as [a|scanId' query options clock|ref' a o clock|ref'];
    try by apply Hold.
  destruct (decide (scanId' = scanId)) as [->|Hne].
  - rewrite lookup_insert_eq in Href. injection Href as <-.
    exists (started agg scanId query options clock). split.
    + simpl. rewrite heap_startScan.
      rewrite lookup_app_r by done. by rewrite Nat.sub_diag.
    + apply started_identity.
  - rewrite lookup_insert_ne in Href by done. by apply Hold.
Qed.

Lemma scans_known agg events scanId :
  is_Some (scans (run agg events) !! scanId)
  <-> is_Some (scans agg !! scanId) ∨ scanId ∈ startedIds events.
Proof.
  revert agg. induction events as [|e events IH]; intros agg; simpl.
  { split; [by left|]. intros [H|H]; [done|]. by apply elem_of_nil in H. }
  rewrite IH, scans_step. unfold startedIds. simpl.
  destruct e as [a|scanId' query options clock|ref a o clock|ref]; try done.
  rewrite elem_of_cons. destruct (decide (scanId' = scanId)) as [->|Hne].
  - rewrite lookup_insert_eq. split; [intros _; right; by left|].
    intros _. left. by eexists.
  - rewrite lookup_insert_ne by done. split.
    + intros [H|H]; [by left|right; by right].
    + intros [H|[H|H]]; [by left|congruence|by right].
Qed.

(** X6.  [getScan] knows exactly the identifiers that [startScan] has
    handed out, and the scan it returns carries the identifier asked for. *)
Theorem getScan_knows_started_scans config defaults events scanId :
  let agg := run (newAggregator config defaults) events in
  (is_Some (getScan agg scanId) <-> scanId ∈ startedIds events)
  ∧ ∀ s, getScan agg scanId = Some s -> Scan.id s = scanId.
Proof.
  intros agg.
  assert (reachable agg) as Hr by (by exists config, defaults, events).
  pose proof (scans_point_to_jobs agg Hr scanId) as Hjobs.
  assert (scans (newAggregator config defaults) !! scanId = None) as Hnone.
  { rewrite newAggregator_run.
    destruct (scans (run _ _) !! scanId) eqn:Hin; [|done].
    assert (is_Some (scans (run (mkAggregator config [] [] ∅ ∅)
                                (map Register defaults)) !! scanId)) as Hsome
      by (by eexists).
    apply scans_known in Hsome as [[ref Href]|Hin']; [done|].
    exfalso. clear -Hin'. unfold startedIds in Hin'.
    induction defaults as [|a l IH]; simpl in Hin'.
    - by apply elem_of_nil in Hin'.
    - by apply IH. }
  pose proof (scans_known (newAggregator config defaults) events scanId) as Hknown.
  fold agg in Hknown. rewrite Hnone in Hknown.
  unfold getScan. split.
  - split.
    + intros [s Hs]. destruct (scans agg !! scanId) as [ref|] eqn:Href; [|done].
      destruct (proj1 Hknown) as [H|H]; [by eexists|by destruct H|exact H].
    + intros Hin. destruct (proj2 Hknown (or_intror Hin)) as [ref Href].
      destruct (Hjobs ref Href) as (j & Hj & _).
      rewrite Href. simpl. rewrite Hj. by eexists.
  - intros s Hs. destruct (scans agg !! scanId) as [ref|] eqn:Href; [|done].
    destruct (Hjobs ref eq_refl) as (j & Hj & Hid).
    simpl in Hs. rewrite Hj in Hs. by injection Hs as <-.
Qed.

(** ** The registry of adapters *)

Lemma setAdapter_elem (a : Adapter.t) (l : list Adapter.t) : a ∈ setAdapter a l.
Proof.
  induction l as [|b l IH]; simpl; [by left|].
  destruct (String.eqb _ _); [by left|by right].
Qed.

Lemma setAdapter_others (a b : Adapter.t) (l : list Adapter.t) :
  Adapter.name b ≠ Adapter.name a -> b ∈ setAdapter a l <-> b ∈ l.
Proof.
  intros Hne. induction l as [|c l IH]; simpl.
  { rewrite list_elem_of_singleton. split; [by intros ->|].
    intros H. by apply elem_of_nil in H. }
  destruct (String.eqb _ _) eqn:Heq.
  - apply String.eqb_eq in Heq. rewrite !elem_of_cons.
    split; (intros [->|H]; [done|by right]).
  - rewrite !elem_of_cons, IH. done.
Qed.

Lemma setAdapter_same_name (a b : Adapter.t) (l : list Adapter.t) :
  NoDup (map Adapter.name l) ->
  b ∈ setAdapter a l -> Adapter.name b = Adapter.name a -> b = a.
Proof.
  intros Hnd Hin Hname. induction l as [|c l IH]; simpl in *.
  { by apply list_elem_of_singleton in Hin. }
  apply NoDup_cons in Hnd as [Hc Hnd].
  destruct (String.eqb _ _) eqn:Heq.
  - apply String.eqb_eq in Heq. apply elem_of_cons in Hin as [->|Hin]; [done|].
    exfalso. apply Hc. rewrite Heq, <-Hname. by apply list_elem_of_fmap_2.
  - apply String.eqb_neq in Heq. apply elem_of_cons in Hin as [->|Hin]; [done|].
    by apply IH.
Qed.

Lemma setAdapter_idempotent (a : Adapter.t) (l : list Adapter.t) :
  setAdapter a (setAdapter a l) = setAdapter a l.
Proof.
  induction l as [|c l IH]; simpl.
  { by rewrite String.eqb_refl. }
  destruct (String.eqb _ _) eqn:Heq; simpl.
  - by rewrite String.eqb_refl.
  - by rewrite Heq, IH.
Qed.

(** X7.  [registerAdapter] files an adapter under its name: afterwards the
    adapter is registered and is the only one of its name, adapters of other
    names are untouched, a name registered before keeps its position (a new
    one goes last), and registering the same adapter again changes
    nothing. *)
Theorem registerAdapter_replaces_by_name agg a :
  reachable agg ->
  let agg' := registerAdapter agg a in
  a ∈ adapters agg'
  ∧ (∀ b, b ∈ adapters agg' -> Adapter.name b = Adapter.name a -> b = a)
  ∧ (∀ b, Adapter.name b ≠ Adapter.name a ->
          b ∈ adapters agg' <-> b ∈ adapters agg)
  ∧ map Adapter.name (adapters agg')
    = (if decide (Adapter.name a ∈ map Adapter.name (adapters agg))
       then map Adapter.name (adapters agg)
       else map Adapter.name (adapters agg) ++ [Adapter.name a])
  ∧ registerAdapter agg' a = agg'.
Proof.
  intros Hr. pose proof (reachable_ok agg Hr) as [_ _ Hnd]. simpl.
  split; [apply setAdapter_elem|].
  split; [intros b; by apply setAdapter_same_name|].
  split; [intros b; by apply setAdapter_others|].
  split; [apply setAdapter_names|].
  unfold registerAdapter. simpl. by rewrite setAdapter_idempotent.
Qed.

Lemma registerAdapter_replaces_by_name_witness :
  let agg := newAggregator AGGREGATOR_CONFIG
               [Adapter.mk "github" 1; Adapter.mk "reddit" 2] in
  map Adapter.name (adapters (registerAdapter agg (Adapter.mk "github" 7)))
  = ["github"; "reddit"]
  ∧ Adapter.mk "github" 7 ∈ adapters (registerAdapter agg (Adapter.mk "github" 7)).
Proof.
  intros agg.
  assert (reachable agg) as Hr.
  { exists AGGREGATOR_CONFIG, [Adapter.mk "github" 1; Adapter.mk "reddit" 2], [].
    reflexivity. }
  destruct (registerAdapter_replaces_by_name agg (Adapter.mk "github" 7) Hr)
    as (Hin & _ & _ & Hnames & _).
  split; [exact Hnames|exact Hin].
Defined.

(** ** The adapters of a scan *)

Lemma byPriority_le (a b : Adapter.t) :
  Qle_bool (byPriority a b) 0 = true <-> Adapter.priority a <= Adapter.priority b.
Proof.
  unfold byPriority. rewrite Qle_bool_iff.
  change 0%Q with (inject_Z 0). rewrite <-Zle_Qle. lia.
Qed.

Lemma sort_insert_byPriority (x : Adapter.t) (l : list Adapter.t) :
  StronglySorted (fun a b => Adapter.priority a <= Adapter.priority b) l ->
  StronglySorted (fun a b => Adapter.priority a <= Adapter.priority b)
                 (sort_insert byPriority x l).
Proof.
  intros Hl. induction Hl as [|y l Hl IH Hy]; simpl.
  - repeat constructor.
  - destruct (Qle_bool (byPriority x y) 0) eqn:Hle.
    + apply byPriority_le in Hle.
      constructor; [by constructor|].
      constructor; [done|].
      eapply Forall_impl; [exact Hy|]. simpl. intros z Hz. lia.
    + assert (¬ Adapter.priority x <= Adapter.priority y) as Hlt.
      { intros H. apply byPriority_le in H. congruence. }
      constructor; [exact IH|].
      rewrite sort_insert_perm. constructor; [lia|done].
Qed.

Lemma selectedAdapters_requested agg options :
  selectedAdapters agg options = sort byPriority (requestedAdapters agg options).
Proof. done. Qed.

(** X8.  The adapters of a scan are the registered adapters that
    [options.adapters] names (all of them without it; unknown names select
    nothing), in ascending priority, adapters of equal priority in
    registration order. *)
Theorem selectedAdapters_by_priority agg options :
  let selected := selectedAdapters agg options in
  (∀ a, a ∈ selected <->
        a ∈ adapters agg
        ∧ ∀ names, Options.adapters options = Some names -> Adapter.name a ∈ names)
  ∧ StronglySorted (fun a b => Adapter.priority a <= Adapter.priority b) selected
  ∧ ∀ p, filter (fun a => Adapter.priority a = p) selected
         = filter (fun a => Adapter.priority a = p) (requestedAdapters agg options).
Proof.
  simpl. rewrite selectedAdapters_requested. split; [|split].
  - intros a. rewrite sort_perm. unfold requestedAdapters.
    destruct (Options.adapters options) as [names|].
    + rewrite list_elem_of_filter. split.
      * intros [Hn Ha]. split; [exact Ha|]. by intros ? [= <-].
      * intros [Ha Hn]. split; [by apply Hn|exact Ha].
    + split; [by intros Ha|by intros [Ha _]].
  - induction (requestedAdapters agg options) as [|x l IH]; simpl; [constructor|].
    by apply sort_insert_byPriority.
  - intros p. apply sort_filter. intros x y Hx Hy.
    apply Qle_bool_iff, byPriority_le. lia.
Qed.

(** ** A job among the events of other scans *)

(** X9.  Events that are not addressed to a job (registrations, other scans
    starting, the callbacks and deadlines of other scans) leave it exactly
    as it is. *)
Theorem foreign_events_leave_job agg ref j events :
  heap agg !! ref = Some j ->
  Forall (fun e => ¬ concerns ref e) events ->
  heap (run agg events) !! ref = Some j.
Proof.
  intros Hj Hforeign. rewrite (run_job_event agg events ref j Hj).
  f_equal. induction Hforeign as [|e events He _ IH]; simpl; [done|].
  by rewrite job_event_other.
Qed.

Lemma foreign_events_leave_job_witness :
  let agg :=
    run (newAggregator AGGREGATOR_CONFIG [Adapter.mk "a" 2; Adapter.mk "b" 1])
        [StartScan "scan-1" "testuser" (Options.mk None) (tick 0)] in
  let events :=
    [StartScan "scan-2" "other" (Options.mk (Some ["b"])) (tick 11);
     Register (Adapter.mk "c" 3);
     Settle 1 "b" (Fulfilled [plainFinding "1" (8 # 10)]) (tick 12);
     Deadline 1] in
  ∃ j, heap agg !! 0%nat = Some j ∧ heap (run agg events) !! 0%nat = Some j.
Proof.
  intros agg events. eexists. split; [reflexivity|].
  apply (foreign_events_leave_job agg 0%nat); [reflexivity|].
  repeat constructor; simpl; lia.
Defined.

(** ** The adapters that failed *)

Lemma failedAdapters_adapterSettled s a o :
  failedAdapters (adapterSettled s a o)
  = match o with
    | Fulfilled _ => failedAdapters s
    | Rejected _ => failedAdapters s ++ [a]
    end.
Proof.
  unfold failedAdapters. destruct o as [found|message]; simpl; [done|].
  by rewrite omap_app.
Qed.

Lemma pending_split (p : list string) (a : string) :
  NoDup p -> a ∈ p -> p ≡ₚ a :: filter (fun b => b ≠ a) p.
Proof.
  intros Hnd Ha. apply list_elem_of_split in Ha as (p1 & p2 & ->).
  apply NoDup_app in Hnd as (_ & Hdisj & Hnd2).
  apply NoDup_cons in Hnd2 as [Ha2 _].
  rewrite filter_app, filter_cons_False by (intros H; by apply H).
  rewrite !filter_all.
  - by rewrite Permutation_middle.
  - apply Forall_forall. intros b Hb ->. done.
  - apply Forall_forall. intros b Hb ->. apply (Hdisj a Hb). by left.
Qed.

Lemma failedAdapters_invariant agg :
  reachable agg ->
  Forall (fun j =>
            NoDup (failedAdapters (scan j) ++ pending j)
            ∧ Z.of_nat (length (failedAdapters (scan j)))
              <= Stats.completedSources (Scan.stats (scan j)))
         (heap agg).
Proof.
  apply jobs_invariant.
  - intros agg0 scanId query options clock [_ _ Hnames]. unfold started.
    destruct (cacheHit _ _ _); [split; [constructor|done]|].
    unfold resumed. destruct (raceWon _) eqn:Hwon.
    + split; [constructor|done].
    + split; [|done]. simpl. by apply selectedAdapters_NoDup.
  - intros config j j' Hok [IHnd IHlen] Hstep.
    destruct Hstep as [j|j a o clock Ha|j Hopen]; [done| |].
    + assert (NoDup (failedAdapters (scan (called j a o)) ++ pending (called j a o))
              ∧ Z.of_nat (length (failedAdapters (scan (called j a o))))
                <= Stats.completedSources (Scan.stats (scan (called j a o))))
        as [Hnd Hlen].
      { cbn [called scan pending]. rewrite failedAdapters_adapterSettled.
        pose proof (pending_split (pending j) a (ok_pending j Hok) Ha) as Hp.
        destruct o as [found|message].
        - split; [|simpl; lia]. rewrite Hp in IHnd.
          apply NoDup_app in IHnd as (Hf & Hdisj & Hnd).
          apply NoDup_cons in Hnd as [_ Hnd].
          apply NoDup_app. repeat split; [done| |done].
          intros b Hb Hb'. apply (Hdisj b Hb). by right.
        - split; [|simpl; rewrite length_app; simpl; lia].
          rewrite Hp in IHnd. by rewrite <-app_assoc. }
      unfold resumed. destruct (raceWon _) eqn:Hwon; [|done].
      apply raceWon_spec in Hwon as [Hnil _]. rewrite Hnil in Hnd.
      split; [exact Hnd|exact Hlen].
    + simpl. unfold failedAdapters in *. simpl. rewrite omap_app. simpl.
      rewrite app_nil_r. done.
Qed.

(** X10.  The errors of a job name each adapter at most once and never an
    adapter whose call is still pending; their number does not exceed
    [completedSources], which does not exceed [totalSources]. *)
Theorem adapter_fails_at_most_once agg ref j :
  reachable agg -> heap agg !! ref = Some j ->
  NoDup (failedAdapters (scan j))
  ∧ (∀ a, a ∈ failedAdapters (scan j) -> a ∉ pending j)
  ∧ Z.of_nat (length (failedAdapters (scan j)))
    <= Stats.completedSources (Scan.stats (scan j))
    <= Stats.totalSources (Scan.stats (scan j)).
Proof.
  intros Hr Hj.
  pose proof (Forall_lookup_1 _ _ _ _ (failedAdapters_invariant agg Hr) Hj)
    as [Hnd Hlen]. simpl in Hnd, Hlen.
  pose proof (reachable_ok agg Hr) as [Hheap _ _].
  pose proof (Forall_lookup_1 _ _ _ _ Hheap Hj) as [_ _ _ _ [Hc Hle] _].
  apply NoDup_app in Hnd as (Hf & Hdisj & _).
  split; [exact Hf|]. split; [exact Hdisj|]. lia.
Qed.

Lemma adapter_fails_at_most_once_witness :
  let agg :=
    run (newAggregator AGGREGATOR_CONFIG [Adapter.mk "a" 2; Adapter.mk "b" 1])
        [StartScan "scan-1" "testuser" (Options.mk None) (tick 0);
         Settle 0 "a" (Rejected "Network error") (tick 10)] in
  ∃ j, heap agg !! 0%nat = Some j
       ∧ failedAdapters (scan j) = ["a"]
       ∧ NoDup (failedAdapters (scan j)).
Proof.
  intros agg. eexists. split; [reflexivity|]. split; [reflexivity|].
  refine (proj1 (adapter_fails_at_most_once agg 0%nat _ _ eq_refl)).
  eexists _, _, _. reflexivity.
Defined.

(** ** Survivors of the deduplication *)

Lemma num_gt_trans (a b c : option Q) :
  num_gt a b = true -> num_gt b c = true -> num_gt a c = true.
Proof.
  destruct a as [x|], b as [y|], c as [z|]; simpl; try done.
  rewrite !negb_true_iff. intros Hxy Hyz.
  destruct (Qle_bool x z) eqn:Hxz; [|done].
  apply Qle_bool_iff in Hxz.
  assert (¬ (x <= y)%Q) by (rewrite <-Qle_bool_iff; congruence).
  assert (¬ (y <= z)%Q) by (rewrite <-Qle_bool_iff; congruence). lra.
Qed.

Section Survivors.
Variable config : Config.t.

Lemma dedupe_from_above_seen seen (l : list Finding.t) b s :
  b ∈ dedupe_from config seen l ->
  dedupeKey config b ≠ EmptyString ->
  seen !! dedupeKey config b = Some s ->
  num_gt (Finding.confidence b) (Finding.confidence s) = true.
Proof.
  revert seen s. induction l as [|r l IH]; intros seen s Hb Hkey Hs; simpl in Hb.
  { by apply elem_of_nil in Hb. }
  destruct (String.eqb (dedupeKey config r) EmptyString) eqn:Hr.
  { apply String.eqb_eq in Hr. apply elem_of_cons in Hb as [->|Hb]; [done|].
    by apply (IH seen). }
  assert (b ∈ dedupe_from config (<[dedupeKey config r := r]> seen) l ->
          (∀ ex, seen !! dedupeKey config r = Some ex ->
                 num_gt (Finding.confidence r) (Finding.confidence ex) = true) ->
          num_gt (Finding.confidence b) (Finding.confidence s) = true)
    as Hrest.
  { intros Hin Hex.
    destruct (decide (dedupeKey config b = dedupeKey config r)) as [Heq|Hne].
    - apply num_gt_trans with (Finding.confidence r).
      + apply (IH (<[dedupeKey config r := r]> seen)); [done..|].
        by rewrite Heq, lookup_insert_eq.
      + rewrite Heq in Hs. by apply Hex.
    - apply (IH (<[dedupeKey config r := r]> seen)); [done..|].
      by rewrite lookup_insert_ne. }
  destruct (seen !! dedupeKey config r) as [ex|] eqn:Hseen.
  - destruct (num_gt (Finding.confidence r) (Finding.confidence ex)) eqn:Hgt.
    + apply elem_of_cons in Hb as [->|Hb].
      * rewrite Hseen in Hs. by injection Hs as <-.
      * apply Hrest; [done|]. by intros ? [= <-].
    + by apply (IH seen).
  - apply elem_of_cons in Hb as [->|Hb]; [congruence|].
    apply Hrest; [done|]. intros ? [=].
Qed.

Lemma dedupe_from_increasing seen (l : list Finding.t) :
  StronglySorted (laterIsHigher config) (dedupe_from config seen l).
Proof.
  revert seen. induction l as [|r l IH]; intros seen; simpl; [constructor|].
  destruct (String.eqb (dedupeKey config r) EmptyString) eqn:Hr.
  { apply String.eqb_eq in Hr. constructor; [apply IH|].
    apply Forall_forall. intros b _ _ Hkey. done. }
  assert (StronglySorted (laterIsHigher config)
            (r :: dedupe_from config (<[dedupeKey config r := r]> seen) l)) as Hkept.
  { constructor; [apply IH|]. apply Forall_forall. intros b Hb Heq Hkey.
    apply (dedupe_from_above_seen _ _ _ _ Hb); [by rewrite <-Heq|].
    by rewrite <-Heq, lookup_insert_eq. }
  destruct (seen !! dedupeKey config r) as [ex|]; [|exact Hkept].
  destruct (num_gt _ _); [exact Hkept|apply IH].
Qed.

Lemma dedupe_from_distinct seen (l : list Finding.t) :
  NoDup (map (dedupeKey config) l) ->
  (∀ r, r ∈ l -> seen !! dedupeKey config r = None) ->
  dedupe_from config seen l = l.
Proof.
  revert seen. induction l as [|r l IH]; intros seen Hnd Hfresh; simpl; [done|].
  apply NoDup_cons in Hnd as [Hr Hnd].
  destruct (String.eqb _ _).
  { f_equal. apply IH; [done|]. intros e He. apply Hfresh. by right. }
  rewrite (Hfresh r) by (by left). f_equal. apply IH; [done|].
  intros e He. rewrite lookup_insert_ne.
  - apply Hfresh. by right.
  - intros Heq. apply Hr. rewrite Heq. by apply list_elem_of_fmap_2.
Qed.
End Survivors.

(** X11.  The output of [deduplicateResults] is a sublist of its input that
    starts with the same finding; of two survivors that share a usable key
    the later one has the strictly higher confidence; a list whose keys are
    pairwise distinct is returned unchanged. *)
Theorem deduplicateResults_survivors (config : Config.t) (results : list Finding.t) :
  let out := deduplicateResults config results in
  sublist out results
  ∧ head out = head results
  ∧ (∀ i j a b,
        (i < j)%nat -> out !! i = Some a -> out !! j = Some b ->
        dedupeKey config a = dedupeKey config b ->
        dedupeKey config a ≠ EmptyString ->
        num_gt (Finding.confidence b) (Finding.confidence a) = true)
  ∧ (NoDup (map (dedupeKey config) results) -> out = results).
Proof.
  simpl. split; [apply dedupe_from_sublist|]. split; [|split].
  - unfold deduplicateResults. destruct results as [|r l]; simpl; [done|].
    destruct (String.eqb _ _); [done|]. by rewrite lookup_empty.
  - intros i j a b Hlt Ha Hb.
    pose proof (dedupe_from_increasing config ∅ results) as Hsorted.
    fold (deduplicateResults config results) in Hsorted.
    revert i j Hlt Ha Hb.
    induction Hsorted as [|x l Hl IH Hx]; intros i j Hlt Ha Hb; [done|].
    destruct j as [|j]; [lia|]. destruct i as [|i]; simpl in *.
    + injection Ha as ->. apply (Forall_lookup_1 _ _ _ _ Hx Hb).
    + apply (IH i j); [lia|done..].
  - intros Hnd. apply dedupe_from_distinct; [done|]. intros r _. apply lookup_empty.
Qed.

(** ** The fused confidence *)

(** X12.  [scoreResults] gives every finding a confidence in [0,1] and the
    level of that confidence; it does not lower a confidence that was at
    most 1, gives at least 0.5 to a finding without one, and leaves every
    other field as it was. *)
Theorem scoreResult_range_and_fields (query : string) (r : Finding.t) :
  let r' := scoreResult query r in
  (∃ c, Finding.confidence r' = Some c
        ∧ (0 <= c <= 1)%Q
        ∧ Finding.confidenceLevel r' = Some (levelOf c)
        ∧ (∀ c0, Finding.confidence r = Some c0 -> (c0 <= 1)%Q -> (c0 <= c)%Q)
        ∧ (Finding.confidence r = None -> (1 # 2 <= c)%Q))
  ∧ (Finding.id r', Finding.source r', Finding.url r', Finding.username r',
     Finding.email r', Finding.displayName r', Finding.bio r',
     Finding.location r', Finding.avatar r', Finding.verified r')
    = (Finding.id r, Finding.source r, Finding.url r, Finding.username r,
       Finding.email r, Finding.displayName r, Finding.bio r,
       Finding.location r, Finding.avatar r, Finding.verified r).
Proof.
  simpl. split; [|done].
  exists (Qmin 1 (Qmax 0 (rawScore r query))). split; [done|].
  pose proof (clamp_spec (rawScore r query)) as (Hrange & Hneg & Hmid & Hbig).
  simpl in Hrange, Hneg, Hmid, Hbig.
  split; [exact Hrange|]. split; [done|].
  pose proof (rawScore_spec r query) as Hraw.
  pose proof (richness_range r) as Hrich.
  assert (0 <= inject_Z (richness r) / 5 * (1 # 10))%Q as Hfill.
  { unfold Qdiv. change (/ 5)%Q with (1 # 5)%Q.
    assert (0 <= inject_Z (richness r))%Q
      by (change 0%Q with (inject_Z 0); rewrite <-Zle_Qle; lia).
    lra. }
  assert (0 <= (if Finding.verified r then 2 # 10 else 0))%Q as Hver
    by (destruct (Finding.verified r); lra).
  assert (0 <= (if bool_decide (toLowerCase <$> Finding.username r
                                = Some (toLowerCase query))
                then 3 # 10 else 0))%Q as Hname
    by (case_bool_decide; lra).
  revert Hraw Hfill Hver Hname.
  generalize (inject_Z (richness r) / 5 * (1 # 10))%Q.
  generalize (if Finding.verified r then 2 # 10 else 0)%Q.
  generalize (if bool_decide (toLowerCase <$> Finding.username r
                              = Some (toLowerCase query))
              then 3 # 10 else 0)%Q.
  intros n v f Hraw Hfill Hver Hname.
  assert (∀ start, (num_or (Finding.confidence r) (1 # 2) == start)%Q ->
            (start <= 1)%Q -> (start <= Qmin 1 (Qmax 0 (rawScore r query)))%Q)
    as Hup.
  { intros start Hstart Hle. rewrite Hstart in Hraw.
    destruct (Qlt_le_dec 1 (rawScore r query)) as [H1|H1].
    - rewrite (Hbig H1). exact Hle.
    - destruct (Qlt_le_dec (rawScore r query) 0) as [H0|H0]; [lra|].
      rewrite (Hmid (conj H0 H1)). lra. }
  split.
  - intros c0 Hc0 Hle. rewrite Hc0 in Hup. simpl in Hup.
    destruct (Qeq_bool c0 0) eqn:Hz.
    + apply Qeq_bool_iff in Hz. rewrite Hz. apply Hrange.
    + by apply Hup.
  - intros Hnone. rewrite Hnone in Hup. simpl in Hup. apply Hup; [done|lra].
Qed.

(** * Adapters *)

(** ** The rate limiter *)

Lemma turn_limits (a : BaseAdapter.t) (e : BaseAdapter.Turn) :
  BaseAdapter.rateLimit (BaseAdapter.turn a e) = BaseAdapter.rateLimit a
  ∧ BaseAdapter.name (BaseAdapter.turn a e) = BaseAdapter.name a
  ∧ BaseAdapter.priority (BaseAdapter.turn a e) = BaseAdapter.priority a.
Proof.
  destruct e as [now|woke]; simpl; [|done].
  unfold BaseAdapter.checkRateLimit_enter.
  destruct (Z.ltb _ _); simpl; destruct (Z.leb _ _); done.
Qed.

Lemma turn_budget (a : BaseAdapter.t) (e : BaseAdapter.Turn) :
  1 <= RateLimit.requests (BaseAdapter.rateLimit a) ->
  0 <= BaseAdapter.requestCount a <= RateLimit.requests (BaseAdapter.rateLimit a) ->
  0 <= BaseAdapter.requestCount (BaseAdapter.turn a e)
    <= RateLimit.requests (BaseAdapter.rateLimit a).
Proof.
  intros Hreq Hcount. destruct e as [now|woke]; simpl; [|lia].
  unfold BaseAdapter.checkRateLimit_enter.
  destruct (Z.ltb _ _); simpl; destruct (Z.leb _ _) eqn:Hfull; simpl;
    try apply Z.leb_gt in Hfull; simpl in *; lia.
Qed.

(** X13.  The rate limiter keeps [requestCount] within the budget: with a
    budget of at least one request, [requestCount] stays between 0 and
    [rateLimit.requests] through any interleaving of calls of
    [checkRateLimit] (entered, or woken from their sleep), the limit itself
    is never changed, and after a whole call it is at least 1. *)
Theorem checkRateLimit_keeps_budget (a : BaseAdapter.t)
    (turns : list BaseAdapter.Turn) :
  1 <= RateLimit.requests (BaseAdapter.rateLimit a) ->
  0 <= BaseAdapter.requestCount a <= RateLimit.requests (BaseAdapter.rateLimit a) ->
  let a' := foldl BaseAdapter.turn a turns in
  BaseAdapter.rateLimit a' = BaseAdapter.rateLimit a
  ∧ 0 <= BaseAdapter.requestCount a'
      <= RateLimit.requests (BaseAdapter.rateLimit a)
  ∧ ∀ now woke,
      1 <= BaseAdapter.requestCount (BaseAdapter.checkRateLimit a' now woke)
        <= RateLimit.requests (BaseAdapter.rateLimit a).
Proof.
  intros Hreq Hcount. simpl.
  assert (BaseAdapter.rateLimit (foldl BaseAdapter.turn a turns)
          = BaseAdapter.rateLimit a
          ∧ 0 <= BaseAdapter.requestCount (foldl BaseAdapter.turn a turns)
              <= RateLimit.requests (BaseAdapter.rateLimit a)) as [Hlim Hin].
  { revert a Hreq Hcount. induction turns as [|e turns IH]; intros a Hreq Hcount.
    { done. }
    simpl. destruct (turn_limits a e) as (Hl & _).
    pose proof (turn_budget a e Hreq Hcount) as Hb.
    rewrite <-Hl in Hreq, Hb. destruct (IH _ Hreq Hb) as [IHl IHc].
    rewrite Hl in IHl, IHc. done. }
  split; [exact Hlim|]. split; [exact Hin|].
  intros now woke. rewrite <-Hlim in *.
  generalize dependent (foldl BaseAdapter.turn a turns). clear.
  intros a' Hreq Hin _.
  unfold BaseAdapter.checkRateLimit, BaseAdapter.checkRateLimit_enter.
  destruct (Z.ltb _ _); simpl; destruct (Z.leb _ _) eqn:Hfull; simpl;
    try apply Z.leb_gt in Hfull; simpl in *; lia.
Qed.

Lemma checkRateLimit_keeps_budget_witness :
  let a := BaseAdapter.new "probe"
             (AdapterConfig.mk None (Some (RateLimit.mk 2 60000))) in
  let a' :=
    foldl BaseAdapter.turn a
      [BaseAdapter.Enter 100000; BaseAdapter.Enter 100001; BaseAdapter.Enter 100002;
       BaseAdapter.Enter 100003; BaseAdapter.Wake 160000; BaseAdapter.Wake 160000] in
  BaseAdapter.requestCount a' = 1
  ∧ 0 <= BaseAdapter.requestCount a' <= 2.
Proof.
  intros a a'. split; [reflexivity|].
  refine (proj1 (proj2 (checkRateLimit_keeps_budget a _ _ _))); simpl; lia.
Defined.

(** X14.  With a budget of at least one request and a clock that is not
    behind [lastRequest]: when [checkRateLimit] sleeps, the budget of the
    current window is used up, no counter has changed, and the wait lasts
    exactly until the window that began at [lastRequest] ends (between 0
    and [window] ms); otherwise the call is counted at once, in a new
    window when the old one has run out. *)
Theorem checkRateLimit_waits_for_window (a : BaseAdapter.t) (now : Z) :
  1 <= RateLimit.requests (BaseAdapter.rateLimit a) ->
  BaseAdapter.lastRequest a <= now ->
  let requests := RateLimit.requests (BaseAdapter.rateLimit a) in
  let window := RateLimit.window (BaseAdapter.rateLimit a) in
  let age := now - BaseAdapter.lastRequest a in
  match BaseAdapter.checkRateLimit_enter a now with
  | (a', Some waitTime) =>
      a' = a ∧ age <= window ∧ requests <= BaseAdapter.requestCount a
      ∧ 0 <= waitTime <= window
      ∧ now + waitTime = BaseAdapter.lastRequest a + window
  | (a', None) =>
      BaseAdapter.rateLimit a' = BaseAdapter.rateLimit a
      ∧ ((window < age ∧ BaseAdapter.lastRequest a' = now
          ∧ BaseAdapter.requestCount a' = 1)
         ∨ (age <= window ∧ BaseAdapter.requestCount a < requests
            ∧ BaseAdapter.lastRequest a' = BaseAdapter.lastRequest a
            ∧ BaseAdapter.requestCount a' = BaseAdapter.requestCount a + 1))
  end.
Proof.
  intros Hreq Hclock. simpl. unfold BaseAdapter.checkRateLimit_enter.
  destruct (Z.ltb _ _) eqn:Hold; simpl.
  - apply Z.ltb_lt in Hold. destruct (Z.leb _ _) eqn:Hfull.
    + apply Z.leb_le in Hfull. lia.
    + split; [done|]. left. simpl. lia.
  - apply Z.ltb_ge in Hold. destruct (Z.leb _ _) eqn:Hfull.
    + apply Z.leb_le in Hfull. simpl. repeat split; lia.
    + apply Z.leb_gt in Hfull. split; [done|]. right. simpl. lia.
Qed.

Lemma checkRateLimit_waits_for_window_witness :
  let a := BaseAdapter.mk "probe" 5 (RateLimit.mk 10 60000) 100000 10 in
  ∃ a' waitTime,
    BaseAdapter.checkRateLimit_enter a 130000 = (a', Some waitTime)
    ∧ a' = a ∧ waitTime = 30000.
Proof.
  intros a.
  pose proof (checkRateLimit_waits_for_window a 130000) as H.
  simpl in H. destruct H as (Ha & _ & _ & _ & Hw); [lia|lia|].
  exists a, 30000. done.
Defined.

(** ** Adapters without an API *)

Lemma append_assoc (s1 s2 s3 : string) :
  ((s1 ++ s2) ++ s3 = s1 ++ (s2 ++ s3))%string.
Proof.
  induction s1 as [|c s1 IH]; [done|].
  change (String c ((s1 ++ s2) ++ s3) = String c (s1 ++ (s2 ++ s3)))%string.
  by f_equal.
Qed.

Lemma potentialMatch_score (a : BaseAdapter.t) (site query : string)
    (now : Z) (random : string) :
  let r := potentialMatch a site query now random in
  scoreResult query r
  = Finding.rescore r
      (Qmin 1 (Qmax 0 ((3 # 10) + (3 # 10)
                       + inject_Z (Z.of_nat 0) / inject_Z (Z.of_nat 5) * (1 # 10))))
      medium.
Proof.
  simpl. unfold scoreResult, rawScore, usernameMatches, filledFields. simpl.
  rewrite String.eqb_refl. reflexivity.
Qed.

Lemma potentialMatch_key (a : BaseAdapter.t) (site query : string)
    (now : Z) (random : string) :
  site ≠ EmptyString ->
  ∃ rest, dedupeKey AGGREGATOR_CONFIG (potentialMatch a site query now random)
          = (site ++ rest)%string.
Proof.
  intros Hsite. destruct site as [|c site]; [done|].
  unfold dedupeKey. destruct query as [|d query]; simpl.
  - by eexists.
  - eexists. rewrite append_assoc. reflexivity.
Qed.

(** X15.  The findings that the Twitter adapter (without a bearer token),
    the Instagram adapter and the LinkedIn adapter return for any query
    carry confidence 0.3; fusion drops none of them and scores each at 0.6,
    level medium, because their username is the query itself. *)
Theorem unconfigured_adapters_score_medium
    (query : string) (now1 now2 now3 : Z) (random1 random2 random3 : string) :
  let found :=
    TwitterAdapter.search query now1 random1
    ++ InstagramAdapter.search query now2 random2
    ++ LinkedInAdapter.search query now3 random3 in
  (∃ c, (c == 6 # 10)%Q
        ∧ fuseResults AGGREGATOR_CONFIG found query
          = map (fun r => Finding.rescore r c medium) found)
  ∧ Forall (fun r => Finding.username r = Some query
                     ∧ Finding.verified r = false
                     ∧ Finding.confidence r = Some (3 # 10)%Q) found
  ∧ map Finding.source found = ["twitter"; "instagram"; "linkedin"].
Proof.
  simpl. split; [|by repeat constructor].
  exists (Qmin 1 (Qmax 0 ((3 # 10) + (3 # 10)
                          + inject_Z (Z.of_nat 0) / inject_Z (Z.of_nat 5) * (1 # 10)))).
  split; [|unfold fuseResults, deduplicateResults; rewrite dedupe_from_distinct].
  - reflexivity.
  - unfold scoreResults. simpl. by rewrite !potentialMatch_score.
  - unfold TwitterAdapter.search, InstagramAdapter.search, LinkedInAdapter.search.
    simpl.
    destruct (potentialMatch_key TwitterAdapter.new "https://twitter.com/"
                query now1 random1) as [k1 ->]; [done|].
    destruct (potentialMatch_key InstagramAdapter.new "https://instagram.com/"
                query now2 random2) as [k2 ->]; [done|].
    destruct (potentialMatch_key LinkedInAdapter.new "https://linkedin.com/in/"
                query now3 random3) as [k3 ->]; [done|].
    simpl. repeat constructor; rewrite ?elem_of_cons, ?elem_of_nil;
      intros H; repeat destruct H as [H|H]; try done.
  - intros r _. apply lookup_empty.
Qed.

(** ** Probing platforms in batches *)

Section Batches.
Import DirectPlatformAdapter.
Variable check : Platform.t -> option Finding.t.

Lemma searchFrom_spec (fuel i : nat) (selected : list Platform.t) (t : Trace) :
  (length selected - i + batchSize <= fuel * batchSize)%nat ->
  ∃ t', searchFrom check fuel i selected t = Some t'
        ∧ results t' = results t ++ omap check (drop i selected)
        ∧ concat (batches t') = concat (batches t) ++ drop i selected
        ∧ (Forall (fun b => (1 <= length b <= batchSize)%nat) (batches t) ->
           Forall (fun b => (1 <= length b <= batchSize)%nat) (batches t'))
        ∧ (sleeps t' + (if Nat.ltb i (length selected) then 1 else 0)
           + length (batches t)
           = sleeps t + length (batches t'))%nat.
Proof.
  revert i t. induction fuel as [|fuel IH]; intros i t Hfuel.
  { unfold batchSize in Hfuel. lia. }
  simpl. destruct (Nat.ltb i (length selected)) eqn:Hi.
  - apply Nat.ltb_lt in Hi.
    destruct (IH (i + batchSize)%nat
                 (mkTrace (results t ++ omap check (take batchSize (drop i selected)))
                          (batches t ++ [take batchSize (drop i selected)])
                          (if Nat.ltb (i + batchSize) (length selected)
                           then S (sleeps t) else sleeps t)))
      as (t' & Hrun & Hres & Hbat & Hsize & Hsleep).
    { unfold batchSize in *. simpl in Hfuel. lia. }
    cbn [results batches sleeps] in Hres, Hbat, Hsize, Hsleep.
    exists t'. split; [exact Hrun|].
    assert (drop i selected
            = take batchSize (drop i selected) ++ drop (i + batchSize) selected)
      as Hsplit.
    { rewrite <-(take_drop batchSize (drop i selected)) at 1.
      by rewrite drop_drop. }
    split; [|split; [|split]].
    + rewrite Hres, <-app_assoc, <-omap_app. by rewrite <-Hsplit.
    + rewrite Hbat, concat_app. simpl. rewrite app_nil_r, <-app_assoc.
      by rewrite <-Hsplit.
    + intros Hall. apply Hsize. apply Forall_app. split; [exact Hall|].
      constructor; [|constructor].
      rewrite length_take, length_drop. unfold batchSize. lia.
    + rewrite length_app in Hsleep. simpl in Hsleep.
      destruct (Nat.ltb (i + batchSize) (length selected)); lia.
  - apply Nat.ltb_ge in Hi. exists t. rewrite drop_ge by exact Hi.
    rewrite !app_nil_r. repeat split; try done. lia.
Qed.

(** X16.  [DirectPlatformAdapter.search] terminates; it probes every
    selected platform exactly once, in order, in batches of at least one
    and at most ten platforms, returns the hits in platform order, and
    sleeps once between two batches (never after the last). *)
Theorem direct_search_probes_in_batches
    (platforms : list Platform.t) (requested : option (list string)) :
  let selected := selectedPlatforms platforms requested in
  ∃ t, search check platforms requested = Some t
       ∧ results t = omap check selected
       ∧ concat (batches t) = selected
       ∧ Forall (fun b => (1 <= length b <= 10)%nat) (batches t)
       ∧ sleeps t = (length (batches t) - 1)%nat.
Proof.
  simpl. unfold search.
  destruct (searchFrom_spec (S (length (selectedPlatforms platforms requested))) 0
              (selectedPlatforms platforms requested) (mkTrace [] [] 0))
    as (t & Hrun & Hres & Hbat & Hsize & Hsleep).
  { unfold batchSize. lia. }
  cbn [results batches sleeps] in Hres, Hbat, Hsize, Hsleep.
  rewrite drop_0 in Hres, Hbat. simpl in Hres, Hbat, Hsleep.
  exists t. split; [exact Hrun|]. split; [exact Hres|]. split; [exact Hbat|].
  assert (Forall (fun b => (1 <= length b <= batchSize)%nat) (batches t)) as Hall
    by (by apply Hsize).
  split; [exact Hall|].
  clear -Hsleep Hbat Hall. rewrite <-Hbat in Hsleep.
  destruct (batches t) as [|b bs]; simpl in *; [lia|].
  apply Forall_cons in Hall as [Hb _]. rewrite length_app in Hsleep.
  destruct (Nat.ltb_spec 0 (length b + length (concat bs))); lia.
Qed.
End Batches.

(** * The HTTP interface *)

(** ** Queries and cache keys *)

Lemma append_colon_inj (q1 q2 rest1 rest2 : string) :
  forallb queryChar (list_ascii_of_string q1) = true ->
  forallb queryChar (list_ascii_of_string q2) = true ->
  (q1 ++ ":" ++ rest1 = q2 ++ ":" ++ rest2)%string ->
  q1 = q2 ∧ rest1 = rest2.
Proof.
  revert q2. induction q1 as [|c q1 IH]; intros [|d q2] H1 H2 Heq.
  - change (String ":" rest1 = String ":" rest2) in Heq. by injection Heq as ->.
  - change (String ":" rest1 = String d (q2 ++ ":" ++ rest2)%string) in Heq.
    injection Heq as <- _. simpl in H2. done.
  - change (String c (q1 ++ ":" ++ rest1)%string = String ":" rest2) in Heq.
    injection Heq as -> _. simpl in H1. done.
  - change (String c (q1 ++ ":" ++ rest1)%string
            = String d (q2 ++ ":" ++ rest2)%string) in Heq.
    injection Heq as -> Heq. simpl in H1, H2.
    apply andb_true_iff in H1 as [_ H1]. apply andb_true_iff in H2 as [_ H2].
    destruct (IH q2 H1 H2 Heq) as [-> ->]. done.
Qed.

(** X17.  Two queries that [POST /api/scan] accepts never share a cache
    key unless they are the same query with the same serialised options. *)
Theorem accepted_queries_keep_cache_keys_apart
    (query1 query2 : string) (options1 options2 : Options.t) :
  checkQuery (Some query1) = None -> checkQuery (Some query2) = None ->
  getCacheKey query1 options1 = getCacheKey query2 options2 ->
  query1 = query2 ∧ JSON_stringify options1 = JSON_stringify options2.
Proof.
  unfold checkQuery, queryFormat. intros H1 H2 Hkey.
  destruct (String.eqb query1 EmptyString); [done|].
  destruct (String.eqb query2 EmptyString); [done|]. simpl in H1, H2.
  destruct (forallb queryChar (list_ascii_of_string query1)) eqn:Hq1; [|done].
  destruct (forallb queryChar (list_ascii_of_string query2)) eqn:Hq2; [|done].
  by apply append_colon_inj.
Qed.

Lemma accepted_queries_keep_cache_keys_apart_witness :
  let options := Options.mk (Some ["github"; "reddit"]) in
  checkQuery (Some "john_doe") = None
  ∧ "john_doe" = "john_doe"
  ∧ JSON_stringify options = JSON_stringify options.
Proof.
  intros options. split; [reflexivity|].
  apply (accepted_queries_keep_cache_keys_apart "john_doe" "john_doe"
           options options); reflexivity.
Defined.

(** ** The status endpoint and the stream *)

Lemma getScan_job agg scanId s :
  reachable agg -> getScan agg scanId = Some s ->
  Scan.id s = scanId ∧ ∃ ref j, heap agg !! ref = Some j ∧ scan j = s.
Proof.
  intros Hr Hs. unfold getScan in Hs.
  destruct (scans agg !! scanId) as [ref|] eqn:Href; [|done]. simpl in Hs.
  destruct (scans_point_to_jobs agg Hr scanId ref Href) as (j & Hj & Hid).
  rewrite Hj in Hs. injection Hs as <-. split; [exact Hid|]. by exists ref, j.
Qed.

(** X18.  What [GET /api/scan/:id] (at the time [now]) and the opening of
    [GET /api/scan/:id/stream] report of a scan of a reachable state.  Both
    answer 404 for an unknown identifier.  The stream stays open exactly
    for a running scan, which has no end time and, in the status body, a
    duration counted up to [now].  For a completed scan the results are in
    descending confidence and both carry them; the [complete] message says
    progress 100 and the duration [endTime - startTime], the status body
    says the progress of the scan (100 unless it was served from the cache)
    and the same duration unless the end time is 0, which it takes for
    missing and counts up to [now].  For a failed scan the two disagree:
    there is no end time, so the status body counts the duration up to
    [now] and says the progress of the scan, while the [complete] message
    says progress 100 and the duration [0 - startTime]. *)
Theorem scan_endpoints_report agg scanId now :
  reachable agg ->
  match getScan agg scanId with
  | None =>
      getScanStatus agg scanId now = NotFound "Scan not found"
      ∧ openStream agg scanId = NotFound "Scan not found"
  | Some s =>
      ∃ report messages ended,
        getScanStatus agg scanId now = Json report
        ∧ openStream agg scanId = Json (messages, ended)
        ∧ ScanReport.id report = scanId
        ∧ 0 <= ScanReport.progress report <= 100
        ∧ (ended = false <-> ScanReport.status report = running)
        ∧ (ScanReport.status report = running ->
           messages = [Init scanId running (ScanReport.progress report)
                            (length (ScanReport.results report))]
           ∧ ScanReport.endTime report = None
           ∧ ScanReport.duration report = now - ScanReport.startTime report)
        ∧ (ScanReport.status report = completed ->
           ∃ finished,
             ScanReport.endTime report = Some finished
             ∧ descending (ScanReport.results report)
             ∧ (ScanReport.fromCache report = false ->
                ScanReport.progress report = 100)
             ∧ messages
               = [Init scanId completed (ScanReport.progress report)
                       (length (ScanReport.results report));
                  Complete scanId completed 100 (ScanReport.stats report)
                           (ScanReport.results report) (ScanReport.errors report)
                           (finished - ScanReport.startTime report)]
             ∧ (finished ≠ 0 ->
                ScanReport.duration report
                = finished - ScanReport.startTime report)
             ∧ (finished = 0 ->
                ScanReport.duration report = now - ScanReport.startTime report))
        ∧ (ScanReport.status report = error ->
           ScanReport.endTime report = None
           ∧ ScanReport.duration report = now - ScanReport.startTime report
           ∧ messages
             = [Init scanId error (ScanReport.progress report)
                     (length (ScanReport.results report));
                Complete scanId error 100 (ScanReport.stats report)
                         (ScanReport.results report) (ScanReport.errors report)
                         (0 - ScanReport.startTime report)])
  end.
Proof.
  intros Hr. unfold getScanStatus, openStream.
  destruct (getScan agg scanId) as [s|] eqn:Hs; [|done].
  destruct (getScan_job agg scanId s Hr Hs) as (Hid & ref & j & Hj & <-).
  pose proof (Forall_lookup_1 _ _ _ _ (progress_range agg Hr) Hj) as Hprogress.
  pose proof (Forall_lookup_1 _ _ _ _ (endTime_only_completed agg Hr) Hj) as Hnone.
  pose proof (reachable_ok agg Hr) as [Hheap _ _].
  pose proof (Forall_lookup_1 _ _ _ _ Hheap Hj) as Hok.
  simpl in Hprogress, Hnone. rewrite Hid.
  destruct (Scan.status (scan j)) eqn:Hst.
  - eexists _, _, _. split; [reflexivity|]. split; [reflexivity|]. simpl.
    rewrite Hnone by done. simpl.
    repeat split; try done; lia.
  - destruct (ok_completed j Hok Hst) as (_ & _ & Hsorted & [finished Hend] & Hfull).
    eexists _, _, _. split; [reflexivity|]. split; [reflexivity|]. simpl.
    rewrite Hend. simpl. repeat split; try done; try lia.
    exists finished. repeat split; try done.
    + destruct (Z.eqb_spec finished 0); done.
    + intros ->. done.
  - eexists _, _, _. split; [reflexivity|]. split; [reflexivity|]. simpl.
    rewrite Hnone by done. simpl.
    repeat split; try done; lia.
Qed.

Lemma scan_endpoints_report_witness :
  let agg :=
    run (newAggregator shortDeadline [Adapter.mk "slow" 1])
        [StartScan "scan-1" "testuser" (Options.mk None) (tick 8000);
         Deadline 0] in
  ∃ report messages,
    getScanStatus agg "scan-1" 9000 = Json report
    ∧ openStream agg "scan-1" = Json (messages, true)
    ∧ ScanReport.status report = error
    ∧ ScanReport.progress report = 0
    ∧ ScanReport.duration report = 1000
    ∧ messages = [Init "scan-1" error 0 0;
                  Complete "scan-1" error 100 (Stats.mk 1 0 0 0) []
                           [ScanFailure "Timeout"] (-8000)].
Proof.
  intros agg.
  assert (reachable agg) as Hr by (eexists _, _, _; reflexivity).
  pose proof (scan_endpoints_report agg "scan-1" 9000 Hr) as H.
  eassert (getScan agg "scan-1" = Some _) as Hs by reflexivity.
  rewrite Hs in H. clear Hs.
  destruct H as (report & messages & ended & Hreport & Hstream & _ & _ & _ & _ & _
                 & Herror).
  exists report, messages. injection Hreport as <-. injection Hstream as <- <-.
  split; [reflexivity|]. split; [reflexivity|]. split; [reflexivity|].
  split; [reflexivity|].
  destruct (Herror eq_refl) as (_ & Hduration & Hmessages).
  split; [exact Hduration|exact Hmessages].
Defined.

(** * The browser client *)

Lemma known_spec (results : list Finding.t) (result : Finding.t) :
  Client.known results result = true
  <-> Finding.id result ∈ map Finding.id results.
Proof.
  unfold Client.known. induction results as [|r l IH]; simpl.
  { split; [done|]. intros H. by apply elem_of_nil in H. }
  rewrite orb_true_iff, IH, elem_of_cons, String.eqb_eq. split.
  - intros [H|H]; [by left|by right].
  - intros [H|H]; [by left|by right].
Qed.

Lemma addResult_spec (results : list Finding.t) (result : Finding.t) :
  NoDup (map Finding.id results) ->
  NoDup (map Finding.id (Client.addResult results result))
  ∧ results `prefix_of` Client.addResult results result
  ∧ Finding.id result ∈ map Finding.id (Client.addResult results result)
  ∧ (∀ r, r ∈ Client.addResult results result -> r ∈ results ∨ r = result).
Proof.
  intros Hnd. unfold Client.addResult.
  destruct (Client.known results result) eqn:Hknown.
  - apply known_spec in Hknown. repeat split; try done. by left.
  - assert (Finding.id result ∉ map Finding.id results) as Hnew.
    { intros Hin. apply known_spec in Hin. congruence. }
    split; [|split; [|split]].
    + rewrite map_app. simpl. apply NoDup_app. split; [done|]. split.
      * intros x Hx Hx'. apply list_elem_of_singleton in Hx' as ->. done.
      * apply NoDup_singleton.
    + by apply prefix_app_r.
    + rewrite map_app. simpl. apply elem_of_app. right. by left.
    + intros r Hr. apply elem_of_app in Hr as [Hr|Hr]; [by left|].
      apply list_elem_of_singleton in Hr. by right.
Qed.

Lemma merge_spec (found results : list Finding.t) :
  NoDup (map Finding.id results) ->
  let merged :=
    foldl (fun results result =>
             if Client.known results result then results
             else Client.addResult results result) results found in
  NoDup (map Finding.id merged)
  ∧ results `prefix_of` merged
  ∧ (∀ r, r ∈ found -> Finding.id r ∈ map Finding.id merged)
  ∧ (∀ r, r ∈ merged -> r ∈ results ∨ r ∈ found).
Proof.
  revert results. induction found as [|x found IH]; intros results Hnd; simpl.
  { repeat split; try done.
    - intros r Hr. by apply elem_of_nil in Hr.
    - intros r Hr. by left. }
  assert ((if Client.known results x then results else Client.addResult results x)
          = Client.addResult results x) as ->.
  { unfold Client.addResult. by destruct (Client.known results x). }
  destruct (addResult_spec results x Hnd) as (Hnd' & Hpre & Hx & Hfrom).
  destruct (IH _ Hnd') as (Hnd'' & Hpre' & Hall & Hfrom').
  split; [exact Hnd''|]. split; [by etrans|]. split.
  - intros r Hr. apply elem_of_cons in Hr as [->|Hr]; [|by apply Hall].
    destruct Hpre' as [rest ->]. rewrite map_app. apply elem_of_app. by left.
  - intros r Hr. destruct (Hfrom' r Hr) as [Hin|Hin]; [|right; by right].
    destruct (Hfrom r Hin) as [Hold| ->]; [by left|right; by left].
Qed.

Lemma handleComplete_spec (results : list Finding.t)
    (scanResults : option (list Finding.t)) :
  NoDup (map Finding.id results) ->
  let final := Client.handleComplete results scanResults in
  NoDup (map Finding.id final)
  ∧ (∀ r, r ∈ results -> r ∈ final)
  ∧ (∀ found r, scanResults = Some found -> r ∈ found ->
                Finding.id r ∈ map Finding.id final)
  ∧ (∀ r, r ∈ final ->
          r ∈ results ∨ ∃ found, scanResults = Some found ∧ r ∈ found)
  ∧ (Forall scored final -> descending final).
Proof.
  intros Hnd. unfold Client.handleComplete.
  set (merged := match scanResults with
                 | Some found => foldl _ results found
                 | None => results
                 end).
  assert (NoDup (map Finding.id merged)
          ∧ results `prefix_of` merged
          ∧ (∀ found r, scanResults = Some found -> r ∈ found ->
                        Finding.id r ∈ map Finding.id merged)
          ∧ (∀ r, r ∈ merged ->
                  r ∈ results ∨ ∃ found, scanResults = Some found ∧ r ∈ found))
    as (Hnd' & Hpre & Hall & Hfrom).
  { subst merged. destruct scanResults as [found|].
    - destruct (merge_spec found results Hnd) as (H1 & H2 & H3 & H4).
      split; [exact H1|]. split; [exact H2|]. split.
      + intros ? r [= <-]. apply H3.
      + intros r Hr. destruct (H4 r Hr) as [H|H]; [by left|right; by exists found].
    - split; [done|]. split; [done|]. split; [done|]. intros r Hr. by left. }
  simpl. pose proof (sort_perm byConfidence merged) as Hperm.
  split; [by rewrite Hperm|]. split.
  { intros r Hr. rewrite Hperm. destruct Hpre as [rest ->].
    apply elem_of_app. by left. }
  split; [intros found r Hf Hr; rewrite Hperm; by eapply Hall|].
  split; [intros r Hr; rewrite Hperm in Hr; by apply Hfrom|].
  intros Hscored. apply sort_descending. by rewrite <-Hperm.
Qed.

(** X19.  The result list of the browser client never holds two findings
    with the same identifier, whatever the stream delivers; [handleComplete]
    keeps every finding already shown, adds only findings of the scan, holds
    every identifier of the scan afterwards, and leaves the list in
    descending confidence when every finding has one. *)
Theorem client_results_unique_and_sorted
    (events : list Client.StreamEvent) (scanResults : option (list Finding.t)) :
  let streamed := foldl Client.handleStreamEvent [] events in
  let final := Client.handleComplete streamed scanResults in
  NoDup (map Finding.id streamed)
  ∧ NoDup (map Finding.id final)
  ∧ (∀ r, r ∈ streamed -> r ∈ final)
  ∧ (∀ found r, scanResults = Some found -> r ∈ found ->
                Finding.id r ∈ map Finding.id final)
  ∧ (∀ r, r ∈ final ->
          r ∈ streamed ∨ ∃ found, scanResults = Some found ∧ r ∈ found)
  ∧ (Forall scored final -> descending final).
Proof.
  simpl.
  assert (NoDup (map Finding.id (foldl Client.handleStreamEvent [] events))) as Hnd.
  { assert (NoDup (map Finding.id ([] : list Finding.t))) as Hnil by constructor.
    revert Hnil. generalize ([] : list Finding.t).
    induction events as [|e events IH]; intros results Hnd; [done|].
    simpl. apply IH. destruct e as [result|found|]; simpl; [| |done].
    - by apply addResult_spec.
    - by apply handleComplete_spec. }
  split; [exact Hnd|]. by apply handleComplete_spec.
Qed.

(** X20.  The CSS class that the client derives from the confidence of a
    fused finding names the same level as the [confidenceLevel] that
    [scoreResults] stored in it. *)
Theorem getConfidenceClass_matches_level (query : string) (r : Finding.t) :
  ∃ l, Finding.confidenceLevel (scoreResult query r) = Some l
       ∧ Client.getConfidenceClass (Finding.confidence (scoreResult query r))
         = ("confidence-" ++ levelName l)%string.
Proof.
  exists (levelOf (Qmin 1 (Qmax 0 (rawScore r query)))). split; [done|].
  simpl. unfold Client.getConfidenceClass, levelOf, num_ge.
  destruct (Qle_bool (8 # 10) _); [done|]. by destruct (Qle_bool (5 # 10) _).
Qed.

(** * A scan whose adapters all settle *)

Lemma settledScan_fields s calls :
  let s' := settledScan s calls in
  Scan.status s' = Scan.status s
  ∧ Scan.query s' = Scan.query s
  ∧ Scan.results s' = Scan.results s ++ collected calls
  ∧ Scan.errors s' = Scan.errors s ++ reported calls
  ∧ Scan.stats s'
    = Stats.mk (Stats.totalSources (Scan.stats s))
               (Stats.completedSources (Scan.stats s) + Z.of_nat (length calls))
               (Stats.totalResults (Scan.stats s)
                + Z.of_nat (length (collected calls)))
               (Stats.uniqueResults (Scan.stats s)).
Proof.
  revert s. induction calls as [|c calls IH]; intros s.
  { simpl. rewrite !app_nil_r, !Z.add_0_r. by destruct (Scan.stats s). }
  change (settledScan s (c :: calls))
    with (settledScan (adapterSettled s (s_adapter c) (s_outcome c)) calls).
  destruct (IH (adapterSettled s (s_adapter c) (s_outcome c)))
    as (H1 & H2 & H3 & H4 & H5).
  simpl. rewrite H1, H2, H3, H4, H5.
  unfold collected, reported. simpl.
  destruct (s_outcome c) as [found|message]; simpl;
    rewrite ?length_app, <-?app_assoc; repeat split; try done; f_equal; lia.
Qed.

Lemma settlements_fold config ref (calls : list Settlement) (j : Job) :
  calls ≠ [] -> NoDup (map s_adapter calls) ->
  pending j ≡ₚ map s_adapter calls -> raceSettled j = false ->
  ∃ final, last calls = Some final
    ∧ foldl (job_event config ref) j (map (settlement ref) calls)
      = mkJob (completeScan config (settledScan (scan j) calls)
                            (t_end (s_clock final))) [] true.
Proof.
  revert j. induction calls as [|c rest IH]; intros j Hne Hnd Hp Hopen; [done|].
  assert (s_adapter c ∈ pending j) as Hin by (rewrite Hp; left).
  change (map (settlement ref) (c :: rest))
    with (Settle ref (s_adapter c) (s_outcome c) (s_clock c)
          :: map (settlement ref) rest).
  cbn [foldl job_event]. rewrite bool_decide_eq_true_2 by done.
  pose proof (pending_after (s_adapter c) (map s_adapter rest) (pending j) Hnd Hp)
    as Hrest.
  destruct rest as [|d rest'].
  - apply Permutation_nil_r in Hrest. exists c. split; [done|].
    cbn [map foldl]. unfold resumed.
    assert (raceWon (called j (s_adapter c) (s_outcome c)) = true) as ->
      by (apply raceWon_spec; by split).
    done.
  - assert (resumed config (called j (s_adapter c) (s_outcome c)) (s_clock c)
            = called j (s_adapter c) (s_outcome c)) as ->.
    { unfold resumed.
      assert (raceWon (called j (s_adapter c) (s_outcome c)) ≠ true) as Hnot.
      { rewrite raceWon_spec. intros [Hnil _]. simpl in Hnil.
        rewrite Hnil in Hrest. by apply Permutation_nil_cons in Hrest. }
      by destruct (raceWon _). }
    destruct (IH (called j (s_adapter c) (s_outcome c))) as (final & Hlast & Hrun);
      try done.
    { by apply NoDup_cons_1_2 in Hnd. }
    exists final. split; [exact Hlast|]. exact Hrun.
Qed.

(** X21.  Take a scan that misses the cache, and a schedule whose events for
    this scan are the settlements of its selected adapters, one each, in any
    order and with any outcome, mixed with any events of other scans.  The
    scan ends completed: its results are the fused and sorted findings of
    the fulfilled calls in order of arrival, its errors are those of the
    rejected calls in order of arrival, its progress is 100, its end time is
    the time of the last settlement, and its counters show every source
    completed. *)
Theorem scan_completes_when_all_adapters_settle
    (agg : Aggregator) (scanId query : string) (options : Options.t)
    (clock : Clock) (calls : list Settlement) (events : list Event) :
  reachable agg ->
  cacheHit agg (getCacheKey query options) (t_check clock) = None ->
  map s_adapter calls ≡ₚ map Adapter.name (selectedAdapters agg options) ->
  let ref := length (heap agg) in
  filter (concerns ref) events = map (settlement ref) calls ->
  ∃ j, heap (run (startScan agg scanId query options clock) events) !! ref = Some j
       ∧ Scan.status (scan j) = completed
       ∧ Scan.results (scan j)
         = sort byConfidence (fuseResults (config agg) (collected calls) query)
       ∧ Scan.errors (scan j) = reported calls
       ∧ Scan.progress (scan j) = 100
       ∧ Scan.endTime (scan j)
         = Some (t_end (default clock (s_clock <$> last calls)))
       ∧ Scan.stats (scan j)
         = Stats.mk (Z.of_nat (length calls)) (Z.of_nat (length calls))
                    (Z.of_nat (length (collected calls)))
                    (Z.of_nat (length (Scan.results (scan j)))).
Proof.
  intros Hr Hmiss Hcalls ref Hevents.
  pose proof (reachable_ok agg Hr) as [_ _ Hnames].
  set (agg0 := startScan agg scanId query options clock).
  assert (heap agg0 !! ref = Some (started agg scanId query options clock)) as Hj0.
  { subst agg0 ref. rewrite heap_startScan, lookup_app_r, Nat.sub_diag by done.
    done. }
  rewrite (run_job_event agg0 events ref _ Hj0), job_events_concerned, Hevents.
  assert (config agg0 = config agg) as -> by apply config_startScan.
  set (s0 := setTotalSources (newScan agg scanId query options (t_start clock))
               (length (selectedAdapters agg options))).
  set (j0 := mkJob s0 (map Adapter.name (selectedAdapters agg options)) false).
  assert (started agg scanId query options clock = resumed (config agg) j0 clock)
    as -> by (unfold started; by rewrite Hmiss).
  assert (length calls = length (selectedAdapters agg options)) as Hlen.
  { rewrite <-(length_map s_adapter calls), Hcalls. by rewrite length_map. }
  eexists. split; [reflexivity|].
  destruct (decide (calls = [])) as [->|Hne].
  - simpl in Hlen. symmetry in Hlen. apply length_zero_iff_nil in Hlen.
    unfold resumed, raceWon. subst j0 s0. rewrite Hlen. simpl.
    repeat split; done.
  - assert (resumed (config agg) j0 clock = j0) as ->.
    { unfold resumed.
      assert (raceWon j0 ≠ true) as Hnot.
      { rewrite raceWon_spec. intros [Hnil _]. simpl in Hnil.
        rewrite Hnil in Hcalls. apply Permutation_nil_r in Hcalls.
        by destruct calls. }
      by destruct (raceWon j0). }
    destruct (settlements_fold (config agg) ref calls j0) as (final & Hlast & ->);
      try done.
    { rewrite Hcalls. by apply selectedAdapters_NoDup. }
    destruct (settledScan_fields s0 calls) as (Hst & Hq & Hres & Herr & Hstats).
    cbn [scan completeScan Scan.status Scan.results Scan.errors Scan.progress
         Scan.endTime Scan.stats].
    change (scan j0) with s0. rewrite Hres, Herr, Hq, Hstats, Hlast.
    subst s0. simpl. rewrite Hlen.
    repeat split; try done.
    rewrite (Permutation_length (sort_perm _ _)). done.
Qed.

Lemma scan_completes_when_all_adapters_settle_witness :
  let agg := newAggregator AGGREGATOR_CONFIG [Adapter.mk "a" 2; Adapter.mk "b" 1] in
  let calls :=
    [mkSettlement "a" (Fulfilled [plainFinding "1" (3 # 10); plainFinding "2" (9 # 10)])
                  (tick 10);
     mkSettlement "b" (Rejected "Network error") (tick 12)] in
  let events :=
    [Settle 0 "a" (Fulfilled [plainFinding "1" (3 # 10); plainFinding "2" (9 # 10)])
            (tick 10);
     StartScan "scan-2" "other" (Options.mk (Some ["b"])) (tick 11);
     Settle 0 "b" (Rejected "Network error") (tick 12);
     Settle 1 "b" (Fulfilled []) (tick 13)] in
  ∃ j,
    heap (run (startScan agg "scan-1" "testuser" (Options.mk None) (tick 0))
              events) !! 0%nat = Some j
    ∧ Scan.status (scan j) = completed
    ∧ Scan.results (scan j)
      = sort byConfidence (fuseResults AGGREGATOR_CONFIG (collected calls) "testuser")
    ∧ Scan.errors (scan j) = [AdapterError "b" "Network error"].
Proof.
  intros agg calls events.
  assert (reachable agg) as Hr.
  { exists AGGREGATOR_CONFIG, [Adapter.mk "a" 2; Adapter.mk "b" 1], []. reflexivity. }
  destruct (scan_completes_when_all_adapters_settle agg "scan-1" "testuser"
              (Options.mk None) (tick 0) calls events Hr)
    as (j & Hj & Hst & Hres & Herr & _).
  - reflexivity.
  - simpl. apply Permutation_swap.
  - reflexivity.
  - exists j. split; [exact Hj|]. split; [exact Hst|]. split; [exact Hres|exact Herr].
Defined.

(** * The final list in the client *)





(** * The cache round trip *)

(** The step on which a scan completes by its own [runScan] writes its
    final list to the cache, under the key of its query and options and
    with the time stamp that the step reads. *)
Lemma completing_step_stamps_cache agg e ref j1 :
  Config.enableCache (config agg) = true ->
  (∀ j, heap agg !! ref = Some j -> Scan.status (scan j) ≠ completed) ->
  heap (step agg e) !! ref = Some j1 ->
  Scan.status (scan j1) = completed -> Scan.fromCache (scan j1) = false ->
  ∃ clock,
    eventClock e = Some clock
    ∧ cache (step agg e)
        !! getCacheKey (Scan.query (scan j1)) (Scan.options (scan j1))
      = Some (CacheEntry.mk (Scan.results (scan j1)) (t_cache clock)).
Proof.
  intros Hon Hbefore Hj1 Hdone Hown.
  destruct (heap agg !! ref) as [j|] eqn:Hj.
  - specialize (Hbefore j eq_refl).
    pose proof (lookup_lt_Some _ _ _ Hj) as Hlt.
    destruct e as [a|scanId query options clock|ref' a o clock|ref'];
      simpl in Hj1 |- *.
    + congruence.
    + rewrite heap_startScan, lookup_app_l, Hj in Hj1 by done. congruence.
    + destruct (settle_job agg ref' a o clock ref j Hj) as (j' & Hj' & Hcase).
      rewrite Hj1 in Hj'. injection Hj' as <-.
      destruct Hcase as [->|(-> & Hin & ->)]; [done|].
      unfold settle. rewrite Hj, bool_decide_eq_true_2 by done.
      rewrite cache_resume. unfold resumed in Hdone |- *.
      destruct (raceWon (called j a o)) eqn:Hwon.
      * rewrite Hon. simpl. exists clock. split; [done|].
        destruct o; apply lookup_insert_eq.
      * simpl in Hdone. by rewrite status_adapterSettled in Hdone.
    + unfold deadline in Hj1 |- *. destruct (heap agg !! ref') as [j0|] eqn:Hj0.
      2:{ congruence. }
      destruct (raceSettled j0) eqn:Hs; [congruence|].
      rewrite heap_putJob in Hj1.
      destruct (decide (ref' = ref)) as [->|Hne].
      * rewrite list_lookup_insert_eq in Hj1 by done.
        injection Hj1 as <-. done.
      * rewrite list_lookup_insert_ne in Hj1 by done. congruence.
  - destruct (step_new_job agg e ref j1 Hj Hj1)
      as (scanId & query & options & clock & -> & -> & ->).
    simpl. unfold started in Hdone, Hown |- *. unfold startScan.
    destruct (cacheHit _ _ _); [done|].
    rewrite cache_resume. unfold resumed in Hdone |- *.
    destruct (raceWon _) eqn:Hwon; [|done].
    simpl. rewrite Hon. exists clock. split; [done|]. apply lookup_insert_eq.
Qed.

Lemma cache_resume_changed agg ref j clock cacheKey :
  (ref < length (heap agg))%nat ->
  cache (resume agg ref j clock) !! cacheKey ≠ cache agg !! cacheKey ->
  cacheKey = getCacheKey (Scan.query (scan j)) (Scan.options (scan j))
  ∧ heap (resume agg ref j clock) !! ref
    = Some (mkJob (completeScan (config agg) (scan j) (t_end clock)) [] true)
  ∧ cache (resume agg ref j clock) !! cacheKey
    = Some (CacheEntry.mk
              (Scan.results (completeScan (config agg) (scan j) (t_end clock)))
              (t_cache clock)).
Proof.
  intros Hlt. rewrite cache_resume, heap_resume. unfold resumed.
  destruct (raceWon j); simpl; [|done].
  destruct (Config.enableCache (config agg)); [|done].
  destruct (decide (cacheKey = getCacheKey (Scan.query (scan j))
                                           (Scan.options (scan j)))) as [->|Hne].
  - intros _. split; [done|]. rewrite list_lookup_insert_eq by done.
    by rewrite lookup_insert_eq.
  - by rewrite lookup_insert_ne.
Qed.

(** Only a scan that completes by its own [runScan] replaces a cache
    entry, and only that of its own key. *)
Lemma cache_entry_replaced agg e cacheKey :
  reachable agg ->
  cache (step agg e) !! cacheKey ≠ cache agg !! cacheKey ->
  ∃ ref j clock,
    eventClock e = Some clock
    ∧ heap (step agg e) !! ref = Some j
    ∧ (∀ j0, heap agg !! ref = Some j0 -> Scan.status (scan j0) ≠ completed)
    ∧ Scan.status (scan j) = completed
    ∧ Scan.fromCache (scan j) = false
    ∧ getCacheKey (Scan.query (scan j)) (Scan.options (scan j)) = cacheKey
    ∧ cache (step agg e) !! cacheKey
      = Some (CacheEntry.mk (Scan.results (scan j)) (t_cache clock)).
Proof.
  intros Hr. pose proof (reachable_ok agg Hr) as [Hheap _ _].
  destruct e as [a|scanId query options clock|ref a o clock|ref]; simpl.
  - done.
  - unfold startScan. destruct (cacheHit _ _ _); [done|].
    match goal with
    | |- cache (resume ?agg0 ?ref ?j ?clock) !! _ ≠ _ -> _ =>
        intros Hc;
        destruct (cache_resume_changed agg0 ref j clock cacheKey)
          as (-> & Hj & Hentry); [|exact Hc|]
    end.
    { simpl. rewrite length_app. simpl. lia. }
    eexists (length (heap agg)), _, clock. split; [done|]. split; [exact Hj|].
    split.
    { intros j0 Hj0. apply lookup_lt_Some in Hj0. lia. }
    repeat split; done.
  - unfold settle. destruct (heap agg !! ref) as [j|] eqn:Hj; [|done].
    case_bool_decide as Ha; [|done].
    intros Hc. apply cache_resume_changed in Hc as (-> & Hj' & Hentry).
    2:{ by apply lookup_lt_Some in Hj. }
    pose proof (Forall_lookup_1 _ _ _ _ Hheap Hj) as Hok.
    pose proof (Forall_lookup_1 _ _ _ _ (fromCache_at_rest agg Hr) Hj) as Hrest.
    simpl in Hrest.
    assert (Scan.status (scan j) ≠ completed) as Hopen.
    { intros Hdone. destruct (ok_completed j Hok Hdone) as (Hnil & _).
      rewrite Hnil in Ha. by apply elem_of_nil in Ha. }
    eexists ref, _, clock. split; [done|]. split; [exact Hj'|]. split.
    { intros j0 Hj0. rewrite Hj in Hj0. by injection Hj0 as <-. }
    split; [done|]. split; [|split; [|exact Hentry]].
    + destruct (Scan.fromCache (scan j)) eqn:Hfrom.
      * by destruct (Hrest eq_refl) as (Hdone & _).
      * simpl. by destruct o.
    + simpl. by destruct o.
  - unfold deadline. destruct (heap agg !! ref); [|done].
    by destruct (raceSettled _).
Qed.

(** C6, as stated, fails when two scans for the same query and options
    overlap: both miss the cache, the first completes and is cached, the
    second completes later and replaces the entry; a third scan, within the
    TTL of both, is served the list of the second scan, not of the first. *)
Lemma cache_overwritten_counterexample :
  let agg :=
    run (newAggregator AGGREGATOR_CONFIG [Adapter.mk "stub" 1])
        [StartScan "scan-1" "testuser" (Options.mk None) (tick 0);
         StartScan "scan-2" "testuser" (Options.mk None) (tick 1);
         Settle 0 "stub" (Fulfilled [plainFinding "1" (8 # 10)]) (tick 10);
         Settle 1 "stub" (Fulfilled [plainFinding "2" (6 # 10)]) (tick 20);
         StartScan "scan-3" "testuser" (Options.mk None) (tick 30)] in
  ∃ j1 j2 j3,
    heap agg !! 0%nat = Some j1 ∧ heap agg !! 1%nat = Some j2
    ∧ heap agg !! 2%nat = Some j3
    ∧ Scan.status (scan j1) = completed ∧ Scan.fromCache (scan j1) = false
    ∧ Scan.status (scan j3) = completed ∧ Scan.fromCache (scan j3) = true
    ∧ map Finding.id (Scan.results (scan j1)) = ["1"]
    ∧ map Finding.id (Scan.results (scan j3)) = ["2"]
    ∧ Scan.results (scan j3) = Scan.results (scan j2).
Proof. eexists _, _, _. by repeat (split; [reflexivity|]). Qed.

Lemma getCacheKey_unrestricted query names :
  getCacheKey query (Options.mk None) ≠ getCacheKey query (Options.mk (Some names)).
Proof.
  unfold getCacheKey. intros Heq. apply (String.app_inj query) in Heq.
  by injection Heq.
Qed.

(** C6 (amended).  Let a scan complete by its own [runScan], with caching
    enabled.  The step writes its final list to the cache, under the key
    made of the query, a colon and the JSON text of the options, stamped
    with the time the step reads.  Let anything follow that leaves this
    entry in place: an entry is replaced only by a step on which a scan of
    the same key completes by its own [runScan].  A [startScan] with the
    same query and options, issued while the entry is younger than the TTL,
    yields a completed job marked [fromCache] whose result list is the final
    list of the first scan; no adapter is called for it (nothing is pending,
    no other job and no cache entry changes).  When the age of the entry
    has reached the TTL the cache is missed: the new job is not marked and
    every selected adapter is called. *)
Theorem cache_round_trip agg e ref j1 events :
  Config.enableCache (config agg) = true ->
  (∀ j, heap agg !! ref = Some j -> Scan.status (scan j) ≠ completed) ->
  heap (step agg e) !! ref = Some j1 ->
  Scan.status (scan j1) = completed -> Scan.fromCache (scan j1) = false ->
  let query := Scan.query (scan j1) in
  let options := Scan.options (scan j1) in
  let agg1 := run (step agg e) events in
  cache agg1 !! getCacheKey query options
  = cache (step agg e) !! getCacheKey query options ->
  (∃ completion,
     eventClock e = Some completion
     ∧ cache agg1 !! getCacheKey query options
       = Some (CacheEntry.mk (Scan.results (scan j1)) (t_cache completion))
     ∧ ∀ scanId clock,
       let agg2 := startScan agg1 scanId query options clock in
       let ttl := Config.cacheTTL (config agg) * 1000 in
       (t_check clock - t_cache completion < ttl ->
        ∃ j2, heap agg2 = heap agg1 ++ [j2]
              ∧ Scan.fromCache (scan j2) = true
              ∧ Scan.status (scan j2) = completed
              ∧ Scan.results (scan j2) = Scan.results (scan j1)
              ∧ pending j2 = []
              ∧ cache agg2 = cache agg1)
       ∧ (ttl <= t_check clock - t_cache completion ->
          cacheHit agg1 (getCacheKey query options) (t_check clock) = None
          ∧ ∃ j2, heap agg2 = heap agg1 ++ [j2]
                  ∧ Scan.fromCache (scan j2) = false
                  ∧ (selectedAdapters agg1 options ≠ [] ->
                     Scan.status (scan j2) = running
                     ∧ pending j2
                       = map Adapter.name (selectedAdapters agg1 options))))
  ∧ (∀ agg' e' cacheKey,
        reachable agg' ->
        cache (step agg' e') !! cacheKey ≠ cache agg' !! cacheKey ->
        ∃ ref' j' clock',
          eventClock e' = Some clock'
          ∧ heap (step agg' e') !! ref' = Some j'
          ∧ (∀ j0, heap agg' !! ref' = Some j0 ->
                   Scan.status (scan j0) ≠ completed)
          ∧ Scan.status (scan j') = completed
          ∧ Scan.fromCache (scan j') = false
          ∧ getCacheKey (Scan.query (scan j')) (Scan.options (scan j')) = cacheKey
          ∧ cache (step agg' e') !! cacheKey
            = Some (CacheEntry.mk (Scan.results (scan j')) (t_cache clock')))
  ∧ getCacheKey "testuser" (Options.mk (Some ["github"; "reddit"]))
    = ("testuser:{" ++ quote ++ "adapters" ++ quote ++ ":[" ++ quote ++ "github"
       ++ quote ++ "," ++ quote ++ "reddit" ++ quote ++ "]}")%string
  ∧ getCacheKey "testuser" (Options.mk None) = "testuser:{}"
  ∧ ∀ q names,
      getCacheKey q (Options.mk None) ≠ getCacheKey q (Options.mk (Some names)).
Proof.
  intros Hon Hbefore Hj1 Hdone Hown query options agg1 Hkept.
  split; [|split; [|split; [|split]]].
  2:{ intros agg' e' cacheKey. apply cache_entry_replaced. }
  2:{ reflexivity. }
  2:{ reflexivity. }
  2:{ apply getCacheKey_unrestricted. }
  destruct (completing_step_stamps_cache agg e ref j1 Hon Hbefore Hj1 Hdone Hown)
    as (completion & Hclock & Hentry).
  fold query options in Hentry. rewrite <-Hkept in Hentry.
  exists completion. split; [exact Hclock|]. split; [exact Hentry|].
  intros scanId clock. cbv zeta.
  set (key := getCacheKey query options) in *.
  assert (config agg1 = config agg) as Hcfg
    by (subst agg1; by rewrite config_run, config_step).
  split.
  - intros Hfresh.
    assert (cacheHit agg1 key (t_check clock)
            = Some (CacheEntry.mk (Scan.results (scan j1)) (t_cache completion)))
      as Hhit.
    { apply cacheHit_Some. rewrite Hcfg. by repeat split. }
    eexists. split; [apply heap_startScan|].
    unfold started. fold key. rewrite Hhit. simpl. repeat split.
    unfold startScan. fold key. by rewrite Hhit.
  - intros Hstale.
    assert (cacheHit agg1 key (t_check clock) = None) as Hmiss.
    { destruct (cacheHit agg1 key (t_check clock)) as [c|] eqn:Hhit; [|done].
      apply cacheHit_Some in Hhit as (_ & Hc & Hage).
      rewrite Hentry in Hc. injection Hc as <-. simpl in Hage.
      rewrite Hcfg in Hage. lia. }
    split; [done|].
    eexists. split; [apply heap_startScan|].
    unfold started. fold key. rewrite Hmiss. unfold resumed, raceWon. simpl.
    destruct (selectedAdapters agg1 options); simpl; by split.
Qed.

Lemma cache_round_trip_witness :
  let agg :=
    run (newAggregator AGGREGATOR_CONFIG [Adapter.mk "stub" 1])
        [StartScan "scan-1" "testuser" (Options.mk None) (tick 0)] in
  let e := Settle 0 "stub" (Fulfilled [plainFinding "1" (8 # 10)]) (tick 10) in
  let between := [StartScan "scan-2" "other" (Options.mk None) (tick 20)] in
  let again :=
    startScan (run (step agg e) between) "scan-3" "testuser" (Options.mk None)
              (tick 3600009) in
  ∃ j1 j2,
    heap (step agg e) !! 0%nat = Some j1
    ∧ heap again = heap (run (step agg e) between) ++ [j2]
    ∧ Scan.fromCache (scan j2) = true
    ∧ Scan.results (scan j2) = Scan.results (scan j1).
Proof.
  intros agg e between again.
  destruct (heap (step agg e) !! 0%nat) as [j1|] eqn:Hj1;
    [|by vm_compute in Hj1].
  pose proof Hj1 as Hj1c. vm_compute in Hj1c. injection Hj1c as Hj1c.
  destruct (cache_round_trip agg e 0%nat j1 between)
    as ((completion & Hclock & Hentry & Hround) & _).
  - reflexivity.
  - intros j Hj. vm_compute in Hj. injection Hj as <-. discriminate.
  - exact Hj1.
  - by rewrite <-Hj1c.
  - by rewrite <-Hj1c.
  - rewrite <-Hj1c. by vm_compute.
  - injection Hclock as <-.
    destruct (Hround "scan-3" (tick 3600009)) as [Hhit _].
    destruct Hhit as (j2 & Hheap & Hfrom & _ & Hres & _); [by vm_compute|].
    exists j1, j2. rewrite <-Hj1c in Hheap. by repeat split.
Defined.
